(** * advanced-vector: RawMemory<T> and Vector<T> (vector.h)

    A shallow embedding of the two class templates of [vector.h] and the
    properties of its specification.

    The embedding keeps what the C++ code manipulates:
    - raw storage is a heap of blocks, a block is a list of slots, a slot
      is either uninitialised memory ([None]) or a live object ([Some x]);
    - [T*] is a block and an offset; [std::size_t] arithmetic wraps at
      2^64;
    - [Vector] objects live at addresses of an object store, so that
      [this != &rhs] is a comparison of addresses;
    - a member function is a computation over the program state that
      returns, lets an exception escape, stops in a failed [assert]
      (the asserts are compiled in, as in a debug build) or has
      undefined behaviour;
    - the special member functions of [T] are observed through a trace
      of events, and an oracle decides which potentially-throwing call
      throws. *)

From stdpp Require Import base list.
From Stdlib Require Import NArith Lia.

(** ** [std::size_t] *)

Module size_t.

Definition modulus : N := 18446744073709551616%N.

Definition wrap (n : N) : nat := N.to_nat (n mod modulus).

Definition add (a b : nat) : nat := wrap (N.of_nat a + N.of_nat b).
Definition mul (a b : nat) : nat := wrap (N.of_nat a * N.of_nat b).
Definition sub (a b : nat) : nat :=
  wrap (N.of_nat a mod modulus + (modulus - N.of_nat b mod modulus)).

(** [n] is the value of some [std::size_t]. *)
Definition fits (n : nat) : Prop := (N.of_nat n < modulus)%N.

Global Arguments add : simpl never.
Global Arguments mul : simpl never.
Global Arguments sub : simpl never.

End size_t.

(** ** Pointers

    A [T*] is the block it points into ([None] for a pointer derived
    from [nullptr]) and an offset counted in elements. *)

Record Ptr := mkPtr { base : option nat; off : nat }.

Definition nullptr : Ptr := mkPtr None 0.

(** [p + k] *)
Definition ptr_add (p : Ptr) (k : nat) : Ptr := mkPtr (base p) (off p + k).

Definition ptr_eqb (p q : Ptr) : bool :=
  bool_decide (base p = base q) && (off p =? off q).

Notation "p +ₚ k" := (ptr_add p k) (at level 50, left associativity).

(** ** The two classes' data members *)

(** [RawMemory<T>]: [T* buffer_; size_t capacity_]. *)
Record RawMemory := mkRawMemory { buffer_ : Ptr; capacity_ : nat }.

(** [Vector<T>]: [RawMemory<T> data_; size_t size_]. *)
Record Vector := mkVector { data_ : RawMemory; size_ : nat }.

Section AdvancedVector.

Context {T : Type}.

(** What is known of the element type [T]:
    the state a move leaves its source in, the value [T()] produces, the
    two traits [Reserve], [EmplaceBack] and [InsertAndReallocate] branch
    on, and [sizeof(T)]. *)
Variable moved_from : T → T.
Variable value_init : T.
Variable is_nothrow_move_constructible : bool.
Variable is_copy_constructible : bool.
Variable sizeof_T : nat.

(** Calls the container makes to the allocator and to [T]. *)
Inductive Event :=
| EvNew (bytes : nat)          (* operator new (bytes) *)
| EvDelete (b : nat)           (* operator delete released block b *)
| EvCtor (x : T)               (* T(args...) built x *)
| EvValueCtor                  (* T() *)
| EvCopyCtor (x : T)           (* T(const T&) from x *)
| EvMoveCtor (x : T)           (* T(T&&) from x *)
| EvCopyAssign (dst src : T)   (* dst = src *)
| EvMoveAssign (dst src : T)   (* dst = std::move(src) *)
| EvDtor (x : T).              (* ~T() on x *)

(** [throws history call]: the call, made after [history], throws. *)
Variable throws : list Event → Event → bool.

(** Some call can throw at all. *)
Definition injected : Prop := ∃ h e, throws h e = true.

(** No call ever throws. *)
Definition quiet : Prop := ∀ h e, throws h e = false.

(** ** Program state *)

Record State := mkState {
  objs : list Vector;                      (* Vector objects, by address *)
  heap : list (option (list (option T)));  (* blocks, by number; None: released *)
  leaked : list T;                         (* objects whose storage went away undestroyed *)
  trace : list Event                       (* calls so far, oldest first *)
}.

Inductive Result (A : Type) :=
| Done (a : A) (s : State)     (* returned a *)
| Thrown (s : State)           (* an exception is propagating *)
| AssertFailed                 (* assert() failed *)
| Undefined.                   (* undefined behaviour *)
Global Arguments Done {A} a s.
Global Arguments Thrown {A} s.
Global Arguments AssertFailed {A}.
Global Arguments Undefined {A}.

Definition M (A : Type) : Type := State → Result A.

Definition ret {A} (a : A) : M A := λ s, Done a s.

Definition bind {A B} (m : M A) (f : A → M B) : M B := λ s,
  match m s with
  | Done a s' => f a s'
  | Thrown s' => Thrown s'
  | AssertFailed => AssertFailed
  | Undefined => Undefined
  end.

Definition throw {A} : M A := λ s, Thrown s.
Definition undefined {A} : M A := λ _, Undefined.

(** [assert(b)] *)
Definition assert (b : bool) : M unit := λ s,
  if b then Done tt s else AssertFailed.

(** [try { body } catch (...) { handler }] *)
Definition try_catch {A} (body handler : M A) : M A := λ s,
  match body s with
  | Thrown s' => handler s'
  | r => r
  end.

(** Stack unwinding: [cleanup] is what the destructors of the locals in
    scope around [body] do when an exception leaves [body]. A destructor
    that itself throws calls [std::terminate]. *)
Definition on_unwind {A} (cleanup : M unit) (body : M A) : M A := λ s,
  match body s with
  | Thrown s' =>
      match cleanup s' with
      | Done _ s'' => Thrown s''
      | AssertFailed => AssertFailed
      | _ => Undefined
      end
  | r => r
  end.

Global Instance M_ret : MRet M := @ret.
Global Instance M_bind : MBind M := λ A B f m, bind m f.

(** ** Raw storage and object lifetime *)

Definition log (e : Event) (s : State) : State :=
  mkState (objs s) (heap s) (leaked s) (trace s ++ [e]).

(** A call that may throw. *)
Definition call (e : Event) : M unit := λ s,
  if throws (trace s) e then Thrown s else Done tt (log e s).

(** A [noexcept] call. *)
Definition note (e : Event) : M unit := λ s, Done tt (log e s).

(** The slot [p] points at, if [p] points into a block that is still
    allocated and stays inside it. *)
Definition slot_at (s : State) (p : Ptr) : option (option T) :=
  match base p with
  | Some b =>
      match heap s !! b with
      | Some (Some blk) => blk !! off p
      | _ => None
      end
  | None => None
  end.

Definition write_slot (p : Ptr) (v : option T) (s : State) : State :=
  match base p with
  | Some b =>
      match heap s !! b with
      | Some (Some blk) =>
          mkState (objs s) (<[b := Some (<[off p := v]> blk)]> (heap s))
                  (leaked s) (trace s)
      | _ => s
      end
  | None => s
  end.

(** Reading the object at [p]: it must be alive. *)
Definition load (p : Ptr) : M T := λ s,
  match slot_at s p with
  | Some (Some x) => Done x s
  | _ => Undefined
  end.

(** The object at [p] takes the value [x]: it must be alive. *)
Definition store (p : Ptr) (x : T) : M unit := λ s,
  match slot_at s p with
  | Some (Some _) => Done tt (write_slot p (Some x) s)
  | _ => Undefined
  end.

(** Placement new: an object of value [x] starts to live at [p]. Storage
    that held a live object is reused without running its destructor. *)
Definition construct_at (p : Ptr) (x : T) : M unit := λ s,
  match slot_at s p with
  | Some None => Done tt (write_slot p (Some x) s)
  | Some (Some y) =>
      let s' := write_slot p (Some x) s in
      Done tt (mkState (objs s') (heap s') (leaked s' ++ [y]) (trace s'))
  | None => Undefined
  end.

(** [std::destroy_at(p)] *)
Definition destroy_at (p : Ptr) : M unit := λ s,
  match slot_at s p with
  | Some (Some x) => Done tt (write_slot p None (log (EvDtor x) s))
  | _ => Undefined
  end.

(** [operator new (bytes)]: a fresh block of raw memory, used as
    [bytes / sizeof(T)] slots. *)
Definition operator_new (bytes : nat) : M Ptr := λ s,
  if throws (trace s) (EvNew bytes) then Thrown s
  else Done (mkPtr (Some (length (heap s))) 0)
            (mkState (objs s)
                     (heap s ++ [Some (replicate (bytes / sizeof_T) None)])
                     (leaked s) (trace s ++ [EvNew bytes])).

(** [operator delete (p)]: nothing for [nullptr]; otherwise [p] must be
    what [operator new] returned for a block not yet released. Objects
    still alive in the block are never destroyed. *)
Definition operator_delete (p : Ptr) : M unit := λ s,
  match base p with
  | None => if off p =? 0 then Done tt s else Undefined
  | Some b =>
      match heap s !! b with
      | Some (Some blk) =>
          if off p =? 0 then
            Done tt (mkState (objs s) (<[b := None]> (heap s))
                             (leaked s ++ omap id blk)
                             (trace s ++ [EvDelete b]))
          else Undefined
      | _ => Undefined
      end
  end.

(** [p - k] *)
Definition ptr_sub (p : Ptr) (k : nat) : M Ptr :=
  if off p <? k then undefined else ret (mkPtr (base p) (off p - k)).

(** [p <= q], for pointers into the same block. *)
Definition ptr_le (p q : Ptr) : M bool :=
  if bool_decide (base p = base q) then ret (off p <=? off q) else undefined.

(** [p - q] converted to [std::size_t]. *)
Definition ptr_diff (p q : Ptr) : M nat :=
  if bool_decide (base p = base q) then ret (size_t.sub (off p) (off q))
  else undefined.

(** The length of the range [[first, last)]. *)
Definition distance (first last : Ptr) : M nat :=
  if bool_decide (base first = base last) && (off first <=? off last)
  then ret (off last - off first) else undefined.

(** ** Special member functions of [T] *)

(** [new (p) T(std::forward<Args>(args)...)], where the constructor
    builds the value [x] from the arguments. *)
Definition construct_from_args (p : Ptr) (x : T) : M unit :=
  call (EvCtor x);; construct_at p x.

(** [new (p) T(v)] for the object [v] at [src] *)
Definition copy_construct (p src : Ptr) : M unit :=
  x ← load src; call (EvCopyCtor x);; construct_at p x.

Definition call_move_ctor (x : T) : M unit :=
  if is_nothrow_move_constructible then note (EvMoveCtor x)
  else call (EvMoveCtor x).

(** [new (p) T(std::move(v))] for the object [v] at [src] *)
Definition move_construct (p src : Ptr) : M unit :=
  x ← load src; call_move_ctor x;; construct_at p x;;
  store src (moved_from x).

(** [new (p) T()] *)
Definition value_construct (p : Ptr) : M unit :=
  call EvValueCtor;; construct_at p value_init.

(** [d = v] for the objects [d] at [dst] and [v] at [src] *)
Definition copy_assign (dst src : Ptr) : M unit :=
  x ← load src; y ← load dst; call (EvCopyAssign y x);; store dst x.

(** [d = std::move(v)] for the objects [d] at [dst] and [v] at [src] *)
Definition move_assign (dst src : Ptr) : M unit :=
  x ← load src; y ← load dst; call (EvMoveAssign y x);;
  store dst x;; store src (moved_from x).

(** [d = std::move(temp)] for the object [d] at [dst] and a local [temp] of value [x]; returns
    the state [temp] is left in. *)
Definition move_assign_from_local (dst : Ptr) (x : T) : M T :=
  y ← load dst; call (EvMoveAssign y x);; store dst x;;
  ret (moved_from x).

(** ** The standard algorithms the container calls *)

(** [std::destroy_n(first, n)] *)
Fixpoint destroy_n (first : Ptr) (n : nat) : M unit :=
  match n with
  | 0 => ret tt
  | S n' => destroy_at first;; destroy_n (first +ₚ 1) n'
  end.

(** [std::uninitialized_copy_n(first, n, result)]: when a constructor
    throws, the objects already built are destroyed and the exception
    goes on. *)
Fixpoint uninitialized_copy_n (first : Ptr) (n : nat) (result : Ptr)
  : M unit :=
  match n with
  | 0 => ret tt
  | S n' =>
      copy_construct result first;;
      on_unwind (destroy_at result)
                (uninitialized_copy_n (first +ₚ 1) n' (result +ₚ 1))
  end.

(** [std::uninitialized_move_n(first, n, result)] *)
Fixpoint uninitialized_move_n (first : Ptr) (n : nat) (result : Ptr)
  : M unit :=
  match n with
  | 0 => ret tt
  | S n' =>
      move_construct result first;;
      on_unwind (destroy_at result)
                (uninitialized_move_n (first +ₚ 1) n' (result +ₚ 1))
  end.

(** [std::uninitialized_value_construct_n(first, n)] *)
Fixpoint uninitialized_value_construct_n (first : Ptr) (n : nat)
  : M unit :=
  match n with
  | 0 => ret tt
  | S n' =>
      value_construct first;;
      on_unwind (destroy_at first)
                (uninitialized_value_construct_n (first +ₚ 1) n')
  end.

(** [std::copy_n(first, n, result)] *)
Fixpoint copy_n (first : Ptr) (n : nat) (result : Ptr) : M unit :=
  match n with
  | 0 => ret tt
  | S n' => copy_assign result first;; copy_n (first +ₚ 1) n' (result +ₚ 1)
  end.

Fixpoint move_n (first : Ptr) (n : nat) (d_first : Ptr) : M unit :=
  match n with
  | 0 => ret tt
  | S n' => move_assign d_first first;; move_n (first +ₚ 1) n' (d_first +ₚ 1)
  end.

(** [std::move(first, last, d_first)]: [[first, last)] must be a range. *)
Definition std_move (first last d_first : Ptr) : M unit :=
  n ← distance first last; move_n first n d_first.

Fixpoint move_backward_n (last : Ptr) (n : nat) (d_last : Ptr) : M unit :=
  match n with
  | 0 => ret tt
  | S n' =>
      last' ← ptr_sub last 1; d_last' ← ptr_sub d_last 1;
      move_assign d_last' last';; move_backward_n last' n' d_last'
  end.

(** [std::move_backward(first, last, d_last)] *)
Definition move_backward (first last d_last : Ptr) : M unit :=
  n ← distance first last; move_backward_n last n d_last.

(** ** [RawMemory<T>] *)

(** [static T* Allocate(size_t n)] *)
Definition Allocate (n : nat) : M Ptr :=
  if n =? 0 then ret nullptr else operator_new (size_t.mul n sizeof_T).

(** [static void Deallocate(T* buf) noexcept] *)
Definition Deallocate (buf : Ptr) : M unit := operator_delete buf.

(** [RawMemory() = default] *)
Definition RawMemory_default : RawMemory := mkRawMemory nullptr 0.

(** [explicit RawMemory(size_t capacity)] *)
Definition RawMemory_new (capacity : nat) : M RawMemory :=
  buf ← Allocate capacity; ret (mkRawMemory buf capacity).

(** [RawMemory(RawMemory&& other) noexcept]: the new object and what is
    left in [other]. *)
Definition RawMemory_move (other : RawMemory) : RawMemory * RawMemory :=
  (mkRawMemory (buffer_ other) (capacity_ other), mkRawMemory nullptr 0).

(** [RawMemory& operator=(RawMemory&& rhs) noexcept]; [distinct] is
    [this != &rhs]. Gives the new [*this] and the new [rhs]. *)
Definition RawMemory_assign_move (distinct : bool) (this rhs : RawMemory)
  : RawMemory * RawMemory :=
  if distinct
  then (mkRawMemory (buffer_ rhs) (capacity_ rhs), mkRawMemory nullptr 0)
  else (this, rhs).

(** [~RawMemory()] *)
Definition RawMemory_delete (this : RawMemory) : M unit :=
  Deallocate (buffer_ this).

(** [T* operator+(size_t offset) noexcept] *)
Definition RawMemory_plus (this : RawMemory) (offset : nat) : M Ptr :=
  assert (offset <=? capacity_ this);; ret (buffer_ this +ₚ offset).

(** [T& operator[](size_t index) noexcept] *)
Definition RawMemory_index (this : RawMemory) (index : nat) : M Ptr :=
  assert (index <? capacity_ this);; ret (buffer_ this +ₚ index).

(** [void Swap(RawMemory& other) noexcept]: the new [*this] and the new
    [other]. *)
Definition RawMemory_Swap (this other : RawMemory) : RawMemory * RawMemory :=
  (mkRawMemory (buffer_ other) (capacity_ other),
   mkRawMemory (buffer_ this) (capacity_ this)).

Definition GetAddress (this : RawMemory) : Ptr := buffer_ this.

Definition RawMemory_Capacity (this : RawMemory) : nat := capacity_ this.

(** A local [RawMemory<T> new_data(capacity)]. [body] returns, next to its
    result, what [new_data] holds when the scope ends; the destructor
    runs there. When an exception leaves [body] the destructor runs on
    the block the constructor allocated: in each scope of [vector.h]
    nothing can throw once [new_data] has been swapped. *)
Definition with_new_data {A} (capacity : nat)
    (body : RawMemory → M (A * RawMemory)) : M A :=
  new_data ← RawMemory_new capacity;
  r ← on_unwind (RawMemory_delete new_data) (body new_data);
  RawMemory_delete r.2;; ret r.1.

(** ** [Vector<T>] *)

(** Objects of type [Vector<T>] are read and written through their
    address. A reference to an object that does not exist is dangling. *)
Definition get_obj (a : nat) : M Vector := λ s,
  match objs s !! a with
  | Some v => Done v s
  | None => Undefined
  end.

Definition set_obj (a : nat) (v : Vector) : M unit := λ s,
  match objs s !! a with
  | Some _ => Done tt (mkState (<[a := v]> (objs s)) (heap s) (leaked s) (trace s))
  | None => Undefined
  end.

Definition get_data (this : nat) : M RawMemory :=
  v ← get_obj this; ret (data_ v).

Definition get_size (this : nat) : M nat :=
  v ← get_obj this; ret (size_ v).

Definition set_data (this : nat) (d : RawMemory) : M unit :=
  v ← get_obj this; set_obj this (mkVector d (size_ v)).

Definition set_size (this : nat) (n : nat) : M unit :=
  v ← get_obj this; set_obj this (mkVector (data_ v) n).

(** [begin()], [cbegin()]: [data_ + 0] *)
Definition begin (this : nat) : M Ptr :=
  d ← get_data this; RawMemory_plus d 0.

(** [end()], [cend()]: [data_ + size_] *)
Definition end_ (this : nat) : M Ptr :=
  d ← get_data this; size ← get_size this; RawMemory_plus d size.

Definition cbegin (this : nat) : M Ptr := begin this.
Definition cend (this : nat) : M Ptr := end_ this.

(** [Vector() = default] *)
Definition Vector_default : Vector := mkVector RawMemory_default 0.


(** [Vector(const Vector& other)] *)
Definition Vector_copy (other : nat) : M Vector :=
  o ← get_obj other;
  data ← RawMemory_new (size_ o);
  on_unwind (RawMemory_delete data)
            (uninitialized_copy_n (GetAddress (data_ o)) (size_ o)
                                  (GetAddress data));;
  ret (mkVector data (size_ o)).

(** [Vector(Vector&& other) noexcept] *)
Definition Vector_move (other : nat) : M Vector :=
  o ← get_obj other;
  let '(data, rest) := RawMemory_move (data_ o) in
  set_obj other (mkVector rest 0);;
  ret (mkVector data (size_ o)).

(** [~Vector()], followed by the destructor of the member [data_]. *)
Definition Vector_delete (this : nat) : M unit :=
  v ← get_obj this;
  destroy_n (GetAddress (data_ v)) (size_ v);;
  RawMemory_delete (data_ v).


(** [size_t Capacity() const noexcept] *)
Definition Capacity (this : nat) : M nat :=
  d ← get_data this; ret (RawMemory_Capacity d).

(** [T& operator[](size_t index) noexcept] *)
Definition Vector_index (this : nat) (index : nat) : M Ptr :=
  d ← get_data this; RawMemory_index d index.

(** [void Swap(Vector& other) noexcept] *)
Definition Swap (this other : nat) : M unit :=
  if bool_decide (this ≠ other) then
    a ← get_obj this; b ← get_obj other;
    let '(da, db) := RawMemory_Swap (data_ a) (data_ b) in
    set_obj this (mkVector da (size_ b));;
    set_obj other (mkVector db (size_ a))
  else ret tt.

(** A local [Vector] object: it gets an address of its own, and its
    destructor runs when the scope ends, also by an exception. *)
Definition push_local (v : Vector) : M nat := λ s,
  Done (length (objs s))
       (mkState (objs s ++ [v]) (heap s) (leaked s) (trace s)).

Definition pop_local : M unit := λ s,
  Done tt (mkState (removelast (objs s)) (heap s) (leaked s) (trace s)).

Definition with_local_Vector {A} (init : M Vector) (body : nat → M A) : M A :=
  v ← init; a ← push_local v;
  r ← on_unwind (Vector_delete a;; pop_local) (body a);
  Vector_delete a;; pop_local;; ret r.

(** [Vector& operator=(const Vector& rhs)] *)
Definition assign_copy (this rhs : nat) : M unit :=
  if bool_decide (this ≠ rhs) then
    r ← get_obj rhs; d ← get_data this;
    (if capacity_ d <? size_ r then
       with_local_Vector (Vector_copy rhs) (λ rhs_copy, Swap this rhs_copy)
     else
       size ← get_size this;
       copy_n (GetAddress (data_ r)) (size `min` size_ r) (GetAddress d);;
       if size_ r <=? size then
         p ← RawMemory_plus d (size_ r);
         destroy_n p (size_t.sub size (size_ r))
       else
         src ← RawMemory_plus (data_ r) size;
         dst ← RawMemory_plus d size;
         uninitialized_copy_n src (size_t.sub (size_ r) size) dst);;
    r ← get_obj rhs; set_size this (size_ r)
  else ret tt.

(** [Vector& operator=(Vector&& rhs) noexcept] *)
Definition assign_move (this rhs : nat) : M unit :=
  if bool_decide (this ≠ rhs) then
    v ← get_obj this; r ← get_obj rhs;
    let '(d, rd) := RawMemory_assign_move true (data_ v) (data_ r) in
    set_obj this (mkVector d (size_ r));;
    set_obj rhs (mkVector rd 0)
  else ret tt.

(** The condition of the three [if constexpr]:
    [std::is_nothrow_move_constructible_v<T> || !std::is_copy_constructible_v<T>] *)
Definition relocate_by_move : bool :=
  is_nothrow_move_constructible || negb is_copy_constructible.

(** [void Reserve(size_t new_capacity)] *)
Definition Reserve (this : nat) (new_capacity : nat) : M unit :=
  d ← get_data this;
  if new_capacity <=? RawMemory_Capacity d then ret tt
  else
    with_new_data new_capacity (λ new_data,
      size ← get_size this;
      (if relocate_by_move
       then uninitialized_move_n (GetAddress d) size (GetAddress new_data)
       else uninitialized_copy_n (GetAddress d) size (GetAddress new_data));;
      destroy_n (GetAddress d) size;;
      let '(d', new_data') := RawMemory_Swap d new_data in
      set_data this d';;
      ret (tt, new_data')).

(** [void Resize(size_t new_size)] *)
Definition Resize (this : nat) (new_size : nat) : M unit :=
  size ← get_size this;
  (if new_size <=? size then
     d ← get_data this; p ← RawMemory_plus d new_size;
     destroy_n p (size_t.sub size new_size)
   else
     Reserve this new_size;;
     d ← get_data this; p ← RawMemory_plus d size;
     uninitialized_value_construct_n p (size_t.sub new_size size));;
  set_size this new_size.

(** [T& EmplaceBack(Args&&... args)], the constructor building [x]. *)
Definition EmplaceBack (this : nat) (x : T) : M Ptr :=
  size ← get_size this; cap ← Capacity this;
  (if size =? cap then
     with_new_data (if size =? 0 then 1 else size_t.mul size 2) (λ new_data,
       p ← RawMemory_plus new_data size;
       construct_from_args p x;;
       d ← get_data this;
       (if relocate_by_move
        then uninitialized_move_n (GetAddress d) size (GetAddress new_data)
        else uninitialized_copy_n (GetAddress d) size (GetAddress new_data));;
       destroy_n (GetAddress d) size;;
       let '(d', new_data') := RawMemory_Swap d new_data in
       set_data this d';;
       ret (tt, new_data'))
   else
     d ← get_data this; p ← RawMemory_plus d size;
     construct_from_args p x);;
  d ← get_data this; size ← get_size this;
  r ← RawMemory_index d size;
  set_size this (size_t.add size 1);;
  ret r.

(** [void PushBack(Value&& value)] *)
Definition PushBack (this : nat) (value : T) : M unit :=
  EmplaceBack this value;; ret tt.

(** [void PopBack()] *)
Definition PopBack (this : nat) : M unit :=
  size ← get_size this;
  assert (negb (size =? 0));;
  d ← get_data this; e ← RawMemory_plus d size; p ← ptr_sub e 1;
  destroy_at p;;
  set_size this (size_t.sub size 1).

(** [void InsertAndReallocate(std::size_t offset, Args&&... args)] *)
Definition InsertAndReallocate (this : nat) (offset : nat) (x : T) : M unit :=
  size ← get_size this;
  with_new_data (if size =? 0 then 1 else size_t.mul size 2) (λ new_data,
    construct_from_args (GetAddress new_data +ₚ offset) x;;
    d ← get_data this;
    (if relocate_by_move then
       uninitialized_move_n (GetAddress d) offset (GetAddress new_data);;
       uninitialized_move_n (GetAddress d +ₚ offset) (size_t.sub size offset)
                            (GetAddress new_data +ₚ offset +ₚ 1)
     else
       uninitialized_copy_n (GetAddress d) offset (GetAddress new_data);;
       uninitialized_copy_n (GetAddress d +ₚ offset) (size_t.sub size offset)
                            (GetAddress new_data +ₚ offset +ₚ 1));;
    destroy_n (GetAddress d) size;;
    let '(d', new_data') := RawMemory_Swap d new_data in
    set_data this d';;
    ret (tt, new_data')).

(** [void InsertWithoutReallocating(const_iterator pos, std::size_t offset, Args&&... args)].
    The local [T temp] is destroyed when its scope ends, also by an
    exception. *)
Definition InsertWithoutReallocating (this : nat) (pos : Ptr) (offset : nat)
    (x : T) : M unit :=
  ce ← cend this;
  if negb (ptr_eqb pos ce) then
    call (EvCtor x);;
    temp ← on_unwind (note (EvDtor x))
      (e ← end_ this;
       d ← get_data this; size ← get_size this;
       back ← RawMemory_index d (size_t.sub size 1);
       move_construct e back;;
       b ← begin this; e1 ← end_ this; e1' ← ptr_sub e1 1; e2 ← end_ this;
       move_backward (b +ₚ offset) e1' e2;;
       b ← begin this;
       move_assign_from_local (b +ₚ offset) x);
    note (EvDtor temp)
  else
    e ← end_ this; construct_from_args e x.

(** [pos >= cbegin() && pos <= cend()] *)
Definition in_range (this : nat) (pos : Ptr) : M bool :=
  cb ← cbegin this; c ← ptr_le cb pos;
  if (c : bool) then ce ← cend this; ptr_le pos ce else ret false.

(** [iterator Emplace(const_iterator pos, Args&&... args)] *)
Definition Emplace (this : nat) (pos : Ptr) (x : T) : M Ptr :=
  c ← in_range this pos; assert c;;
  cb ← cbegin this; offset ← ptr_diff pos cb;
  size ← get_size this; cap ← Capacity this;
  (if size =? cap then InsertAndReallocate this offset x
   else
     try_catch (InsertWithoutReallocating this pos offset x)
               (e ← end_ this; operator_delete e;; throw));;
  size ← get_size this; set_size this (size_t.add size 1);;
  b ← begin this; ret (b +ₚ offset).

(** [iterator Insert(const_iterator pos, const T& value)] and
    [iterator Insert(const_iterator pos, T&& value)] *)
Definition Insert (this : nat) (pos : Ptr) (value : T) : M Ptr :=
  Emplace this pos value.

(** [iterator Erase(const_iterator pos)] *)
Definition Erase (this : nat) (pos : Ptr) : M Ptr :=
  c ← in_range this pos; assert c;;
  cb ← cbegin this; offset ← ptr_diff pos cb;
  b ← begin this; e ← end_ this; b' ← begin this;
  std_move (b +ₚ offset +ₚ 1) e (b' +ₚ offset);;
  ce ← cend this; p ← ptr_sub ce 1; destroy_at p;;
  size ← get_size this; set_size this (size_t.sub size 1);;
  b ← begin this; ret (b +ₚ offset).

(** * Specification vocabulary *)

(** ** Representation

    The vector at address [this] owns the block at [buf], of [cap] slots,
    and its elements are [l], in order: the first [length l] slots hold
    live objects, the others are raw memory. *)

Definition slots_of (l : list T) (cap : nat) : list (option T) :=
  (Some <$> l) ++ replicate (cap - length l) None.

Definition holds (s : State) (buf : Ptr) (cap : nat) (l : list T) : Prop :=
  length l ≤ cap ∧ size_t.fits (cap * sizeof_T) ∧ off buf = 0 ∧
  match base buf with
  | None => cap = 0
  | Some b => heap s !! b = Some (Some (slots_of l cap))
  end.

Definition vector_at (s : State) (this : nat) (buf : Ptr) (cap : nat)
    (l : list T) : Prop :=
  objs s !! this = Some (mkVector (mkRawMemory buf cap) (length l))
  ∧ holds s buf cap l.

(** What relocation leaves in the old slots, and the constructor calls
    it makes. *)
Definition relocated (l : list T) : list T :=
  if relocate_by_move then moved_from <$> l else l.

Definition relocation_events (l : list T) : list Event :=
  if relocate_by_move then EvMoveCtor <$> l else EvCopyCtor <$> l.

(** The block at [buf] becomes [blk]; nothing changes for [nullptr]. *)
Definition update_old (buf : Ptr) (blk : option (list (option T)))
    (h : list (option (list (option T)))) : list (option (list (option T))) :=
  match base buf with
  | Some b => <[b := blk]> h
  | None => h
  end.

(** Releasing the block at [buf]. *)
Definition release (buf : Ptr) (h : list (option (list (option T))))
  : list (option (list (option T))) :=
  update_old buf None h.

(** A computation that did not return. *)
Definition failed {A} (r : Result A) : Prop :=
  match r with Done _ _ => False | _ => True end.

(** The outcomes of a relocation loop: all elements relocated ([ok]); a
    copy constructor threw and the state is as before; a move
    constructor that may throw threw. *)
Definition relocation_outcome {A} (r : Result A) (s : State) (ok : Result A)
  : Prop :=
  r = ok
  ∨ (relocate_by_move = false ∧ injected ∧
     ∃ tr', r = Thrown (mkState (objs s) (heap s) (leaked s) tr'))
  ∨ (relocate_by_move = true ∧ is_nothrow_move_constructible = false ∧
     injected ∧ failed r).

Definition release_events (buf : Ptr) : list Event :=
  match base buf with
  | Some b => [EvDelete b]
  | None => []
  end.

(** The outcomes of a growth step that allocates [bytes] bytes, builds
    [x] in the new block and relocates the elements: [ok] when nothing
    throws; when a copy constructor throws during relocation, [leak]
    describes the objects that were alive in the new block when it was
    released. *)
Definition growth_outcome {A} (r : Result A) (s : State) (bytes : nat)
    (x : T) (leak : list T → Prop) (ok : Result A) : Prop :=
  if throws (trace s) (EvNew bytes) then r = Thrown s
  else if throws (trace s ++ [EvNew bytes]) (EvCtor x) then
    r = Thrown (mkState (objs s) (heap s ++ [None]) (leaked s)
                        (trace s ++ [EvNew bytes; EvDelete (length (heap s))]))
  else
    r = ok
    ∨ (relocate_by_move = false ∧ injected ∧
       ∃ lk tr', leak lk ∧
         r = Thrown (mkState (objs s) (heap s ++ [None]) (leaked s ++ lk) tr'))
    ∨ (relocate_by_move = true ∧ is_nothrow_move_constructible = false ∧
       injected ∧ failed r).

(** The capacity after an append to a vector of [size] elements and
    capacity [cap]. *)
Definition grown (size cap : nat) : nat :=
  if size =? cap then (if cap =? 0 then 1 else 2 * cap) else cap.

(** A sequence of [PushBack] and [PopBack] calls, and what it does to the
    sequence of elements. *)
Inductive StackOp :=
| Push (x : T)
| Pop.

Fixpoint run_ops (this : nat) (ops : list StackOp) : M unit :=
  match ops with
  | [] => ret tt
  | Push x :: ops' => PushBack this x;; run_ops this ops'
  | Pop :: ops' => PopBack this;; run_ops this ops'
  end.

Fixpoint after_ops (l : list T) (ops : list StackOp) : option (list T) :=
  match ops with
  | [] => Some l
  | Push x :: ops' => after_ops (l ++ [x]) ops'
  | Pop :: ops' =>
      match l with
      | [] => None
      | _ :: _ => after_ops (removelast l) ops'
      end
  end.

Fixpoint pushes (ops : list StackOp) : nat :=
  match ops with
  | [] => 0
  | Push _ :: ops' => S (pushes ops')
  | Pop :: ops' => pushes ops'
  end.


(** [this->operator[](i)] read. *)
Definition at_index (this : nat) (i : nat) : M T :=
  p ← Vector_index this i; load p.

(** The capacity the growth policy gives after a sequence of calls, from
    [size] elements and capacity [cap]. *)
Fixpoint capacity_after (size cap : nat) (ops : list StackOp) : nat :=
  match ops with
  | [] => cap
  | Push _ :: ops' => capacity_after (S size) (grown size cap) ops'
  | Pop :: ops' => capacity_after (pred size) cap ops'
  end.

(** [c] is the smallest value of the sequence 1, 2, 4, 8, ... that is at
    least [n]. *)
Definition smallest_doubling (n c : nat) : Prop :=
  ∃ e, c = 2 ^ e ∧ n ≤ c ∧ ∀ e', n ≤ 2 ^ e' → e ≤ e'.

(** The move assignments of a shift by one slot: [j] is the object the
    first assignment overwrites, [ys] the objects moved, in the order
    they are moved. *)
Fixpoint shift_events (j : T) (ys : list T) : list Event :=
  match ys with
  | [] => []
  | y :: ys' => EvMoveAssign j y :: shift_events (moved_from y) ys'
  end.

(** The object left in the slot a shift vacates. *)
Definition junk_after (j : T) (ys : list T) : T :=
  fold_left (λ _ y, moved_from y) ys j.

(** [capacity()] and [size()] of the vector at [this], read off the
    state. *)
Definition capacity_of (s : State) (this : nat) : option nat :=
  (λ v, capacity_ (data_ v)) <$> objs s !! this.

Definition size_of (s : State) (this : nat) : option nat :=
  size_ <$> objs s !! this.

(** ** Outcomes of the loops

    A computation that is stopped by a throwing call did not return;
    the predicates below say what else is known of it. *)

(** The outcome of a loop that builds objects and destroys them again
    when one of the constructors throws. *)
Definition done_or_rolled_back {A} (r : Result A) (s : State) (a : A)
    (s_ok : State) : Prop :=
  r = Done a s_ok
  ∨ (injected ∧ ∃ tr', r = Thrown (mkState (objs s) (heap s) (leaked s) tr')).

(** The outcome of a loop of move constructions: they cannot fail when
    the move constructor is [noexcept]. *)
Definition done_or_move_failed {A} (r : Result A) (a : A) (s_ok : State)
  : Prop :=
  r = Done a s_ok
  ∨ (is_nothrow_move_constructible = false ∧ injected ∧ failed r).

(** The outcome of a computation that either returns [ok] or is stopped
    by a throwing call. *)
Definition done_or_failed {A} (r ok : Result A) : Prop :=
  r = ok ∨ (injected ∧ failed r).

(** The block at [buf]; a null pointer has no block, and no slots. *)
Definition block_is (h : list (option (list (option T)))) (buf : Ptr)
    (blk : list (option T)) : Prop :=
  match base buf with
  | Some b => h !! b = Some (Some blk)
  | None => blk = []
  end.

(** A computation that leaves every [Vector] object as it is. *)
Definition keeps_objs {A} (m : M A) : Prop :=
  ∀ s, match m s with
       | Done _ s' | Thrown s' => objs s' = objs s
       | _ => True
       end.

(** The invariant of the growth policy over consecutive appends to a
    vector that started with capacity 0: [c] is the capacity after [n]
    appends. *)
Definition doubled (n c : nat) : Prop :=
  n ≤ c ∧ (c = 0 ∧ n = 0 ∨ c = 1 ∨ ∃ e, c = 2 ^ S e ∧ 2 ^ e < n).

(** The block at [buf] is the only block that is allocated. *)
Definition sole_block (s : State) (buf : Ptr) : Prop :=
  ∀ b blk, heap s !! b = Some (Some blk) → base buf = Some b.

(** ** Arguments passed by reference

    [PushBack(const T&)], [Insert(pos, const T&)] and the like forward a
    reference to the constructor of the new element: the object at
    [src] is read when that constructor runs, not when the member
    function is called. The functions below are [EmplaceBack],
    [InsertAndReallocate], [InsertWithoutReallocating] and [Emplace]
    with such an argument; the call of the constructor is recorded as
    [EvCtor x], as in [construct_from_args], for the value [x] read. *)

(** [new (p) T(value)] for a reference [value] to the object at [src] *)
Definition construct_from_ref (p src : Ptr) : M unit :=
  x ← load src; construct_from_args p x.

(** [T& EmplaceBack(const T& value)] *)
Definition EmplaceBack_ref (this : nat) (src : Ptr) : M Ptr :=
  size ← get_size this; cap ← Capacity this;
  (if size =? cap then
     with_new_data (if size =? 0 then 1 else size_t.mul size 2) (λ new_data,
       p ← RawMemory_plus new_data size;
       construct_from_ref p src;;
       d ← get_data this;
       (if relocate_by_move
        then uninitialized_move_n (GetAddress d) size (GetAddress new_data)
        else uninitialized_copy_n (GetAddress d) size (GetAddress new_data));;
       destroy_n (GetAddress d) size;;
       let '(d', new_data') := RawMemory_Swap d new_data in
       set_data this d';;
       ret (tt, new_data'))
   else
     d ← get_data this; p ← RawMemory_plus d size;
     construct_from_ref p src);;
  d ← get_data this; size ← get_size this;
  r ← RawMemory_index d size;
  set_size this (size_t.add size 1);;
  ret r.

(** [void PushBack(const T& value)] *)
Definition PushBack_ref (this : nat) (src : Ptr) : M unit :=
  EmplaceBack_ref this src;; ret tt.

(** [void InsertAndReallocate(std::size_t offset, const T& value)] *)
Definition InsertAndReallocate_ref (this : nat) (offset : nat) (src : Ptr)
  : M unit :=
  size ← get_size this;
  with_new_data (if size =? 0 then 1 else size_t.mul size 2) (λ new_data,
    construct_from_ref (GetAddress new_data +ₚ offset) src;;
    d ← get_data this;
    (if relocate_by_move then
       uninitialized_move_n (GetAddress d) offset (GetAddress new_data);;
       uninitialized_move_n (GetAddress d +ₚ offset) (size_t.sub size offset)
                            (GetAddress new_data +ₚ offset +ₚ 1)
     else
       uninitialized_copy_n (GetAddress d) offset (GetAddress new_data);;
       uninitialized_copy_n (GetAddress d +ₚ offset) (size_t.sub size offset)
                            (GetAddress new_data +ₚ offset +ₚ 1));;
    destroy_n (GetAddress d) size;;
    let '(d', new_data') := RawMemory_Swap d new_data in
    set_data this d';;
    ret (tt, new_data')).

(** [void InsertWithoutReallocating(const_iterator pos, std::size_t offset, const T& value)] *)
Definition InsertWithoutReallocating_ref (this : nat) (pos : Ptr)
    (offset : nat) (src : Ptr) : M unit :=
  ce ← cend this;
  if negb (ptr_eqb pos ce) then
    x ← load src;
    call (EvCtor x);;
    temp ← on_unwind (note (EvDtor x))
      (e ← end_ this;
       d ← get_data this; size ← get_size this;
       back ← RawMemory_index d (size_t.sub size 1);
       move_construct e back;;
       b ← begin this; e1 ← end_ this; e1' ← ptr_sub e1 1; e2 ← end_ this;
       move_backward (b +ₚ offset) e1' e2;;
       b ← begin this;
       move_assign_from_local (b +ₚ offset) x);
    note (EvDtor temp)
  else
    e ← end_ this; construct_from_ref e src.

(** [iterator Emplace(const_iterator pos, const T& value)] *)
Definition Emplace_ref (this : nat) (pos : Ptr) (src : Ptr) : M Ptr :=
  c ← in_range this pos; assert c;;
  cb ← cbegin this; offset ← ptr_diff pos cb;
  size ← get_size this; cap ← Capacity this;
  (if size =? cap then InsertAndReallocate_ref this offset src
   else
     try_catch (InsertWithoutReallocating_ref this pos offset src)
               (e ← end_ this; operator_delete e;; throw));;
  size ← get_size this; set_size this (size_t.add size 1);;
  b ← begin this; ret (b +ₚ offset).

(** [iterator Insert(const_iterator pos, const T& value)] *)
Definition Insert_ref (this : nat) (pos : Ptr) (value : Ptr) : M Ptr :=
  Emplace_ref this pos value.

(** A computation that reads the state and leaves it as it is. *)
Definition reads {A} (m : M A) : Prop :=
  ∀ s a s', m s = Done a s' → s' = s.

(** * Properties *)

(** ** [std::size_t] arithmetic without overflow *)

Lemma size_t_wrap_fits n : size_t.fits n → size_t.wrap (N.of_nat n) = n.
Proof.
  unfold size_t.fits, size_t.wrap. intros H.
  rewrite N.mod_small by exact H. apply Nat2N.id.
Qed.

Lemma size_t_fits_le m n : m ≤ n → size_t.fits n → size_t.fits m.
Proof. unfold size_t.fits. lia. Qed.

Lemma size_t_fits_wrap n : size_t.fits (size_t.wrap n).
Proof.
  unfold size_t.fits, size_t.wrap. rewrite N2Nat.id.
  apply N.mod_lt. discriminate.
Qed.

Lemma size_t_add_fits a b : size_t.fits (a + b) → size_t.add a b = a + b.
Proof.
  intros H. unfold size_t.add. rewrite <- Nat2N.inj_add.
  by apply size_t_wrap_fits.
Qed.

Lemma size_t_mul_fits a b : size_t.fits (a * b) → size_t.mul a b = a * b.
Proof.
  intros H. unfold size_t.mul. rewrite <- Nat2N.inj_mul.
  by apply size_t_wrap_fits.
Qed.

Lemma size_t_sub_fits a b : b ≤ a → size_t.fits a → size_t.sub a b = a - b.
Proof.
  intros Hle Ha. assert (Hb : size_t.fits b) by (by eapply size_t_fits_le).
  unfold size_t.sub, size_t.wrap, size_t.fits in *.
  rewrite (N.mod_small (N.of_nat a)) by exact Ha.
  rewrite (N.mod_small (N.of_nat b)) by exact Hb.
  replace (N.of_nat a + (size_t.modulus - N.of_nat b))%N
    with (N.of_nat (a - b) + 1 * size_t.modulus)%N by lia.
  rewrite N.Div0.mod_add.
  rewrite N.mod_small by lia. apply Nat2N.id.
Qed.

Lemma size_t_fits_factor n k : 0 < k → size_t.fits (n * k) → size_t.fits n.
Proof. intros Hk. apply size_t_fits_le. nia. Qed.

(** ** Stepping through a computation *)

Lemma bind_Done {A B} (m : M A) (f : A → M B) s a s' :
  m s = Done a s' → (m ≫= f) s = f a s'.
Proof. unfold mbind, M_bind, bind. by intros ->. Qed.

Lemma bind_unfold {A B} (m : M A) (f : A → M B) s :
  (m ≫= f) s
  = match m s with
    | Done a s' => f a s'
    | Thrown s' => Thrown s'
    | AssertFailed => AssertFailed
    | Undefined => Undefined
    end.
Proof. done. Qed.

Lemma bind_Thrown {A B} (m : M A) (f : A → M B) s s' :
  m s = Thrown s' → (m ≫= f) s = Thrown s'.
Proof. unfold mbind, M_bind, bind. by intros ->. Qed.

Lemma bind_Undefined {A B} (m : M A) (f : A → M B) s :
  m s = Undefined → (m ≫= f) s = Undefined.
Proof. unfold mbind, M_bind, bind. by intros ->. Qed.

Lemma bind_AssertFailed {A B} (m : M A) (f : A → M B) s :
  m s = AssertFailed → (m ≫= f) s = AssertFailed.
Proof. unfold mbind, M_bind, bind. by intros ->. Qed.

Lemma on_unwind_unfold {A} (c : M unit) (m : M A) s :
  on_unwind c m s
  = match m s with
    | Thrown s' =>
        match c s' with
        | Done _ s'' => Thrown s''
        | AssertFailed => AssertFailed
        | _ => Undefined
        end
    | r => r
    end.
Proof. done. Qed.

Lemma on_unwind_Done {A} (c : M unit) (m : M A) s a s' :
  m s = Done a s' → on_unwind c m s = Done a s'.
Proof. unfold on_unwind. by intros ->. Qed.

Lemma on_unwind_Thrown {A} (c : M unit) (m : M A) s s' s'' :
  m s = Thrown s' → c s' = Done tt s'' → on_unwind c m s = Thrown s''.
Proof. unfold on_unwind. by intros -> ->. Qed.

Lemma state_eta (s : State) :
  mkState (objs s) (heap s) (leaked s) (trace s) = s.
Proof. by destruct s. Qed.

(** ** Slots of a block *)

Lemma slot_at_eq s b i blk :
  heap s !! b = Some (Some blk) → slot_at s (mkPtr (Some b) i) = blk !! i.
Proof. unfold slot_at. simpl. by intros ->. Qed.

Lemma write_slot_eq s b i v blk :
  heap s !! b = Some (Some blk) →
  write_slot (mkPtr (Some b) i) v s
  = mkState (objs s) (<[b := Some (<[i := v]> blk)]> (heap s))
            (leaked s) (trace s).
Proof. unfold write_slot. simpl. by intros ->. Qed.

Lemma lookup_mid {A} (pre post : list A) x :
  (pre ++ x :: post) !! length pre = Some x.
Proof. by apply list_lookup_middle. Qed.

Lemma insert_mid {A} (pre post : list A) x y :
  <[length pre := y]> (pre ++ x :: post) = pre ++ y :: post.
Proof.
  rewrite <- (Nat.add_0_r (length pre)). by rewrite insert_app_r.
Qed.

Lemma load_eq s b pre x post :
  heap s !! b = Some (Some (pre ++ Some x :: post)) →
  load (mkPtr (Some b) (length pre)) s = Done x s.
Proof.
  intros H. unfold load. by rewrite (slot_at_eq _ _ _ _ H), lookup_mid.
Qed.

Lemma store_eq s b pre x y post :
  heap s !! b = Some (Some (pre ++ Some x :: post)) →
  store (mkPtr (Some b) (length pre)) y s
  = Done tt (mkState (objs s) (<[b := Some (pre ++ Some y :: post)]> (heap s))
                     (leaked s) (trace s)).
Proof.
  intros H. unfold store.
  by rewrite (slot_at_eq _ _ _ _ H), lookup_mid, (write_slot_eq _ _ _ _ _ H),
    insert_mid.
Qed.

Lemma construct_at_eq s b pre y post :
  heap s !! b = Some (Some (pre ++ None :: post)) →
  construct_at (mkPtr (Some b) (length pre)) y s
  = Done tt (mkState (objs s) (<[b := Some (pre ++ Some y :: post)]> (heap s))
                     (leaked s) (trace s)).
Proof.
  intros H. unfold construct_at.
  by rewrite (slot_at_eq _ _ _ _ H), lookup_mid, (write_slot_eq _ _ _ _ _ H),
    insert_mid.
Qed.

Lemma destroy_at_eq s b pre x post :
  heap s !! b = Some (Some (pre ++ Some x :: post)) →
  destroy_at (mkPtr (Some b) (length pre)) s
  = Done tt (mkState (objs s) (<[b := Some (pre ++ None :: post)]> (heap s))
                     (leaked s) (trace s ++ [EvDtor x])).
Proof.
  intros H. unfold destroy_at.
  rewrite (slot_at_eq _ _ _ _ H), lookup_mid.
  by rewrite (write_slot_eq _ b _ _ (pre ++ Some x :: post)), insert_mid.
Qed.

Lemma heap_insert_same (h : list (option (list (option T)))) b x y :
  <[b := x]> (<[b := y]> h) = <[b := x]> h.
Proof. apply list_insert_insert_eq. Qed.

Lemma heap_lookup_insert (h : list (option (list (option T)))) b x y :
  h !! b = Some y → <[b := x]> h !! b = Some x.
Proof. intros H. apply list_lookup_insert_eq. by eapply lookup_lt_Some. Qed.

Lemma ptr_add_mk b i k : mkPtr b i +ₚ k = mkPtr b (i + k).
Proof. done. Qed.

Lemma ptr_add_1 b i : mkPtr b i +ₚ 1 = mkPtr b (S i).
Proof. unfold ptr_add. simpl. f_equal. lia. Qed.

Lemma length_snoc {A} (l : list A) x : length (l ++ [x]) = S (length l).
Proof. rewrite length_app. simpl. lia. Qed.

Lemma destroy_n_spec xs : ∀ s b pre post,
  heap s !! b = Some (Some (pre ++ (Some <$> xs) ++ post)) →
  destroy_n (mkPtr (Some b) (length pre)) (length xs) s
  = Done tt (mkState (objs s)
       (<[b := Some (pre ++ replicate (length xs) None ++ post)]> (heap s))
       (leaked s) (trace s ++ (EvDtor <$> xs))).
Proof.
  induction xs as [|x xs IH]; intros s b pre post H; simpl.
  - unfold mret, M_ret, ret. rewrite app_nil_r.
    rewrite list_insert_id by done. by rewrite state_eta.
  - simpl in H. erewrite bind_Done by (by eapply destroy_at_eq).
    rewrite ptr_add_1, <- (length_snoc pre None).
    erewrite IH.
    2:{ simpl. erewrite heap_lookup_insert by done.
        by rewrite <- app_assoc. }
    simpl. rewrite heap_insert_same, <- !app_assoc. done.
Qed.

Lemma copy_construct_eq s bs bd spre x spost dpre dpost :
  heap s !! bs = Some (Some (spre ++ Some x :: spost)) →
  heap s !! bd = Some (Some (dpre ++ None :: dpost)) →
  copy_construct (mkPtr (Some bd) (length dpre)) (mkPtr (Some bs) (length spre)) s
  = if throws (trace s) (EvCopyCtor x) then Thrown s
    else Done tt (mkState (objs s)
           (<[bd := Some (dpre ++ Some x :: dpost)]> (heap s))
           (leaked s) (trace s ++ [EvCopyCtor x])).
Proof.
  intros Hs Hd. unfold copy_construct.
  erewrite bind_Done by (by eapply load_eq).
  unfold mbind, M_bind, bind, call.
  destruct (throws (trace s) (EvCopyCtor x)); [done|].
  by erewrite construct_at_eq.
Qed.

Lemma uninitialized_copy_n_spec xs : ∀ s bs bd spre spost dpre dpost,
  bs ≠ bd →
  heap s !! bs = Some (Some (spre ++ (Some <$> xs) ++ spost)) →
  heap s !! bd = Some (Some (dpre ++ replicate (length xs) None ++ dpost)) →
  done_or_rolled_back
    (uninitialized_copy_n (mkPtr (Some bs) (length spre)) (length xs)
                          (mkPtr (Some bd) (length dpre)) s)
    s tt
    (mkState (objs s)
        (<[bd := Some (dpre ++ (Some <$> xs) ++ dpost)]> (heap s))
        (leaked s) (trace s ++ (EvCopyCtor <$> xs))).
Proof.
  induction xs as [|x xs IH]; intros s bs bd spre spost dpre dpost Hne Hs Hd;
    simpl.
  - left. unfold mret, M_ret, ret. rewrite app_nil_r.
    rewrite list_insert_id by done. by rewrite state_eta.
  - simpl in Hs, Hd.
    unfold mbind at 1. unfold M_bind, bind.
    erewrite copy_construct_eq by done.
    destruct (throws (trace s) (EvCopyCtor x)) eqn:Hthrow.
    { right. split; [by eexists _, _|]. exists (trace s). by rewrite state_eta. }
    rewrite !ptr_add_1, <- (length_snoc spre (Some x)),
      <- (length_snoc dpre (Some x)).
    set (s1 := mkState _ _ _ _).
    assert (Hs1 : heap s1 !! bs
      = Some (Some ((spre ++ [Some x]) ++ (Some <$> xs) ++ spost))).
    { subst s1. simpl. rewrite list_lookup_insert_ne by done.
      by rewrite <- app_assoc. }
    assert (Hd1 : heap s1 !! bd
      = Some (Some ((dpre ++ [Some x]) ++ replicate (length xs) None ++ dpost))).
    { subst s1. simpl. erewrite heap_lookup_insert by done.
      by rewrite <- app_assoc. }
    destruct (IH s1 bs bd _ _ _ _ Hne Hs1 Hd1) as [Hok | [Hinj [tr' Hthrown]]].
    + left. erewrite on_unwind_Done by exact Hok.
      subst s1. simpl. by rewrite heap_insert_same, <- !app_assoc.
    + right. split; [done|].
      exists (tr' ++ [EvDtor x]).
      erewrite on_unwind_Thrown; [done | exact Hthrown |].
      rewrite (destroy_at_eq _ bd dpre x (replicate (length xs) None ++ dpost)).
      2:{ subst s1. simpl. by erewrite heap_lookup_insert. }
      subst s1. simpl. rewrite heap_insert_same.
      by rewrite list_insert_id.
Qed.

Lemma bind_failed {A B} (m : M A) (f : A → M B) s :
  failed (m s) → failed ((m ≫= f) s).
Proof. unfold mbind, M_bind, bind. by destruct (m s). Qed.

Lemma on_unwind_failed {A} (c : M unit) (m : M A) s :
  failed (m s) → failed (on_unwind c m s).
Proof.
  unfold on_unwind. destruct (m s); try done.
  intros _. by destruct (c s0).
Qed.

Lemma heap_insert_commute (h : list (option (list (option T)))) a b x y :
  a ≠ b → <[a := x]> (<[b := y]> h) = <[b := y]> (<[a := x]> h).
Proof. intros. by apply list_insert_insert_ne. Qed.

Lemma call_move_ctor_eq x s :
  call_move_ctor x s
  = if negb is_nothrow_move_constructible && throws (trace s) (EvMoveCtor x)
    then Thrown s else Done tt (log (EvMoveCtor x) s).
Proof.
  unfold call_move_ctor. by destruct is_nothrow_move_constructible.
Qed.

Lemma move_construct_eq s bs bd spre x spost dpre dpost :
  bs ≠ bd →
  heap s !! bs = Some (Some (spre ++ Some x :: spost)) →
  heap s !! bd = Some (Some (dpre ++ None :: dpost)) →
  move_construct (mkPtr (Some bd) (length dpre)) (mkPtr (Some bs) (length spre)) s
  = if negb is_nothrow_move_constructible && throws (trace s) (EvMoveCtor x)
    then Thrown s
    else Done tt (mkState (objs s)
           (<[bs := Some (spre ++ Some (moved_from x) :: spost)]>
              (<[bd := Some (dpre ++ Some x :: dpost)]> (heap s)))
           (leaked s) (trace s ++ [EvMoveCtor x])).
Proof.
  intros Hne Hs Hd. unfold move_construct.
  erewrite bind_Done by (by eapply load_eq).
  unfold mbind, M_bind, bind. rewrite call_move_ctor_eq.
  destruct (negb _ && _); [done|].
  erewrite construct_at_eq by done.
  erewrite store_eq; [done|].
  simpl. by rewrite list_lookup_insert_ne.
Qed.

Lemma uninitialized_move_n_spec xs : ∀ s bs bd spre spost dpre dpost,
  bs ≠ bd →
  heap s !! bs = Some (Some (spre ++ (Some <$> xs) ++ spost)) →
  heap s !! bd = Some (Some (dpre ++ replicate (length xs) None ++ dpost)) →
  done_or_move_failed
    (uninitialized_move_n (mkPtr (Some bs) (length spre)) (length xs)
                          (mkPtr (Some bd) (length dpre)) s)
    tt
    (mkState (objs s)
        (<[bs := Some (spre ++ (Some <$> (moved_from <$> xs)) ++ spost)]>
           (<[bd := Some (dpre ++ (Some <$> xs) ++ dpost)]> (heap s)))
        (leaked s) (trace s ++ (EvMoveCtor <$> xs))).
Proof.
  induction xs as [|x xs IH]; intros s bs bd spre spost dpre dpost Hne Hs Hd;
    simpl.
  - left. unfold mret, M_ret, ret. rewrite app_nil_r.
    rewrite !list_insert_id; [by rewrite state_eta | done |].
    by rewrite list_lookup_insert_ne.
  - simpl in Hs, Hd.
    unfold mbind at 1. unfold M_bind, bind.
    erewrite move_construct_eq by done.
    destruct (negb _ && _) eqn:Hthrow.
    { right. apply andb_true_iff in Hthrow as [Hn Ht].
      apply negb_true_iff in Hn. split; [done|]. split; [by eexists _, _|].
      done. }
    rewrite !ptr_add_1, <- (length_snoc spre (Some (moved_from x))),
      <- (length_snoc dpre (Some x)).
    set (s1 := mkState _ _ _ _).
    assert (Hs1 : heap s1 !! bs
      = Some (Some ((spre ++ [Some (moved_from x)]) ++ (Some <$> xs) ++ spost))).
    { subst s1. simpl. erewrite heap_lookup_insert.
      - by rewrite <- app_assoc.
      - by rewrite list_lookup_insert_ne. }
    assert (Hd1 : heap s1 !! bd
      = Some (Some ((dpre ++ [Some x]) ++ replicate (length xs) None ++ dpost))).
    { subst s1. simpl. rewrite list_lookup_insert_ne by done.
      erewrite heap_lookup_insert by done. by rewrite <- app_assoc. }
    destruct (IH s1 bs bd _ _ _ _ Hne Hs1 Hd1) as [Hok | (Hn & Hinj & Hfail)].
    + left. erewrite on_unwind_Done by exact Hok.
      subst s1. simpl.
      rewrite (heap_insert_commute _ bd bs) by done.
      rewrite !heap_insert_same.
      by rewrite <- !app_assoc.
    + right. split; [done|]. split; [done|].
      by apply on_unwind_failed.
Qed.

(** ** Members of the object at [this] *)

Lemma get_obj_eq s a v : objs s !! a = Some v → get_obj a s = Done v s.
Proof. unfold get_obj. by intros ->. Qed.

Lemma set_obj_eq s a v0 v :
  objs s !! a = Some v0 →
  set_obj a v s = Done tt (mkState (<[a := v]> (objs s)) (heap s) (leaked s) (trace s)).
Proof. unfold set_obj. by intros ->. Qed.

Lemma get_data_eq s a v : objs s !! a = Some v → get_data a s = Done (data_ v) s.
Proof. intros H. unfold get_data. by erewrite bind_Done by (by apply get_obj_eq). Qed.

Lemma get_size_eq s a v : objs s !! a = Some v → get_size a s = Done (size_ v) s.
Proof. intros H. unfold get_size. by erewrite bind_Done by (by apply get_obj_eq). Qed.

Lemma Capacity_eq s a v :
  objs s !! a = Some v → Capacity a s = Done (capacity_ (data_ v)) s.
Proof. intros H. unfold Capacity. by erewrite bind_Done by (by apply get_data_eq). Qed.

Lemma set_data_eq s a v d :
  objs s !! a = Some v →
  set_data a d s
  = Done tt (mkState (<[a := mkVector d (size_ v)]> (objs s)) (heap s) (leaked s) (trace s)).
Proof.
  intros H. unfold set_data. erewrite bind_Done by (by apply get_obj_eq).
  by erewrite set_obj_eq.
Qed.

Lemma set_size_eq s a v n :
  objs s !! a = Some v →
  set_size a n s
  = Done tt (mkState (<[a := mkVector (data_ v) n]> (objs s)) (heap s) (leaked s) (trace s)).
Proof.
  intros H. unfold set_size. erewrite bind_Done by (by apply get_obj_eq).
  by erewrite set_obj_eq.
Qed.

Lemma RawMemory_plus_eq d k s :
  k ≤ capacity_ d → RawMemory_plus d k s = Done (buffer_ d +ₚ k) s.
Proof.
  intros H. unfold RawMemory_plus, mbind, M_bind, bind, assert.
  by rewrite (leb_correct _ _ H).
Qed.

Lemma RawMemory_plus_assert d k s :
  capacity_ d < k → RawMemory_plus d k s = AssertFailed.
Proof.
  intros H. unfold RawMemory_plus, mbind, M_bind, bind, assert.
  by rewrite leb_correct_conv.
Qed.

Lemma RawMemory_index_eq d k s :
  k < capacity_ d → RawMemory_index d k s = Done (buffer_ d +ₚ k) s.
Proof.
  intros H. unfold RawMemory_index, mbind, M_bind, bind, assert.
  by rewrite (proj2 (Nat.ltb_lt _ _) H).
Qed.

Lemma RawMemory_index_assert d k s :
  capacity_ d ≤ k → RawMemory_index d k s = AssertFailed.
Proof.
  intros H. unfold RawMemory_index, mbind, M_bind, bind, assert.
  by rewrite (proj2 (Nat.ltb_ge _ _) H).
Qed.

Lemma begin_eq s a v :
  objs s !! a = Some v → begin a s = Done (buffer_ (data_ v) +ₚ 0) s.
Proof.
  intros H. unfold begin. erewrite bind_Done by (by apply get_data_eq).
  apply RawMemory_plus_eq. lia.
Qed.

Lemma end_eq s a v :
  objs s !! a = Some v → size_ v ≤ capacity_ (data_ v) →
  end_ a s = Done (buffer_ (data_ v) +ₚ size_ v) s.
Proof.
  intros H Hle. unfold end_. erewrite bind_Done by (by apply get_data_eq).
  erewrite bind_Done by (by apply get_size_eq).
  by apply RawMemory_plus_eq.
Qed.

(** ** Allocation *)

Lemma Allocate_eq n s :
  n ≠ 0 → 0 < sizeof_T → size_t.fits (n * sizeof_T) →
  Allocate n s
  = if throws (trace s) (EvNew (n * sizeof_T)) then Thrown s
    else Done (mkPtr (Some (length (heap s))) 0)
              (mkState (objs s) (heap s ++ [Some (replicate n None)])
                       (leaked s) (trace s ++ [EvNew (n * sizeof_T)])).
Proof.
  intros Hn Hsz Hfits. unfold Allocate.
  rewrite (proj2 (Nat.eqb_neq _ _) Hn).
  unfold operator_new. rewrite size_t_mul_fits by done.
  by rewrite Nat.div_mul by lia.
Qed.

Lemma operator_delete_eq s b blk :
  heap s !! b = Some (Some blk) →
  operator_delete (mkPtr (Some b) 0) s
  = Done tt (mkState (objs s) (<[b := None]> (heap s))
                     (leaked s ++ omap id blk) (trace s ++ [EvDelete b])).
Proof. unfold operator_delete. simpl. by intros ->. Qed.

Lemma operator_delete_interior s b i :
  i ≠ 0 → operator_delete (mkPtr (Some b) i) s = Undefined.
Proof.
  intros Hi. unfold operator_delete. simpl.
  rewrite (proj2 (Nat.eqb_neq _ _) Hi). by destruct (heap s !! b) as [[?|]|].
Qed.

Lemma omap_replicate_None n : omap id (replicate n (@None T)) = [].
Proof. induction n; [done|]. simpl. done. Qed.

Lemma omap_fmap_Some (l : list T) : omap id (Some <$> l) = l.
Proof. induction l; [done|]. simpl. by f_equal. Qed.

(** ** Relocating all elements into a fresh block *)

Lemma slots_of_split l cap :
  slots_of l cap = [] ++ (Some <$> l) ++ replicate (cap - length l) None.
Proof. done. Qed.

Lemma insert_new_block (h : list (option (list (option T)))) x y :
  <[length h := x]> (h ++ [y]) = h ++ [x].
Proof. apply insert_mid. Qed.

Lemma lookup_new_block (h : list (option (list (option T)))) x :
  (h ++ [x]) !! length h = Some x.
Proof. apply lookup_mid. Qed.

Lemma lookup_old_block (h : list (option (list (option T)))) b x y :
  h !! b = Some y → (h ++ [x]) !! b = Some y.
Proof. intros H. by apply lookup_app_l_Some. Qed.

Lemma insert_old_block (h : list (option (list (option T)))) b x y z :
  h !! b = Some z → <[b := x]> (h ++ [y]) = <[b := x]> h ++ [y].
Proof.
  intros H. apply insert_app_l. by eapply lookup_lt_Some.
Qed.

Lemma old_block_ne (h : list (option (list (option T)))) b y :
  h !! b = Some y → b ≠ length h.
Proof. intros H%lookup_lt_Some. lia. Qed.

Ltac lookup_side := rewrite ?length_insert, ?length_app; simpl; lia.

Ltac heap_simpl :=
  repeat first
    [ rewrite lookup_mid
    | rewrite list_lookup_insert_eq by lookup_side
    | rewrite list_lookup_insert_ne by (first [done | lia])
    | rewrite lookup_new_block
    | rewrite lookup_app_l by lookup_side ].

Lemma ptr_add_0 p : p +ₚ 0 = p.
Proof. destruct p. unfold ptr_add. simpl. f_equal. lia. Qed.

Lemma ptr_add_add p i j : p +ₚ i +ₚ j = p +ₚ (i + j).
Proof. unfold ptr_add. simpl. f_equal. lia. Qed.

Lemma block_is_app h buf blk x :
  block_is h buf blk → block_is (h ++ [x]) buf blk.
Proof.
  unfold block_is. destruct (base buf); [|done]. apply lookup_old_block.
Qed.

Lemma block_is_insert_ne h buf blk nb x :
  base buf ≠ Some nb → block_is h buf blk → block_is (<[nb := x]> h) buf blk.
Proof.
  unfold block_is. destruct (base buf) as [b|]; [|done].
  intros Hne Hb. rewrite list_lookup_insert_ne; [done|congruence].
Qed.

Lemma block_is_update h buf blk blk' :
  block_is h buf blk → length blk' = length blk →
  block_is (update_old buf (Some blk') h) buf blk'.
Proof.
  unfold block_is, update_old. destruct (base buf) as [b|].
  - intros Hb _. by erewrite heap_lookup_insert.
  - intros -> Hlen. by destruct blk'.
Qed.

Lemma block_is_fresh h buf blk : block_is h buf blk → base buf ≠ Some (length h).
Proof.
  unfold block_is. destruct (base buf) as [b|]; [|done].
  intros Hb%lookup_lt_Some. intros [= ->]. lia.
Qed.

Lemma update_old_twice buf x y h :
  update_old buf x (update_old buf y h) = update_old buf x h.
Proof. unfold update_old. destruct (base buf); [apply heap_insert_same|done]. Qed.

Lemma update_old_insert_ne buf x nb y h :
  base buf ≠ Some nb →
  update_old buf x (<[nb := y]> h) = <[nb := y]> (update_old buf x h).
Proof.
  unfold update_old. destruct (base buf) as [b|]; [|done].
  intros Hne. apply heap_insert_commute. congruence.
Qed.

Lemma update_old_app buf x y h blk :
  block_is h buf blk → update_old buf x (h ++ [y]) = update_old buf x h ++ [y].
Proof.
  unfold update_old, block_is. destruct (base buf) as [b|]; [|done].
  intros Hb. by eapply insert_old_block.
Qed.

Lemma length_update_old buf x h : length (update_old buf x h) = length h.
Proof. unfold update_old. destruct (base buf); [apply length_insert|done]. Qed.

Lemma relocated_length l : length (relocated l) = length l.
Proof. unfold relocated. destruct relocate_by_move; [apply length_fmap|done]. Qed.

Lemma relocate_spec s buf src nb i j n xs spre spost dpre dpost :
  off buf = 0 → src = buf +ₚ i → i = length spre → j = length dpre →
  n = length xs →
  base buf ≠ Some nb →
  block_is (heap s) buf (spre ++ (Some <$> xs) ++ spost) →
  heap s !! nb = Some (Some (dpre ++ replicate (length xs) None ++ dpost)) →
  relocation_outcome
    ((if relocate_by_move
      then uninitialized_move_n src n (mkPtr (Some nb) j)
      else uninitialized_copy_n src n (mkPtr (Some nb) j)) s)
    s
    (Done tt (mkState (objs s)
        (update_old buf (Some (spre ++ (Some <$> relocated xs) ++ spost))
           (<[nb := Some (dpre ++ (Some <$> xs) ++ dpost)]> (heap s)))
        (leaked s) (trace s ++ relocation_events xs))).
Proof.
  intros Hoff -> -> -> -> Hne Hold Hnb.
  unfold relocation_outcome, relocated, relocation_events, update_old, block_is in *.
  destruct buf as [[b|] o]; simpl in *; subst o.
  - assert (Hne' : b ≠ nb) by congruence. rewrite ptr_add_mk, Nat.add_0_l.
    destruct relocate_by_move.
    + destruct (uninitialized_move_n_spec xs s b nb spre spost dpre dpost Hne' Hold Hnb)
        as [Hok | (Hn & Hinj & Hfail)].
      * by left.
      * right. right. done.
    + destruct (uninitialized_copy_n_spec xs s b nb spre spost dpre dpost Hne' Hold Hnb)
        as [Hok | (Hinj & tr' & Hthrown)].
      * left. rewrite Hok. do 2 f_equal.
        rewrite heap_insert_commute by done.
        rewrite (list_insert_id _ b) by done. done.
      * right. left. eauto.
  - apply app_eq_nil in Hold as [-> Hold].
    apply app_eq_nil in Hold as [Hxs ->].
    apply fmap_nil_inv in Hxs as ->.
    left. simpl. rewrite list_insert_id by done.
    destruct relocate_by_move; simpl; by rewrite app_nil_r, state_eta.
Qed.

Lemma destroy_old s buf src i n pre xs post :
  off buf = 0 → src = buf +ₚ i → i = length pre → n = length xs →
  block_is (heap s) buf (pre ++ (Some <$> xs) ++ post) →
  destroy_n src n s
  = Done tt (mkState (objs s)
       (update_old buf (Some (pre ++ replicate (length xs) None ++ post)) (heap s))
       (leaked s) (trace s ++ (EvDtor <$> xs))).
Proof.
  intros Hoff -> -> -> Hold. unfold update_old, block_is in *.
  destruct buf as [[b|] o]; simpl in *; subst o.
  - rewrite ptr_add_mk, Nat.add_0_l. by apply destroy_n_spec.
  - apply app_eq_nil in Hold as [-> Hold].
    apply app_eq_nil in Hold as [Hxs ->].
    apply fmap_nil_inv in Hxs as ->.
    simpl. by rewrite app_nil_r, state_eta.
Qed.

Lemma delete_old s buf n blk :
  off buf = 0 → omap id blk = [] →
  block_is (heap s) buf blk →
  RawMemory_delete (mkRawMemory buf n) s
  = Done tt (mkState (objs s) (release buf (heap s)) (leaked s)
                     (trace s ++ release_events buf)).
Proof.
  intros Hoff Hraw Hold.
  unfold release, release_events, update_old, block_is in *.
  unfold RawMemory_delete, Deallocate. simpl.
  destruct buf as [[b|] o]; simpl in *; subst o.
  - erewrite operator_delete_eq by done.
    by rewrite Hraw, app_nil_r.
  - unfold operator_delete. simpl. by rewrite app_nil_r, state_eta.
Qed.

(** The end of a reallocation: the old objects are destroyed, the vector
    takes the new block, and the local [new_data] is left with the old
    one. *)
Lemma commit_spec s this buf cap n new_data ys post :
  objs s !! this = Some (mkVector (mkRawMemory buf cap) n) →
  off buf = 0 → n = length ys →
  block_is (heap s) buf ((Some <$> ys) ++ post) →
  (destroy_n buf n ≫= λ _,
     let '(d', new_data') := RawMemory_Swap (mkRawMemory buf cap) new_data in
     set_data this d' ≫= λ _, ret (tt, new_data')) s
  = Done (tt, mkRawMemory buf cap)
      (mkState (<[this := mkVector new_data n]> (objs s))
         (update_old buf (Some (replicate n None ++ post)) (heap s))
         (leaked s) (trace s ++ (EvDtor <$> ys))).
Proof.
  intros Hobj Hoff -> Hold.
  erewrite bind_Done.
  2:{ eapply (destroy_old _ buf buf 0 _ [] ys post); try done.
      by rewrite ptr_add_0. }
  unfold RawMemory_Swap. cbv beta iota zeta.
  erewrite bind_Done by (by eapply set_data_eq).
  by destruct new_data.
Qed.

Lemma holds_block_is s buf cap l :
  holds s buf cap l → block_is (heap s) buf (slots_of l cap).
Proof.
  intros (Hle & _ & _ & Hblk). unfold block_is.
  destruct (base buf); [done|]. subst cap.
  destruct l; [done|]. simpl in Hle. lia.
Qed.

Lemma slots_of_snoc l x cap :
  length l < cap →
  slots_of (l ++ [x]) cap
  = (Some <$> l) ++ Some x :: replicate (cap - S (length l)) None.
Proof.
  intros H. unfold slots_of. rewrite fmap_app, length_snoc, <- app_assoc. done.
Qed.

Lemma omap_raw n m :
  omap id (replicate n (@None T) ++ replicate m None) = [].
Proof. by rewrite <- replicate_add, omap_replicate_None. Qed.

Lemma lookup_update_old_ne buf x h nb :
  base buf ≠ Some nb → update_old buf x h !! nb = h !! nb.
Proof.
  unfold update_old. destruct (base buf) as [b|]; [|done].
  intros Hne. apply list_lookup_insert_ne. congruence.
Qed.

Lemma relocated_app l1 l2 : relocated (l1 ++ l2) = relocated l1 ++ relocated l2.
Proof. unfold relocated. destruct relocate_by_move; [apply fmap_app|done]. Qed.

Lemma relocation_events_app l1 l2 :
  relocation_events (l1 ++ l2) = relocation_events l1 ++ relocation_events l2.
Proof.
  unfold relocation_events. destruct relocate_by_move; apply fmap_app.
Qed.

Lemma if_bind_distr {A B} (c : bool) (a1 b1 : M A) (a2 b2 : M B) s :
  (if c then a1;; a2 else b1;; b2) s
  = ((if c then a1 else b1);; (if c then a2 else b2)) s.
Proof. by destruct c. Qed.

(** ** [EmplaceBack] *)

Lemma holds_fits_cap s buf cap l :
  0 < sizeof_T → holds s buf cap l → size_t.fits cap.
Proof. intros Hsz (_ & Hf & _). by eapply size_t_fits_factor. Qed.

Lemma RawMemory_new_eq n s :
  n ≠ 0 → 0 < sizeof_T → size_t.fits (n * sizeof_T) →
  RawMemory_new n s
  = if throws (trace s) (EvNew (n * sizeof_T)) then Thrown s
    else Done (mkRawMemory (mkPtr (Some (length (heap s))) 0) n)
              (mkState (objs s) (heap s ++ [Some (replicate n None)])
                       (leaked s) (trace s ++ [EvNew (n * sizeof_T)])).
Proof.
  intros Hn Hsz Hfits. unfold RawMemory_new, mbind, M_bind, bind.
  rewrite Allocate_eq by done. by destruct (throws _ _).
Qed.

Lemma construct_from_args_eq s b i pre post x :
  i = length pre →
  heap s !! b = Some (Some (pre ++ None :: post)) →
  construct_from_args (mkPtr (Some b) i) x s
  = if throws (trace s) (EvCtor x) then Thrown s
    else Done tt (mkState (objs s) (<[b := Some (pre ++ Some x :: post)]> (heap s))
                          (leaked s) (trace s ++ [EvCtor x])).
Proof.
  intros -> H. unfold construct_from_args, mbind, M_bind, bind, call.
  destruct (throws _ _); [done|]. by erewrite construct_at_eq.
Qed.

Lemma replicate_split_at n k :
  k < n → replicate n (@None T) = replicate k None ++ None :: replicate (n - S k) None.
Proof.
  intros H. replace n with (k + S (n - S k)) at 1 by lia.
  by rewrite replicate_add.
Qed.

Lemma objs_lookup_insert (o : list Vector) a v v0 :
  o !! a = Some v0 → <[a := v]> o !! a = Some v.
Proof. intros H. apply list_lookup_insert_eq. by eapply lookup_lt_Some. Qed.

Ltac obj_lookup := simpl; repeat eapply objs_lookup_insert; eassumption.

Ltac run :=
  cbv beta iota;
  repeat first [rewrite bind_unfold | rewrite on_unwind_unfold];
  cbn [objs heap leaked trace data_ size_ buffer_ capacity_ base off
       GetAddress RawMemory_Capacity fst snd].

Lemma EmplaceBack_growth s this buf cap l x :
  0 < sizeof_T →
  vector_at s this buf cap l → length l = cap →
  let newcap := if cap =? 0 then 1 else 2 * cap in
  size_t.fits (newcap * sizeof_T) →
  let nb := length (heap s) in
  growth_outcome (EmplaceBack this x s) s (newcap * sizeof_T) x (λ lk, lk = [x])
    (Done (mkPtr (Some nb) (length l))
       (mkState
          (<[this := mkVector (mkRawMemory (mkPtr (Some nb) 0) newcap)
                              (S (length l))]> (objs s))
          (release buf (heap s ++ [Some (slots_of (l ++ [x]) newcap)]))
          (leaked s)
          (trace s ++ [EvNew (newcap * sizeof_T); EvCtor x]
             ++ relocation_events l ++ (EvDtor <$> relocated l)
             ++ release_events buf))).
Proof.
  intros Hsz [Hobj Hholds] Hfull newcap Hfits nb.
  assert (Hfcap : size_t.fits cap) by (by eapply holds_fits_cap).
  subst cap. pose proof Hholds as (Hle & _ & Hoff & Hblk).
  assert (Hnewcap : (if length l =? 0 then 1 else size_t.mul (length l) 2) = newcap).
  { subst newcap. destruct (length l =? 0) eqn:E; [done|].
    rewrite size_t_mul_fits; [lia|].
    eapply size_t_fits_factor; [exact Hsz|].
    by replace (length l * 2) with (2 * length l) by lia. }
  assert (Hnc : length l < newcap).
  { subst newcap. destruct (length l =? 0) eqn:E.
    - apply Nat.eqb_eq in E. lia.
    - apply Nat.eqb_neq in E. lia. }
  clearbody newcap.
  unfold growth_outcome, EmplaceBack.
  erewrite bind_Done by (by eapply get_size_eq).
  erewrite bind_Done by (by eapply Capacity_eq).
  simpl size_ . simpl capacity_.
  rewrite Nat.eqb_refl, Hnewcap.
  unfold with_new_data. subst nb.
  run. rewrite RawMemory_new_eq by (done || lia).
  destruct (throws (trace s) (EvNew (newcap * sizeof_T))) eqn:Hnew; [done|].
  run. rewrite RawMemory_plus_eq by (simpl; lia).
  run. simpl buffer_. rewrite ptr_add_mk, Nat.add_0_l.
  rewrite (construct_from_args_eq _ _ _ (replicate (length l) None)
             (replicate (newcap - S (length l)) None)).
  2:{ by rewrite length_replicate. }
  2:{ simpl. rewrite lookup_new_block. by rewrite <- replicate_split_at. }
  simpl trace.
  destruct (throws (trace s ++ [EvNew (newcap * sizeof_T)]) (EvCtor x)) eqn:Hctor.
  { run. unfold RawMemory_delete, Deallocate. simpl buffer_.
    erewrite operator_delete_eq by (simpl; apply lookup_new_block).
    simpl. rewrite insert_new_block, omap_replicate_None, app_nil_r.
    by rewrite <- app_assoc. }
  run. rewrite insert_new_block.
  erewrite get_data_eq by exact Hobj.
  run.
  set (s2 := mkState _ (heap s ++ _) _ _).
  assert (Hold : block_is (heap s) buf
            ([] ++ (Some <$> l) ++ replicate (length l - length l) None)).
  { by apply holds_block_is. }
  assert (Hfresh := block_is_fresh _ _ _ Hold).
  assert (Hnb : heap s2 !! length (heap s)
     = Some (Some ([] ++ replicate (length l) None
                   ++ Some x :: replicate (newcap - S (length l)) None))).
  { subst s2. simpl. apply lookup_new_block. }
  destruct (relocate_spec s2 buf buf (length (heap s)) 0 0 _ l [] _ [] _
              Hoff (eq_sym (ptr_add_0 buf)) eq_refl eq_refl eq_refl Hfresh
              (block_is_app _ _ _ _ Hold) Hnb)
    as [Hok | [(Hm & Hinj & tr' & Hthr) | (Hm & Hn & Hinj & Hfail)]].
  - left. rewrite Hok. cbv beta iota.
    erewrite (commit_spec _ this buf (length l) (length l) _ (relocated l));
      [ | exact Hobj | done | by rewrite relocated_length
        | eapply block_is_update;
          [ by apply block_is_insert_ne, block_is_app
          | by rewrite !length_app, !length_fmap, relocated_length ] ].
    run. unfold mret, M_ret, ret. run.
    erewrite (delete_old _ buf _
                (replicate (length l) None ++ replicate (length l - length l) None));
      [ | done | apply omap_raw
        | eapply block_is_update;
          [ eapply block_is_update;
            [ by apply block_is_insert_ne, block_is_app
            | by rewrite !length_app, !length_fmap, relocated_length ]
          | by rewrite !length_app, !length_fmap, !length_replicate,
               relocated_length ] ].
    run.
    erewrite get_data_eq by (by eapply objs_lookup_insert).
    run.
    erewrite get_size_eq by (by eapply objs_lookup_insert).
    run.
    rewrite RawMemory_index_eq by done.
    run.
    erewrite set_size_eq by (by eapply objs_lookup_insert).
    run. rewrite ptr_add_mk, Nat.add_0_l.
    rewrite size_t_add_fits.
    2:{ eapply size_t_fits_le; [|by eapply size_t_fits_factor]. lia. }
    f_equal. subst s2. simpl. f_equal.
    + rewrite list_insert_insert_eq. do 2 f_equal. lia.
    + unfold release. rewrite !update_old_twice, insert_new_block.
      by rewrite slots_of_snoc.
    + by rewrite <- !app_assoc.
  - right. left. split; [done|]. split; [done|].
    exists [x], (tr' ++ [EvDelete (length (heap s))]). split; [done|].
    rewrite Hthr. run.
    unfold RawMemory_delete, Deallocate. run.
    erewrite operator_delete_eq by (subst s2; simpl; apply lookup_new_block).
    subst s2. simpl. rewrite insert_new_block.
    rewrite omap_app, omap_replicate_None. simpl.
    by rewrite omap_replicate_None.
  - right. right. split; [done|]. split; [done|]. split; [done|].
    match type of Hfail with failed ?R => destruct R end; try done.
    cbv beta iota. by destruct (RawMemory_delete _ _).
Qed.

Lemma EmplaceBack_in_place s this buf cap l x :
  0 < sizeof_T →
  vector_at s this buf cap l → length l < cap →
  EmplaceBack this x s
  = if throws (trace s) (EvCtor x) then Thrown s
    else Done (buf +ₚ length l)
           (mkState
              (<[this := mkVector (mkRawMemory buf cap) (S (length l))]> (objs s))
              (update_old buf (Some (slots_of (l ++ [x]) cap)) (heap s))
              (leaked s) (trace s ++ [EvCtor x])).
Proof.
  intros Hsz [Hobj Hholds] Hlt.
  assert (Hfcap : size_t.fits cap) by (by eapply holds_fits_cap).
  destruct Hholds as (Hle & _ & Hoff & Hblk).
  destruct buf as [[b|] o]; simpl in Hoff, Hblk; [subst o | lia].
  unfold EmplaceBack.
  erewrite bind_Done by (by eapply get_size_eq).
  erewrite bind_Done by (by eapply Capacity_eq).
  run. rewrite (proj2 (Nat.eqb_neq _ _)) by lia.
  run. erewrite get_data_eq by exact Hobj.
  run. rewrite RawMemory_plus_eq by (simpl; lia).
  run. rewrite ptr_add_mk, Nat.add_0_l.
  rewrite (construct_from_args_eq _ _ _ (Some <$> l)
             (replicate (cap - S (length l)) None)).
  2:{ by rewrite length_fmap. }
  2:{ rewrite Hblk. unfold slots_of. do 3 f_equal.
      replace (cap - length l) with (S (cap - S (length l))) by lia. done. }
  destruct (throws (trace s) (EvCtor x)); [done|].
  run. erewrite get_data_eq by exact Hobj.
  run. erewrite get_size_eq by exact Hobj.
  run. rewrite RawMemory_index_eq by done.
  run. erewrite set_size_eq by exact Hobj.
  run. rewrite ptr_add_mk, Nat.add_0_l.
  rewrite size_t_add_fits by (eapply size_t_fits_le; [|exact Hfcap]; lia).
  unfold update_old. simpl. rewrite slots_of_snoc by done.
  unfold ret. by rewrite Nat.add_1_r.
Qed.

(** ** What [EmplaceBack] leaves: the vector with one more element *)

Lemma vector_at_after_growth s this buf cap l x newcap tr' :
  0 < sizeof_T → vector_at s this buf cap l →
  length l < newcap → size_t.fits (newcap * sizeof_T) →
  vector_at
    (mkState
       (<[this := mkVector (mkRawMemory (mkPtr (Some (length (heap s))) 0) newcap)
                           (S (length l))]> (objs s))
       (release buf (heap s ++ [Some (slots_of (l ++ [x]) newcap)]))
       (leaked s) tr')
    this (mkPtr (Some (length (heap s))) 0) newcap (l ++ [x]).
Proof.
  intros Hsz [Hobj Hholds] Hlt Hfits. split; simpl.
  - rewrite length_snoc. by eapply objs_lookup_insert.
  - repeat split; simpl; [rewrite length_snoc; lia | done |].
    assert (Hold := holds_block_is _ _ _ _ Hholds).
    unfold release, update_old, block_is in *.
    destruct (base buf) as [b|].
    + assert (b < length (heap s)) by (by eapply lookup_lt_Some).
      by heap_simpl.
    + apply lookup_new_block.
Qed.

Lemma vector_at_after_in_place s this buf cap l x tr' :
  vector_at s this buf cap l → length l < cap →
  vector_at
    (mkState
       (<[this := mkVector (mkRawMemory buf cap) (S (length l))]> (objs s))
       (update_old buf (Some (slots_of (l ++ [x]) cap)) (heap s))
       (leaked s) tr')
    this buf cap (l ++ [x]).
Proof.
  intros [Hobj Hholds] Hlt. split; simpl.
  - rewrite length_snoc. by eapply objs_lookup_insert.
  - destruct Hholds as (Hle & Hf & Hoff & Hblk).
    repeat split; simpl; [rewrite length_snoc; lia | done | done |].
    unfold update_old. destruct (base buf) as [b|]; [|lia].
    by erewrite heap_lookup_insert.
Qed.

Lemma vector_at_update s this buf cap l l' lk' tr' :
  vector_at s this buf cap l → length l' ≤ cap →
  vector_at
    (mkState
       (<[this := mkVector (mkRawMemory buf cap) (length l')]> (objs s))
       (update_old buf (Some (slots_of l' cap)) (heap s))
       lk' tr')
    this buf cap l'.
Proof.
  intros [Hobj Hholds] Hlt. split; simpl.
  - by eapply objs_lookup_insert.
  - destruct Hholds as (Hle & Hf & Hoff & Hblk).
    repeat split; simpl; [done | done | done |].
    unfold update_old. destruct (base buf) as [b|]; [|done].
    by erewrite heap_lookup_insert.
Qed.

(** ** [PopBack] *)

Lemma ptr_sub_eq p k s : k ≤ off p → ptr_sub p k s = Done (mkPtr (base p) (off p - k)) s.
Proof.
  intros H. unfold ptr_sub. by rewrite (proj2 (Nat.ltb_ge _ _) H).
Qed.

Lemma slots_of_snoc' l x cap :
  length l < cap →
  slots_of (l ++ [x]) cap
  = (Some <$> l) ++ Some x :: replicate (cap - length (l ++ [x])) None.
Proof. intros H. rewrite slots_of_snoc by done. by rewrite length_snoc. Qed.

Lemma slots_of_raw_tail l cap :
  length l < cap →
  slots_of l cap = (Some <$> l) ++ None :: replicate (cap - S (length l)) None.
Proof.
  intros H. unfold slots_of.
  by replace (cap - length l) with (S (cap - S (length l))) by lia.
Qed.

Lemma PopBack_spec s this buf cap l x :
  0 < sizeof_T →
  vector_at s this buf cap (l ++ [x]) →
  PopBack this s
  = Done tt (mkState
       (<[this := mkVector (mkRawMemory buf cap) (length l)]> (objs s))
       (update_old buf (Some (slots_of l cap)) (heap s))
       (leaked s) (trace s ++ [EvDtor x])).
Proof.
  intros Hsz [Hobj Hholds].
  assert (Hfcap : size_t.fits cap) by (by eapply holds_fits_cap).
  destruct Hholds as (Hle & _ & Hoff & Hblk).
  rewrite length_snoc in Hle, Hobj.
  destruct buf as [[b|] o]; simpl in Hoff, Hblk; [subst o | lia].
  unfold PopBack.
  erewrite bind_Done by (by eapply get_size_eq).
  run. unfold assert. cbn [negb Nat.eqb]. run.
  erewrite get_data_eq by exact Hobj.
  run. rewrite RawMemory_plus_eq by (simpl; lia).
  run. rewrite ptr_add_mk, Nat.add_0_l.
  rewrite ptr_sub_eq by (simpl; lia).
  run. replace (S (length l) - 1) with (length (Some <$> l))
    by (rewrite length_fmap; lia).
  erewrite destroy_at_eq.
  2:{ rewrite Hblk, slots_of_snoc by lia. done. }
  run. erewrite set_size_eq by exact Hobj.
  rewrite size_t_sub_fits;
    [ | lia | eapply size_t_fits_le; [|exact Hfcap]; lia ].
  unfold update_old. simpl. rewrite slots_of_raw_tail by lia.
  rewrite Nat.sub_0_r. done.
Qed.

Lemma PopBack_empty s this v :
  objs s !! this = Some v → size_ v = 0 → PopBack this s = AssertFailed.
Proof.
  intros Hobj Hsize. unfold PopBack.
  erewrite bind_Done by (by eapply get_size_eq).
  rewrite Hsize. done.
Qed.

Lemma failed_Thrown {A} (s : State) : failed (@Thrown A s).
Proof. done. Qed.

(** [EmplaceBack]: the vector gets [x] as its last element, the returned
    reference is to that element; or some call threw. *)
Lemma EmplaceBack_spec s this buf cap l x :
  0 < sizeof_T →
  vector_at s this buf cap l →
  size_t.fits (grown (length l) cap * sizeof_T) →
  (∃ s' buf',
      EmplaceBack this x s = Done (buf' +ₚ length l) s'
      ∧ vector_at s' this buf' (grown (length l) cap) (l ++ [x])
      ∧ (length l < cap → buf' = buf)
      ∧ leaked s' = leaked s)
  ∨ (injected ∧ failed (EmplaceBack this x s)).
Proof.
  intros Hsz Hv Hfits. unfold grown in *.
  destruct (length l =? cap) eqn:Hfull.
  - apply Nat.eqb_eq in Hfull.
    pose proof (EmplaceBack_growth s this buf cap l x Hsz Hv Hfull Hfits) as H.
    assert (Hnc : length l < (if cap =? 0 then 1 else 2 * cap)).
    { destruct (cap =? 0) eqn:E.
      - apply Nat.eqb_eq in E. lia.
      - apply Nat.eqb_neq in E. lia. }
    unfold growth_outcome in H. cbv zeta in H.
    destruct (throws (trace s) _) eqn:Hnew.
    { right. rewrite H. split; [by eexists _, _ | done]. }
    destruct (throws (trace s ++ _) _) eqn:Hctor.
    { right. rewrite H. split; [by eexists _, _ | done]. }
    destruct H as [Hok | [(_ & Hinj & lk & tr' & _ & Hthr) | (_ & _ & Hinj & Hf)]].
    + left. eexists _, (mkPtr (Some (length (heap s))) 0).
      split; [exact Hok|]. split; [by eapply vector_at_after_growth|].
      split; [lia | done].
    + right. rewrite Hthr. done.
    + right. done.
  - apply Nat.eqb_neq in Hfull.
    assert (Hlt : length l < cap) by (destruct Hv as [_ (? & _)]; lia).
    rewrite (EmplaceBack_in_place s this buf cap l x Hsz Hv Hlt).
    destruct (throws (trace s) (EvCtor x)) eqn:Hctor.
    { right. split; [by eexists _, _ | done]. }
    left. eexists _, buf. split; [done|].
    split; [|done].
    rewrite <- (length_snoc l x). eapply vector_at_update; [exact Hv|].
    rewrite length_snoc. lia.
Qed.

(** ** [Reserve] *)

Lemma Reserve_noop s this v n :
  objs s !! this = Some v → n ≤ capacity_ (data_ v) →
  Reserve this n s = Done tt s.
Proof.
  intros Hobj Hle. unfold Reserve.
  erewrite bind_Done by (by eapply get_data_eq).
  unfold RawMemory_Capacity. by rewrite (leb_correct _ _ Hle).
Qed.

Lemma Reserve_growth s this buf cap l n :
  0 < sizeof_T →
  vector_at s this buf cap l → cap < n → size_t.fits (n * sizeof_T) →
  let r := Reserve this n s in
  if throws (trace s) (EvNew (n * sizeof_T)) then r = Thrown s
  else
    r = Done tt
          (mkState
             (<[this := mkVector (mkRawMemory (mkPtr (Some (length (heap s))) 0) n)
                                 (length l)]> (objs s))
             (release buf (heap s ++ [Some (slots_of l n)]))
             (leaked s)
             (trace s ++ [EvNew (n * sizeof_T)] ++ relocation_events l
                ++ (EvDtor <$> relocated l) ++ release_events buf))
    ∨ (relocate_by_move = false ∧ injected ∧
       ∃ tr', r = Thrown (mkState (objs s) (heap s ++ [None]) (leaked s) tr'))
    ∨ (relocate_by_move = true ∧ is_nothrow_move_constructible = false ∧
       injected ∧ failed r).
Proof.
  intros Hsz [Hobj Hholds] Hlt Hfits r. subst r.
  pose proof Hholds as (Hle & _ & Hoff & Hblk).
  unfold Reserve.
  erewrite bind_Done by (by eapply get_data_eq).
  run. rewrite (leb_correct_conv _ _ Hlt).
  unfold with_new_data.
  run. rewrite RawMemory_new_eq by (done || lia).
  destruct (throws (trace s) (EvNew (n * sizeof_T))) eqn:Hnew; [done|].
  run. erewrite get_size_eq by exact Hobj.
  run.
  set (s2 := mkState _ (heap s ++ _) _ _).
  assert (Hold : block_is (heap s) buf
            ([] ++ (Some <$> l) ++ replicate (cap - length l) None)).
  { by apply holds_block_is. }
  assert (Hfresh := block_is_fresh _ _ _ Hold).
  assert (Hnb : heap s2 !! length (heap s)
     = Some (Some ([] ++ replicate (length l) None
                   ++ replicate (n - length l) None))).
  { subst s2. simpl. rewrite lookup_new_block.
    by rewrite <- replicate_add, Nat.add_comm, Nat.sub_add by lia. }
  destruct (relocate_spec s2 buf buf (length (heap s)) 0 0 _ l [] _ [] _
              Hoff (eq_sym (ptr_add_0 buf)) eq_refl eq_refl eq_refl Hfresh
              (block_is_app _ _ _ _ Hold) Hnb)
    as [Hok | [(Hm & Hinj & tr' & Hthr) | (Hm & Hn & Hinj & Hfail)]].
  - left. rewrite Hok. cbv beta iota.
    erewrite (commit_spec _ this buf cap (length l) _ (relocated l));
      [ | exact Hobj | done | by rewrite relocated_length
        | eapply block_is_update;
          [ by apply block_is_insert_ne, block_is_app
          | by rewrite !length_app, !length_fmap, relocated_length ] ].
    run. unfold mret, M_ret, ret. run.
    erewrite (delete_old _ buf _
                (replicate (length l) None ++ replicate (cap - length l) None));
      [ | done | apply omap_raw
        | eapply block_is_update;
          [ eapply block_is_update;
            [ by apply block_is_insert_ne, block_is_app
            | by rewrite !length_app, !length_fmap, relocated_length ]
          | by rewrite !length_app, !length_fmap, !length_replicate,
               relocated_length ] ].
    run. f_equal. subst s2. simpl. f_equal.
    + unfold release. by rewrite !update_old_twice, insert_new_block.
    + by rewrite <- !app_assoc.
  - right. left. split; [done|]. split; [done|].
    exists (tr' ++ [EvDelete (length (heap s))]).
    rewrite Hthr. run.
    unfold RawMemory_delete, Deallocate. run.
    erewrite operator_delete_eq by (subst s2; simpl; apply lookup_new_block).
    subst s2. simpl. rewrite insert_new_block.
    by rewrite omap_replicate_None, app_nil_r.
  - right. right. split; [done|]. split; [done|]. split; [done|].
    match type of Hfail with failed ?R => destruct R end; try done.
    cbv beta iota. by destruct (RawMemory_delete _ _).
Qed.

(** ** [InsertAndReallocate] *)

Lemma InsertAndReallocate_spec s this buf cap l k x :
  0 < sizeof_T →
  vector_at s this buf cap l → length l = cap → k ≤ length l →
  let newcap := if cap =? 0 then 1 else 2 * cap in
  size_t.fits (newcap * sizeof_T) →
  growth_outcome (InsertAndReallocate this k x s) s (newcap * sizeof_T) x
    (λ lk, lk = [x] ∨ lk = take k l ++ [x])
    (Done tt
       (mkState
          (<[this := mkVector (mkRawMemory (mkPtr (Some (length (heap s))) 0) newcap)
                              (length l)]> (objs s))
          (release buf
             (heap s ++ [Some (slots_of (take k l ++ x :: drop k l) newcap)]))
          (leaked s)
          (trace s ++ [EvNew (newcap * sizeof_T); EvCtor x]
             ++ relocation_events l ++ (EvDtor <$> relocated l)
             ++ release_events buf))).
Proof.
  intros Hsz [Hobj Hholds] Hfull Hk newcap Hfits.
  assert (Hfcap : size_t.fits cap) by (by eapply holds_fits_cap).
  subst cap. pose proof Hholds as (Hle & _ & Hoff & Hblk).
  assert (Hnewcap : (if length l =? 0 then 1 else size_t.mul (length l) 2) = newcap).
  { subst newcap. destruct (length l =? 0) eqn:E; [done|].
    rewrite size_t_mul_fits; [lia|].
    eapply size_t_fits_factor; [exact Hsz|].
    by replace (length l * 2) with (2 * length l) by lia. }
  assert (Hnc : length l < newcap).
  { subst newcap. destruct (length l =? 0) eqn:E.
    - apply Nat.eqb_eq in E. lia.
    - apply Nat.eqb_neq in E. lia. }
  clearbody newcap.
  unfold growth_outcome, InsertAndReallocate.
  erewrite bind_Done by (by eapply get_size_eq).
  run. rewrite Hnewcap.
  unfold with_new_data.
  run. rewrite RawMemory_new_eq by (done || lia).
  destruct (throws (trace s) (EvNew (newcap * sizeof_T))) eqn:Hnew; [done|].
  run. rewrite ptr_add_mk, Nat.add_0_l.
  rewrite (construct_from_args_eq _ _ _ (replicate k None)
             (replicate (newcap - S k) None)).
  2:{ by rewrite length_replicate. }
  2:{ simpl. rewrite lookup_new_block. by rewrite <- replicate_split_at by lia. }
  simpl trace.
  destruct (throws (trace s ++ [EvNew (newcap * sizeof_T)]) (EvCtor x)) eqn:Hctor.
  { run. unfold RawMemory_delete, Deallocate. simpl buffer_.
    erewrite operator_delete_eq by (simpl; apply lookup_new_block).
    simpl. rewrite insert_new_block, omap_replicate_None, app_nil_r.
    by rewrite <- app_assoc. }
  run. rewrite insert_new_block.
  erewrite get_data_eq by exact Hobj.
  run. rewrite if_bind_distr.
  rewrite size_t_sub_fits by done.
  rewrite !ptr_add_mk. run.
  set (s2 := mkState _ (heap s ++ _) _ _).
  set (nb := length (heap s)).
  set (raw := replicate (newcap - S (length l)) (@None T)).
  assert (Hlen1 : length (take k l) = k) by (rewrite length_take; lia).
  assert (Hlen2 : length (drop k l) = length l - k) by apply length_drop.
  assert (Hold : block_is (heap s) buf
            ([] ++ (Some <$> take k l) ++ (Some <$> drop k l))).
  { assert (H := holds_block_is _ _ _ _ Hholds).
    unfold slots_of in H. rewrite Nat.sub_diag, app_nil_r in H.
    simpl. by rewrite <- fmap_app, take_drop. }
  assert (Hfresh := block_is_fresh _ _ _ Hold). fold nb in Hfresh.
  assert (Hnb : heap s2 !! nb
     = Some (Some ([] ++ replicate (length (take k l)) None
                   ++ Some x :: replicate (length l - k) None ++ raw))).
  { subst s2 nb raw. simpl. rewrite lookup_new_block, Hlen1.
    do 4 f_equal. rewrite <- replicate_add. f_equal. lia. }
  destruct (relocate_spec s2 buf buf nb 0 0 k (take k l) [] _ [] _
              Hoff (eq_sym (ptr_add_0 buf)) eq_refl eq_refl (eq_sym Hlen1) Hfresh
              (block_is_app _ _ _ _ Hold) Hnb)
    as [Hok | [(Hm & Hinj & tr' & Hthr) | (Hm & Hn & Hinj & Hfail)]].
  - rewrite Hok. cbv beta iota.
    set (s3 := mkState _ _ _ _).
    assert (Hold3 : block_is (heap s3) buf
       ((Some <$> relocated (take k l)) ++ (Some <$> drop k l) ++ [])).
    { subst s3. simpl. rewrite app_nil_r. eapply block_is_update.
      - by apply block_is_insert_ne, block_is_app.
      - by rewrite !length_app, !length_fmap, relocated_length. }
    assert (Hnb3 : heap s3 !! nb
       = Some (Some (((Some <$> take k l) ++ [Some x])
                     ++ replicate (length (drop k l)) None ++ raw))).
    { subst s3. simpl. rewrite lookup_update_old_ne by done.
      subst s2. simpl. subst nb. rewrite insert_new_block, lookup_new_block.
      by rewrite Hlen2, <- app_assoc. }
    destruct (relocate_spec s3 buf (buf +ₚ k)
                nb k (k + 1) (length l - k) (drop k l)
                (Some <$> relocated (take k l)) []
                ((Some <$> take k l) ++ [Some x]) raw
                Hoff eq_refl) as
      [Hok3 | [(Hm & Hinj & tr' & Hthr) | (Hm & Hn & Hinj & Hfail)]];
      [ by rewrite length_fmap, relocated_length
      | by rewrite length_app, length_fmap, Hlen1
      | done | done | exact Hold3 | exact Hnb3 | | | ].
    + left. rewrite Hok3. cbv beta iota.
      assert (Hrel : (Some <$> relocated (take k l))
                       ++ (Some <$> relocated (drop k l)) ++ []
                     = (Some <$> relocated l) ++ []).
      { by rewrite !app_nil_r, <- fmap_app, <- relocated_app, take_drop. }
      rewrite Hrel.
      erewrite (commit_spec _ this buf (length l) (length l) _ (relocated l));
        [ | exact Hobj | done | by rewrite relocated_length
          | eapply block_is_update;
            [ by apply block_is_insert_ne
            | rewrite !length_app, !length_fmap, !relocated_length, Hlen1, Hlen2;
              simpl; lia ] ].
      run. unfold mret, M_ret, ret. run.
      erewrite (delete_old _ buf _ (replicate (length l) None ++ []));
        [ | done | by rewrite app_nil_r, omap_replicate_None
          | eapply block_is_update;
            [ eapply block_is_update;
              [ by apply block_is_insert_ne
              | rewrite !length_app, !length_fmap, !relocated_length, Hlen1, Hlen2;
                simpl; lia ]
            | by rewrite !length_app, !length_fmap, !length_replicate,
                 relocated_length ] ].
      run. f_equal. subst s3 s2. simpl. f_equal.
      * unfold release. rewrite !update_old_twice.
        rewrite <- (update_old_insert_ne buf _ nb) by done.
        rewrite update_old_twice. subst nb.
        rewrite heap_insert_same, insert_new_block.
        do 3 f_equal. unfold slots_of.
        rewrite fmap_app, fmap_cons, length_app, length_cons, Hlen1, Hlen2.
        rewrite <- !app_assoc. simpl. subst raw.
        by replace (k + S (length l - k)) with (S (length l)) by lia.
      * rewrite <- !app_assoc. simpl. do 3 f_equal.
        rewrite app_assoc, <- relocation_events_app, take_drop. done.
    + right. left. split; [done|]. split; [done|].
      exists (take k l ++ [x]), (tr' ++ [EvDelete nb]). split; [by right|].
      rewrite Hthr. run.
      unfold RawMemory_delete, Deallocate. run.
      erewrite operator_delete_eq.
      2:{ subst s3 s2. simpl. rewrite lookup_update_old_ne by done.
          subst nb. rewrite insert_new_block. apply lookup_new_block. }
      subst s3 s2. simpl.
      rewrite <- (update_old_insert_ne buf _ nb) by done.
      subst nb. rewrite heap_insert_same, insert_new_block.
      assert (Hm' := Hm). unfold relocated, update_old.
      rewrite Hm'.
      assert (Hid : update_old buf (Some ((Some <$> take k l) ++ (Some <$> drop k l)))
                      (heap s ++ [None]) = heap s ++ [None]).
      { unfold update_old, block_is in *. destruct (base buf) as [b|]; [|done].
        apply list_insert_id. apply lookup_old_block. exact Hold. }
      unfold update_old in Hid. rewrite Hid.
      rewrite omap_app, omap_fmap_Some. simpl. subst raw.
      rewrite omap_app, !omap_replicate_None. simpl. done.
    + right. right. split; [done|]. split; [done|]. split; [done|].
      match type of Hfail with failed ?R => destruct R end; try done.
      cbv beta iota. by destruct (RawMemory_delete _ _).
  - right. left. split; [done|]. split; [done|].
    exists [x], (tr' ++ [EvDelete nb]). split; [by left|].
    rewrite Hthr. run.
    unfold RawMemory_delete, Deallocate. run.
    erewrite operator_delete_eq by (subst s2 nb; simpl; apply lookup_new_block).
    subst s2 nb. simpl. rewrite insert_new_block.
    rewrite omap_app, omap_replicate_None. simpl.
    by rewrite omap_replicate_None.
  - right. right. split; [done|]. split; [done|]. split; [done|].
    match type of Hfail with failed ?R => destruct R end; try done.
    cbv beta iota. by destruct (RawMemory_delete _ _).
Qed.

(** ** Shifts inside one block *)

Lemma lookup_mid_S {A} (pre post : list A) x y :
  (pre ++ x :: y :: post) !! S (length pre) = Some y.
Proof.
  rewrite (cons_middle x), app_assoc, <- (length_snoc pre x). apply lookup_mid.
Qed.

Lemma insert_mid_S {A} (pre post : list A) x y z :
  <[S (length pre) := z]> (pre ++ x :: y :: post) = pre ++ x :: z :: post.
Proof.
  rewrite (cons_middle x pre), app_assoc, <- (length_snoc pre x), insert_mid.
  by rewrite <- app_assoc.
Qed.

Lemma load_idx s b i blk x :
  heap s !! b = Some (Some blk) → blk !! i = Some (Some x) →
  load (mkPtr (Some b) i) s = Done x s.
Proof. intros Hb Hi. unfold load. by rewrite (slot_at_eq _ _ _ _ Hb), Hi. Qed.

Lemma store_idx s b i blk x y :
  heap s !! b = Some (Some blk) → blk !! i = Some (Some x) →
  store (mkPtr (Some b) i) y s
  = Done tt (mkState (objs s) (<[b := Some (<[i := Some y]> blk)]> (heap s))
                     (leaked s) (trace s)).
Proof.
  intros Hb Hi. unfold store.
  by rewrite (slot_at_eq _ _ _ _ Hb), Hi, (write_slot_eq _ _ _ _ _ Hb).
Qed.

Lemma construct_at_idx s b i blk y :
  heap s !! b = Some (Some blk) → blk !! i = Some None →
  construct_at (mkPtr (Some b) i) y s
  = Done tt (mkState (objs s) (<[b := Some (<[i := Some y]> blk)]> (heap s))
                     (leaked s) (trace s)).
Proof.
  intros Hb Hi. unfold construct_at.
  by rewrite (slot_at_eq _ _ _ _ Hb), Hi, (write_slot_eq _ _ _ _ _ Hb).
Qed.

Lemma call_eq e s :
  call e s = if throws (trace s) e then Thrown s else Done tt (log e s).
Proof. done. Qed.

Lemma move_assign_left s b pre j y post :
  heap s !! b = Some (Some (pre ++ Some j :: Some y :: post)) →
  move_assign (mkPtr (Some b) (length pre)) (mkPtr (Some b) (S (length pre))) s
  = if throws (trace s) (EvMoveAssign j y) then Thrown s
    else Done tt (mkState (objs s)
           (<[b := Some (pre ++ Some y :: Some (moved_from y) :: post)]> (heap s))
           (leaked s) (trace s ++ [EvMoveAssign j y])).
Proof.
  intros Hb. unfold move_assign.
  run. erewrite load_idx by (exact Hb || apply lookup_mid_S).
  run. erewrite load_idx by (exact Hb || apply lookup_mid).
  run. rewrite call_eq. destruct (throws _ _); [done|].
  run. erewrite store_idx by (exact Hb || apply lookup_mid).
  run. rewrite insert_mid.
  erewrite store_idx;
    [ | simpl; by erewrite heap_lookup_insert | apply lookup_mid_S ].
  simpl. by rewrite heap_insert_same, insert_mid_S.
Qed.

Lemma move_assign_right s b pre j y post :
  heap s !! b = Some (Some (pre ++ Some y :: Some j :: post)) →
  move_assign (mkPtr (Some b) (S (length pre))) (mkPtr (Some b) (length pre)) s
  = if throws (trace s) (EvMoveAssign j y) then Thrown s
    else Done tt (mkState (objs s)
           (<[b := Some (pre ++ Some (moved_from y) :: Some y :: post)]> (heap s))
           (leaked s) (trace s ++ [EvMoveAssign j y])).
Proof.
  intros Hb. unfold move_assign.
  run. erewrite load_idx by (exact Hb || apply lookup_mid).
  run. erewrite load_idx by (exact Hb || apply lookup_mid_S).
  run. rewrite call_eq. destruct (throws _ _); [done|].
  run. erewrite store_idx by (exact Hb || apply lookup_mid_S).
  run. rewrite insert_mid_S.
  erewrite store_idx;
    [ | simpl; by erewrite heap_lookup_insert | apply lookup_mid ].
  simpl. by rewrite heap_insert_same, insert_mid.
Qed.

Lemma move_construct_right s b pre z post :
  heap s !! b = Some (Some (pre ++ Some z :: None :: post)) →
  move_construct (mkPtr (Some b) (S (length pre))) (mkPtr (Some b) (length pre)) s
  = if negb is_nothrow_move_constructible && throws (trace s) (EvMoveCtor z)
    then Thrown s
    else Done tt (mkState (objs s)
           (<[b := Some (pre ++ Some (moved_from z) :: Some z :: post)]> (heap s))
           (leaked s) (trace s ++ [EvMoveCtor z])).
Proof.
  intros Hb. unfold move_construct.
  run. erewrite load_idx by (exact Hb || apply lookup_mid).
  run. rewrite call_move_ctor_eq.
  destruct (negb _ && _); [done|].
  run. erewrite construct_at_idx by (exact Hb || apply lookup_mid_S).
  run. rewrite insert_mid_S.
  erewrite store_idx;
    [ | simpl; by erewrite heap_lookup_insert | apply lookup_mid ].
  simpl. by rewrite heap_insert_same, insert_mid.
Qed.

Lemma move_n_spec ys : ∀ s b pre j post,
  heap s !! b = Some (Some (pre ++ Some j :: (Some <$> ys) ++ post)) →
  done_or_failed
    (move_n (mkPtr (Some b) (S (length pre))) (length ys)
            (mkPtr (Some b) (length pre)) s)
    (Done tt (mkState (objs s)
       (<[b := Some (pre ++ (Some <$> ys) ++ Some (junk_after j ys) :: post)]>
          (heap s))
       (leaked s) (trace s ++ shift_events j ys))).
Proof.
  induction ys as [|y ys IH]; intros s b pre j post Hb; simpl.
  - left. unfold ret. rewrite app_nil_r, list_insert_id by done.
    by rewrite state_eta.
  - simpl in Hb. rewrite bind_unfold, (move_assign_left _ _ _ _ _ _ Hb).
    destruct (throws _ _) eqn:Hthrow.
    { right. split; [by eexists _, _ | done]. }
    cbv beta iota. rewrite !ptr_add_1, <- (length_snoc pre (Some y)).
    set (s1 := mkState _ _ _ _).
    destruct (IH s1 b (pre ++ [Some y]) (moved_from y) post) as [Hok | Hfail].
    { subst s1. simpl. erewrite heap_lookup_insert by done.
      by rewrite <- app_assoc. }
    + left. rewrite Hok. subst s1. simpl.
      by rewrite heap_insert_same, <- !app_assoc.
    + by right.
Qed.

Lemma junk_after_snoc j ys y : junk_after j (ys ++ [y]) = moved_from y.
Proof. unfold junk_after. by rewrite fold_left_app. Qed.

Lemma shift_events_app j ys zs :
  shift_events j (ys ++ zs) = shift_events j ys ++ shift_events (junk_after j ys) zs.
Proof.
  revert j. induction ys as [|y ys IH]; intros j; [done|].
  simpl. by rewrite IH.
Qed.

Lemma move_backward_n_spec ys : ∀ s b pre j post,
  heap s !! b = Some (Some (pre ++ (Some <$> ys) ++ Some j :: post)) →
  done_or_failed
    (move_backward_n (mkPtr (Some b) (length pre + length ys)) (length ys)
                     (mkPtr (Some b) (S (length pre + length ys))) s)
    (Done tt (mkState (objs s)
       (<[b := Some (pre ++ Some (junk_after j (rev ys)) :: (Some <$> ys) ++ post)]>
          (heap s))
       (leaked s) (trace s ++ shift_events j (rev ys)))).
Proof.
  induction ys as [|y ys IH] using rev_ind; intros s b pre j post Hb.
  - left. simpl. unfold ret. rewrite app_nil_r, list_insert_id by done.
    by rewrite state_eta.
  - rewrite length_snoc. cbn [move_backward_n].
    rewrite bind_unfold, ptr_sub_eq by (simpl; lia).
    cbv beta iota. rewrite bind_unfold, ptr_sub_eq by (simpl; lia).
    cbv beta iota. cbn [base off].
    replace (length pre + S (length ys) - 1) with (length (pre ++ (Some <$> ys)))
      by (rewrite length_app, length_fmap; lia).
    replace (S (length pre + S (length ys)) - 1)
      with (S (length (pre ++ (Some <$> ys))))
      by (rewrite length_app, length_fmap; lia).
    rewrite bind_unfold.
    rewrite (move_assign_right _ _ _ j y post).
    2:{ rewrite Hb, fmap_app, <- !app_assoc. done. }
    destruct (throws _ _) eqn:Hthrow.
    { right. split; [by eexists _, _ | done]. }
    cbv beta iota. rewrite length_app, length_fmap.
    set (s1 := mkState _ _ _ _).
    destruct (IH s1 b pre (moved_from y) (Some y :: post)) as [Hok | Hfail].
    { subst s1. simpl. erewrite heap_lookup_insert by done.
      by rewrite <- app_assoc. }
    + left. rewrite Hok. subst s1. simpl.
      rewrite heap_insert_same, rev_app_distr. simpl.
      by rewrite fmap_app, <- !app_assoc.
    + by right.
Qed.

(** ** [Emplace] *)

Lemma ptr_le_eq p q s :
  base p = base q → ptr_le p q s = Done (off p <=? off q) s.
Proof. intros H. unfold ptr_le. by rewrite bool_decide_eq_true_2. Qed.

Lemma ptr_diff_eq p q s :
  base p = base q → off q ≤ off p → size_t.fits (off p) →
  ptr_diff p q s = Done (off p - off q) s.
Proof.
  intros H Hle Hf. unfold ptr_diff. rewrite bool_decide_eq_true_2 by done.
  by rewrite size_t_sub_fits.
Qed.

Lemma distance_eq p q s :
  base p = base q → off p ≤ off q →
  distance p q s = Done (off q - off p) s.
Proof.
  intros H Hle. unfold distance. rewrite bool_decide_eq_true_2 by done.
  by rewrite (leb_correct _ _ Hle).
Qed.

Lemma in_range_eq s this buf cap n k :
  objs s !! this = Some (mkVector (mkRawMemory buf cap) n) → n ≤ cap →
  in_range this (buf +ₚ k) s = Done (k <=? n) s.
Proof.
  intros Hobj Hle. unfold in_range, cbegin, cend.
  run. erewrite begin_eq by exact Hobj.
  run. rewrite ptr_le_eq by done.
  run. unfold ptr_add at 1 2. cbn [off base].
  rewrite (leb_correct (off buf + 0) (off buf + k)) by lia.
  run. erewrite end_eq by (exact Hobj || done).
  run. rewrite ptr_le_eq by done.
  simpl. f_equal. destruct (k <=? n) eqn:E.
  - apply Nat.leb_le in E. apply Nat.leb_le. lia.
  - apply Nat.leb_gt in E. apply Nat.leb_gt. lia.
Qed.

Lemma drop_nonempty_last (l : list T) k :
  k < length l → ∃ ys z, drop k l = ys ++ [z].
Proof.
  intros H. destruct (drop k l) as [|y ys] eqn:E using rev_ind.
  - apply (f_equal length) in E. rewrite length_drop in E. simpl in E. lia.
  - eauto.
Qed.

Lemma assert_eq b s : assert b s = if b then Done tt s else AssertFailed.
Proof. done. Qed.

Lemma Emplace_out_of_range s this buf cap l k x :
  vector_at s this buf cap l → length l < k →
  Emplace this (buf +ₚ k) x s = AssertFailed.
Proof.
  intros [Hobj (Hle & _)] Hk. unfold Emplace.
  run. erewrite in_range_eq by (exact Hobj || done).
  run. by rewrite assert_eq, leb_correct_conv.
Qed.

Lemma Emplace_prefix {A} s this buf cap l k (rest : nat → M A) :
  0 < sizeof_T →
  vector_at s this buf cap l → k ≤ length l →
  (c ← in_range this (buf +ₚ k); assert c;;
   cb ← cbegin this; offset ← ptr_diff (buf +ₚ k) cb; rest offset) s
  = rest k s.
Proof.
  intros Hsz [Hobj Hholds] Hk.
  assert (Hfcap : size_t.fits cap) by (by eapply holds_fits_cap).
  destruct Hholds as (Hle & _ & Hoff & _).
  run. erewrite in_range_eq by (exact Hobj || done).
  run. rewrite assert_eq, leb_correct by done.
  run. unfold cbegin. erewrite begin_eq by exact Hobj.
  run. rewrite ptr_diff_eq;
    [ | done | simpl; lia
      | simpl; eapply size_t_fits_le; [|exact Hfcap]; lia ].
  cbv beta iota. simpl. f_equal. lia.
Qed.

Lemma growth_outcome_bind {A B} (m : M A) (f : A → M B) s bytes x leak a s1 ok :
  growth_outcome (m s) s bytes x leak (Done a s1) →
  f a s1 = ok →
  growth_outcome ((m ≫= f) s) s bytes x leak ok.
Proof.
  unfold growth_outcome. intros H Hf. rewrite bind_unfold.
  destruct (throws (trace s) (EvNew bytes)); [by rewrite H|].
  destruct (throws _ (EvCtor x)); [by rewrite H|].
  destruct H as [-> | [(Hm & Hinj & lk & tr' & Hlk & ->) | (Hm & Hn & Hinj & Hfail)]].
  - by left.
  - right. left. eauto 10.
  - right. right. repeat split; try done. by destruct (m s).
Qed.

Lemma Emplace_realloc s this buf cap l k x :
  0 < sizeof_T →
  vector_at s this buf cap l → length l = cap → k ≤ length l →
  let newcap := if cap =? 0 then 1 else 2 * cap in
  size_t.fits (newcap * sizeof_T) →
  growth_outcome (Emplace this (buf +ₚ k) x s) s (newcap * sizeof_T) x
    (λ lk, lk = [x] ∨ lk = take k l ++ [x])
    (Done (mkPtr (Some (length (heap s))) k)
       (mkState
          (<[this := mkVector (mkRawMemory (mkPtr (Some (length (heap s))) 0) newcap)
                              (S (length l))]> (objs s))
          (release buf
             (heap s ++ [Some (slots_of (take k l ++ x :: drop k l) newcap)]))
          (leaked s)
          (trace s ++ [EvNew (newcap * sizeof_T); EvCtor x]
             ++ relocation_events l ++ (EvDtor <$> relocated l)
             ++ release_events buf))).
Proof.
  intros Hsz Hv Hfull Hk newcap Hfits.
  pose proof (InsertAndReallocate_spec s this buf cap l k x Hsz Hv Hfull Hk Hfits)
    as H.
  assert (Hfcap : size_t.fits newcap) by (by eapply size_t_fits_factor).
  assert (Hnc : length l < newcap).
  { subst newcap. rewrite <- Hfull. destruct (length l =? 0) eqn:E.
    - apply Nat.eqb_eq in E. lia.
    - apply Nat.eqb_neq in E. lia. }
  destruct Hv as [Hobj Hholds].
  unfold Emplace. erewrite (Emplace_prefix _ _ _ cap l) by done.
  erewrite bind_Done by (by eapply get_size_eq).
  erewrite bind_Done by (by eapply Capacity_eq).
  cbn [size_ data_ capacity_]. rewrite Hfull, Nat.eqb_refl. rewrite <- Hfull.
  eapply growth_outcome_bind; [exact H|].
  cbv beta. run.
  erewrite get_size_eq by obj_lookup.
  run. erewrite set_size_eq by obj_lookup.
  run. erewrite begin_eq by obj_lookup.
  run. rewrite !ptr_add_mk, !list_insert_insert_eq.
  rewrite size_t_add_fits by (eapply size_t_fits_le; [|exact Hfcap]; lia).
  simpl. by rewrite Nat.add_1_r.
Qed.

Lemma ptr_eqb_add buf i j : ptr_eqb (buf +ₚ i) (buf +ₚ j) = (i =? j).
Proof.
  unfold ptr_eqb, ptr_add. simpl. rewrite bool_decide_eq_true_2 by done.
  simpl. destruct (i =? j) eqn:E.
  - apply Nat.eqb_eq in E. apply Nat.eqb_eq. lia.
  - apply Nat.eqb_neq in E. apply Nat.eqb_neq. lia.
Qed.

Lemma try_catch_unfold {A} (body handler : M A) s :
  try_catch body handler s
  = match body s with
    | Thrown s' => handler s'
    | r => r
    end.
Proof. done. Qed.

Lemma Emplace_at_end s this buf cap l x :
  0 < sizeof_T →
  vector_at s this buf cap l → length l < cap →
  Emplace this (buf +ₚ length l) x s
  = if throws (trace s) (EvCtor x) then
      if length l =? 0
      then Thrown (mkState (objs s) (release buf (heap s)) (leaked s)
                           (trace s ++ release_events buf))
      else Undefined
    else Done (buf +ₚ length l)
           (mkState
              (<[this := mkVector (mkRawMemory buf cap) (S (length l))]> (objs s))
              (update_old buf (Some (slots_of (l ++ [x]) cap)) (heap s))
              (leaked s) (trace s ++ [EvCtor x])).
Proof.
  intros Hsz Hv Hlt.
  assert (Hfcap : size_t.fits cap) by (destruct Hv; by eapply holds_fits_cap).
  unfold Emplace. erewrite (Emplace_prefix _ _ _ cap l) by done.
  destruct Hv as [Hobj (Hle & _ & Hoff & Hblk)].
  erewrite bind_Done by (by eapply get_size_eq).
  erewrite bind_Done by (by eapply Capacity_eq).
  cbn [size_ data_ capacity_]. rewrite (proj2 (Nat.eqb_neq _ _)) by lia.
  run. rewrite try_catch_unfold. unfold InsertWithoutReallocating, cend.
  run. erewrite end_eq by (exact Hobj || done).
  run. rewrite ptr_eqb_add, Nat.eqb_refl. cbn [negb].
  run. erewrite end_eq by (exact Hobj || done).
  run.
  destruct buf as [[b|] o]; simpl in Hoff, Hblk; [subst o | lia].
  rewrite !ptr_add_mk, !Nat.add_0_l.
  rewrite (construct_from_args_eq _ _ _ (Some <$> l)
             (replicate (cap - S (length l)) None));
    [ | by rewrite length_fmap | by rewrite Hblk, slots_of_raw_tail ].
  destruct (throws (trace s) (EvCtor x)).
  - run. erewrite end_eq by (exact Hobj || done).
    run. rewrite ptr_add_mk, Nat.add_0_l.
    destruct (length l =? 0) eqn:E.
    + apply Nat.eqb_eq in E. rewrite E.
      erewrite operator_delete_eq by exact Hblk.
      run. unfold throw, release, release_events, update_old. simpl.
      unfold slots_of. rewrite omap_app, omap_replicate_None.
      destruct l; [|done]. simpl. by rewrite app_nil_r.
    + apply Nat.eqb_neq in E. by rewrite operator_delete_interior.
  - run. erewrite get_size_eq by exact Hobj.
    run. erewrite set_size_eq by exact Hobj.
    run. erewrite begin_eq by obj_lookup.
    run. rewrite !ptr_add_mk, !Nat.add_0_l.
    rewrite size_t_add_fits by (eapply size_t_fits_le; [|exact Hfcap]; lia).
    unfold update_old, ret. simpl. rewrite slots_of_snoc by done.
    by rewrite Nat.add_1_r.
Qed.

Lemma note_eq e s : note e s = Done tt (log e s).
Proof. done. Qed.

Lemma failed_bind_match {A B} (r : Result A) (f : A → State → Result B) :
  failed r →
  failed (match r with
          | Done a s' => f a s'
          | Thrown s' => Thrown s'
          | AssertFailed => AssertFailed
          | Undefined => Undefined
          end).
Proof. by destruct r. Qed.

Lemma insert_mid_at {A} k (pre post : list A) x y :
  k = length pre → <[k := y]> (pre ++ x :: post) = pre ++ y :: post.
Proof. intros ->. apply insert_mid. Qed.

Lemma catch_handler_failed this s :
  failed ((e ← end_ this; operator_delete e;; @throw unit) s).
Proof.
  rewrite bind_unfold. destruct (end_ this s); try done.
  rewrite bind_unfold. by destruct (operator_delete a s0).
Qed.

Ltac after_throw H :=
  match type of H with
  | failed ?R => destruct R; [done | | done | done]
  end;
  cbv beta iota; rewrite note_eq; cbv beta iota;
  apply failed_bind_match, catch_handler_failed.

Lemma Emplace_shift s this buf cap l k x :
  0 < sizeof_T →
  vector_at s this buf cap l → k < length l → length l < cap →
  let r := Emplace this (buf +ₚ k) x s in
  if throws (trace s) (EvCtor x) then r = Undefined
  else
    (∃ tr',
       r = Done (buf +ₚ k)
             (mkState
                (<[this := mkVector (mkRawMemory buf cap) (S (length l))]> (objs s))
                (update_old buf
                   (Some (slots_of (take k l ++ x :: drop k l) cap)) (heap s))
                (leaked s) tr'))
    ∨ (injected ∧ failed r).
Proof.
  intros Hsz Hv Hk Hlt r. subst r.
  assert (Hfcap : size_t.fits cap) by (destruct Hv; by eapply holds_fits_cap).
  unfold Emplace. erewrite (Emplace_prefix _ _ _ cap l) by (done || lia).
  destruct Hv as [Hobj (Hle & _ & Hoff & Hblk)].
  destruct (drop_nonempty_last l k Hk) as (ys & z & Hdrop).
  assert (Hl : l = take k l ++ ys ++ [z]) by (by rewrite <- Hdrop, take_drop).
  assert (Hlen1 : length (take k l) = k) by (rewrite length_take; lia).
  assert (Hn : length l = k + length ys + 1).
  { rewrite Hl at 1. rewrite !length_app, Hlen1. simpl. lia. }
  set (l1 := take k l) in *.
  destruct buf as [[b|] o]; simpl in Hoff, Hblk; [subst o | lia].
  set (raw := replicate (cap - S (length l)) (@None T)).
  assert (Hb : heap s !! b
    = Some (Some (((Some <$> l1) ++ (Some <$> ys)) ++ Some z :: None :: raw))).
  { rewrite Hblk, slots_of_raw_tail by done. rewrite Hl at 1.
    by rewrite !fmap_app, <- !app_assoc. }
  assert (Hpre : length ((Some <$> l1) ++ (Some <$> ys)) = length l - 1).
  { rewrite length_app, !length_fmap. lia. }
  erewrite bind_Done by (by eapply get_size_eq).
  erewrite bind_Done by (by eapply Capacity_eq).
  cbn [size_ data_ capacity_]. rewrite (proj2 (Nat.eqb_neq _ _)) by lia.
  run. rewrite try_catch_unfold. unfold InsertWithoutReallocating, cend.
  run. erewrite end_eq by (exact Hobj || done).
  run. rewrite ptr_eqb_add, (proj2 (Nat.eqb_neq _ _)) by lia. cbn [negb].
  run. rewrite call_eq.
  destruct (throws (trace s) (EvCtor x)) eqn:Hctor.
  { run. erewrite end_eq by (exact Hobj || done).
    run. rewrite ptr_add_mk, Nat.add_0_l.
    rewrite operator_delete_interior by lia. done. }
  run. unfold log. erewrite end_eq by (exact Hobj || done).
  run. erewrite get_data_eq by exact Hobj.
  run. erewrite get_size_eq by exact Hobj.
  run. rewrite size_t_sub_fits by (lia || (eapply size_t_fits_le; [|exact Hfcap]; lia)).
  rewrite RawMemory_index_eq by (simpl; lia).
  run. rewrite !ptr_add_mk, !Nat.add_0_l.
  rewrite <- Hpre.
  set (pre := (Some <$> l1) ++ (Some <$> ys)) in *.
  replace (mkPtr (Some b) (length l)) with (mkPtr (Some b) (S (length pre)))
    by (f_equal; lia).
  rewrite (move_construct_right _ _ _ z raw) by exact Hb.
  cbn [trace].
  destruct (negb _ && _) eqn:Hmc.
  { right. split.
    - apply andb_true_iff in Hmc as [_ Hmc]. by eexists _, _.
    - run. rewrite note_eq. run.
      erewrite end_eq by (exact Hobj || done).
      run. rewrite ptr_add_mk, Nat.add_0_l.
      rewrite operator_delete_interior by lia. done. }
  run. erewrite begin_eq by exact Hobj.
  run. erewrite end_eq by (exact Hobj || done).
  run. rewrite !ptr_add_mk, !Nat.add_0_l.
  rewrite ptr_sub_eq by (simpl; lia).
  run. erewrite end_eq by (exact Hobj || done).
  run. rewrite !ptr_add_mk, !Nat.add_0_l.
  unfold move_backward.
  run. rewrite distance_eq by (done || simpl; lia).
  run.
  replace (length l - 1 - k) with (length ys) by lia.
  replace (mkPtr (Some b) (length l - 1))
    with (mkPtr (Some b) (length (Some <$> l1) + length ys))
    by (f_equal; rewrite length_fmap; lia).
  replace (mkPtr (Some b) (length l))
    with (mkPtr (Some b) (S (length (Some <$> l1) + length ys)))
    by (f_equal; rewrite length_fmap; lia).
  set (s1 := mkState _ (<[b := _]> _) _ _).
  destruct (move_backward_n_spec ys s1 b (Some <$> l1) (moved_from z) (Some z :: raw))
    as [Hok | [Hinj Hfail]].
  { subst s1 pre. simpl. erewrite heap_lookup_insert by done.
    by rewrite <- !app_assoc. }
  2:{ right. split; [done|]. after_throw Hfail. }
  rewrite Hok. subst s1. run. rewrite heap_insert_same.
  erewrite begin_eq by exact Hobj.
  run. rewrite !ptr_add_mk, !Nat.add_0_l.
  unfold move_assign_from_local.
  assert (Hk1 : k = length (Some <$> l1)) by (by rewrite length_fmap).
  run.
  erewrite load_idx;
    [ | simpl; by erewrite heap_lookup_insert
      | rewrite Hk1 at 1; apply lookup_mid ].
  run. rewrite call_eq.
  destruct (throws _ (EvMoveAssign _ x)) eqn:Hma.
  { right. split; [by eexists _, _|].
    run. rewrite note_eq. cbv beta iota.
    apply failed_bind_match, catch_handler_failed. }
  run. unfold log. cbn [objs heap leaked trace].
  erewrite store_idx;
    [ | simpl; by erewrite heap_lookup_insert
      | rewrite Hk1 at 1; apply lookup_mid ].
  run. unfold ret. run. rewrite note_eq. run. unfold log. cbn [objs heap leaked trace].
  erewrite get_size_eq by exact Hobj.
  run. erewrite set_size_eq by exact Hobj.
  run. erewrite begin_eq by obj_lookup.
  run. rewrite !ptr_add_mk, !Nat.add_0_l.
  left. eexists. f_equal. f_equal.
  - rewrite size_t_add_fits by (eapply size_t_fits_le; [|exact Hfcap]; lia).
    by rewrite Nat.add_1_r.
  - simpl. rewrite !heap_insert_same. unfold update_old. simpl.
    do 2 f_equal. unfold slots_of. rewrite Hdrop.
    rewrite !fmap_app, fmap_cons, !fmap_app, !length_app. simpl.
    rewrite <- !app_assoc. simpl. subst raw. rewrite !length_app. simpl.
    fold l1. rewrite (insert_mid_at k) by exact Hk1.
    rewrite <- app_assoc. simpl.
    by replace (length l1 + S (length ys + 1)) with (S (length l)) by lia.
Qed.

(** ** [Erase] *)

Lemma destroy_at_idx s b i blk x :
  heap s !! b = Some (Some blk) → blk !! i = Some (Some x) →
  destroy_at (mkPtr (Some b) i) s
  = Done tt (mkState (objs s) (<[b := Some (<[i := None]> blk)]> (heap s))
                     (leaked s) (trace s ++ [EvDtor x])).
Proof.
  intros Hb Hi. unfold destroy_at.
  rewrite (slot_at_eq _ _ _ _ Hb), Hi.
  by erewrite write_slot_eq by exact Hb.
Qed.

Lemma Erase_spec s this buf cap l k a :
  0 < sizeof_T →
  vector_at s this buf cap l → l !! k = Some a →
  done_or_failed (Erase this (buf +ₚ k) s)
    (Done (buf +ₚ k)
       (mkState
          (<[this := mkVector (mkRawMemory buf cap) (length l - 1)]> (objs s))
          (update_old buf (Some (slots_of (take k l ++ drop (S k) l) cap)) (heap s))
          (leaked s)
          (trace s ++ shift_events a (drop (S k) l)
             ++ [EvDtor (junk_after a (drop (S k) l))]))).
Proof.
  intros Hsz Hv Ha.
  assert (Hk : k < length l) by (by eapply lookup_lt_Some).
  assert (Hfcap : size_t.fits cap) by (destruct Hv; by eapply holds_fits_cap).
  unfold Erase. erewrite (Emplace_prefix _ _ _ cap l) by (done || lia).
  destruct Hv as [Hobj (Hle & _ & Hoff & Hblk)].
  assert (Hl : l = take k l ++ a :: drop (S k) l).
  { by rewrite take_drop_middle. }
  assert (Hlen1 : length (take k l) = k) by (rewrite length_take; lia).
  set (l1 := take k l) in *. set (ys := drop (S k) l) in *.
  assert (Hn : length l = k + S (length ys)).
  { rewrite Hl at 1. rewrite length_app, Hlen1. done. }
  destruct buf as [[b|] o]; simpl in Hoff, Hblk; [subst o | lia].
  set (raw := replicate (cap - length l) (@None T)).
  assert (Hb : heap s !! b
    = Some (Some ((Some <$> l1) ++ Some a :: (Some <$> ys) ++ raw))).
  { rewrite Hblk. unfold slots_of. rewrite Hl at 1.
    by rewrite !fmap_app, <- !app_assoc. }
  assert (Hk1 : k = length (Some <$> l1)) by (by rewrite length_fmap).
  run. erewrite begin_eq by exact Hobj.
  run. erewrite end_eq by (exact Hobj || done).
  run. erewrite begin_eq by exact Hobj.
  run. rewrite !ptr_add_mk, !Nat.add_0_l.
  unfold std_move.
  run. rewrite distance_eq by (done || simpl; lia).
  run.
  replace (length l - (k + 1)) with (length ys) by lia.
  replace (mkPtr (Some b) (k + 1)) with (mkPtr (Some b) (S (length (Some <$> l1))))
    by (f_equal; lia).
  replace (mkPtr (Some b) k) with (mkPtr (Some b) (length (Some <$> l1)))
    by (f_equal; lia).
  destruct (move_n_spec ys s b (Some <$> l1) a raw Hb) as [Hok | [Hinj Hfail]].
  2:{ right. split; [done|].
      match type of Hfail with failed ?R => destruct R end; done. }
  rewrite Hok. run. unfold cend.
  erewrite end_eq by (exact Hobj || done).
  run. rewrite !ptr_add_mk, !Nat.add_0_l.
  rewrite ptr_sub_eq by (simpl; lia).
  run.
  erewrite (destroy_at_idx _ _ _ _ (junk_after a ys));
    [ | simpl; by erewrite heap_lookup_insert
      | replace (length l - 1) with (length ((Some <$> l1) ++ (Some <$> ys)))
          by (rewrite length_app, !length_fmap; lia);
        rewrite app_assoc; apply lookup_mid ].
  run. rewrite heap_insert_same.
  erewrite get_size_eq by exact Hobj.
  run. erewrite set_size_eq by exact Hobj.
  run. erewrite begin_eq by obj_lookup.
  run. rewrite !ptr_add_mk, !Nat.add_0_l, <- Hk1.
  left. unfold ret. f_equal. f_equal.
  - rewrite size_t_sub_fits; [done | lia |].
    eapply size_t_fits_le; [|exact Hfcap]. lia.
  - unfold update_old. simpl. do 2 f_equal.
    rewrite app_assoc.
    rewrite (insert_mid_at (length l - 1))
      by (rewrite length_app, !length_fmap; lia).
    unfold slots_of. rewrite fmap_app, length_app, <- !app_assoc.
    do 2 f_equal. subst raw.
    replace (cap - (length l1 + length ys)) with (S (cap - length l)) by lia.
    done.
  - by rewrite <- app_assoc.
Qed.

Lemma Erase_at_end s this buf cap l :
  0 < sizeof_T →
  vector_at s this buf cap l →
  Erase this (buf +ₚ length l) s = Undefined.
Proof.
  intros Hsz Hv.
  unfold Erase. erewrite (Emplace_prefix _ _ _ cap l) by (done || lia).
  destruct Hv as [Hobj (Hle & _ & Hoff & Hblk)].
  run. erewrite begin_eq by exact Hobj.
  run. erewrite end_eq by (exact Hobj || done).
  run. erewrite begin_eq by exact Hobj.
  unfold std_move, distance.
  run. unfold ptr_add. cbn [base off].
  rewrite bool_decide_eq_true_2 by done.
  rewrite leb_correct_conv by lia. done.
Qed.

(** ** The copy constructor *)

Lemma Vector_copy_spec s other buf cap l :
  0 < sizeof_T →
  vector_at s other buf cap l →
  (∃ v s',
      Vector_copy other s = Done v s'
      ∧ size_ v = length l
      ∧ capacity_ (data_ v) = length l
      ∧ holds s' (buffer_ (data_ v)) (length l) l
      ∧ vector_at s' other buf cap l
      ∧ leaked s' = leaked s)
  ∨ (injected ∧ failed (Vector_copy other s)).
Proof.
  intros Hsz [Hobj Hholds].
  pose proof Hholds as (Hle & Hfits & Hoff & Hblk).
  assert (Hfl : size_t.fits (length l * sizeof_T)).
  { eapply size_t_fits_le; [|exact Hfits]. nia. }
  unfold Vector_copy.
  erewrite bind_Done by (by eapply get_obj_eq).
  cbn [size_ data_].
  destruct (decide (length l = 0)) as [Hz|Hnz].
  - left. destruct l; [|done]. simpl.
    exists (mkVector (mkRawMemory nullptr 0) 0), s.
    repeat split; try done.
  - destruct buf as [[b|] o]; simpl in Hoff, Hblk; [subst o | lia].
    run. rewrite RawMemory_new_eq by done.
    destruct (throws (trace s) (EvNew (length l * sizeof_T))) eqn:Hnew.
    { right. split; [by eexists _, _ | done]. }
    run.
    set (s1 := mkState _ (heap s ++ _) _ _).
    assert (Hlt : b < length (heap s)) by (by eapply lookup_lt_Some).
    destruct (uninitialized_copy_n_spec l s1 b (length (heap s)) []
                (replicate (cap - length l) None) [] [])
      as [Hok | (Hinj & tr' & Hthr)].
    { lia. }
    { subst s1. simpl. by apply lookup_old_block. }
    { subst s1. simpl. by rewrite lookup_new_block, app_nil_r. }
    + left. simpl in Hok. rewrite Hok. run.
      eexists _, _. split; [done|]. subst s1. simpl.
      rewrite insert_new_block, app_nil_r.
      repeat split; simpl; try done.
      * rewrite lookup_new_block. unfold slots_of.
        by rewrite Nat.sub_diag, app_nil_r.
      * by apply lookup_old_block.
    + right. split; [done|]. simpl in Hthr. rewrite Hthr. run.
      by destruct (RawMemory_delete _ _).
Qed.

(** ** Computations that leave every [Vector] object as it is

    Raw storage, the special member functions of [T] and the standard
    algorithms never write to a [Vector] object. *)

Lemma keeps_ret {A} (a : A) : keeps_objs (ret a).
Proof. by intros s. Qed.

Lemma keeps_mret {A} (a : A) : keeps_objs (mret a).
Proof. by intros s. Qed.

Lemma keeps_throw {A} : keeps_objs (@throw A).
Proof. by intros s. Qed.

Lemma keeps_undefined {A} : keeps_objs (@undefined A).
Proof. by intros s. Qed.

Lemma keeps_bind {A B} (m : M A) (f : A → M B) :
  keeps_objs m → (∀ a, keeps_objs (f a)) → keeps_objs (m ≫= f).
Proof.
  intros Hm Hf s. rewrite bind_unfold. specialize (Hm s).
  destruct (m s) as [a s1|s1| |]; try done.
  specialize (Hf a s1). destruct (f a s1); congruence.
Qed.

Lemma keeps_on_unwind {A} (c : M unit) (m : M A) :
  keeps_objs c → keeps_objs m → keeps_objs (on_unwind c m).
Proof.
  intros Hc Hm s. rewrite on_unwind_unfold. specialize (Hm s).
  destruct (m s) as [a s1|s1| |]; try done.
  specialize (Hc s1). destruct (c s1); try done. congruence.
Qed.

Lemma keeps_if {A} (c : bool) (m1 m2 : M A) :
  keeps_objs m1 → keeps_objs m2 → keeps_objs (if c then m1 else m2).
Proof. by destruct c. Qed.

Lemma keeps_assert b : keeps_objs (assert b).
Proof. intros s. unfold assert. by destruct b. Qed.

Lemma keeps_call e : keeps_objs (call e).
Proof. intros s. unfold call. by destruct (throws _ _). Qed.

Lemma keeps_note e : keeps_objs (note e).
Proof. by intros s. Qed.

Lemma objs_write_slot p v s : objs (write_slot p v s) = objs s.
Proof.
  unfold write_slot. destruct (base p); [|done].
  by destruct (heap s !! n) as [[?|]|].
Qed.

Lemma keeps_load p : keeps_objs (load p).
Proof. intros s. unfold load. by destruct (slot_at s p) as [[?|]|]. Qed.

Lemma keeps_store p x : keeps_objs (store p x).
Proof.
  intros s. unfold store. destruct (slot_at s p) as [[?|]|]; try done.
  apply objs_write_slot.
Qed.

Lemma keeps_construct_at p x : keeps_objs (construct_at p x).
Proof.
  intros s. unfold construct_at. destruct (slot_at s p) as [[?|]|]; try done;
    simpl; apply objs_write_slot.
Qed.

Lemma keeps_destroy_at p : keeps_objs (destroy_at p).
Proof.
  intros s. unfold destroy_at. destruct (slot_at s p) as [[?|]|]; try done.
  by rewrite objs_write_slot.
Qed.

Lemma keeps_operator_new n : keeps_objs (operator_new n).
Proof. intros s. unfold operator_new. by destruct (throws _ _). Qed.

Lemma keeps_operator_delete p : keeps_objs (operator_delete p).
Proof.
  intros s. unfold operator_delete. destruct (base p).
  - destruct (heap s !! n) as [[?|]|]; try done. by destruct (off p =? 0).
  - by destruct (off p =? 0).
Qed.

Create HintDb keeps discriminated.
#[local] Hint Resolve keeps_ret keeps_mret keeps_throw keeps_undefined
  keeps_assert keeps_call keeps_note keeps_load keeps_store
  keeps_construct_at keeps_destroy_at keeps_operator_new
  keeps_operator_delete : keeps.

Ltac keeps :=
  repeat first
    [ progress intros
    | apply keeps_bind
    | apply keeps_on_unwind
    | apply keeps_if
    | solve [eauto with keeps] ].

Lemma keeps_construct_from_args p x : keeps_objs (construct_from_args p x).
Proof. unfold construct_from_args. keeps. Qed.

Lemma keeps_copy_construct p q : keeps_objs (copy_construct p q).
Proof. unfold copy_construct. keeps. Qed.

Lemma keeps_move_construct p q : keeps_objs (move_construct p q).
Proof. unfold move_construct, call_move_ctor. keeps. Qed.

Lemma keeps_value_construct p : keeps_objs (value_construct p).
Proof. unfold value_construct. keeps. Qed.

Lemma keeps_copy_assign p q : keeps_objs (copy_assign p q).
Proof. unfold copy_assign. keeps. Qed.

#[local] Hint Resolve keeps_construct_from_args keeps_copy_construct
  keeps_move_construct keeps_value_construct keeps_copy_assign : keeps.

Lemma keeps_destroy_n n : ∀ p, keeps_objs (destroy_n p n).
Proof. induction n; simpl; keeps. Qed.

Lemma keeps_uninitialized_copy_n n : ∀ p q, keeps_objs (uninitialized_copy_n p n q).
Proof. induction n; simpl; keeps. Qed.

Lemma keeps_uninitialized_move_n n : ∀ p q, keeps_objs (uninitialized_move_n p n q).
Proof. induction n; simpl; keeps. Qed.

Lemma keeps_uninitialized_value_construct_n n :
  ∀ p, keeps_objs (uninitialized_value_construct_n p n).
Proof. induction n; simpl; keeps. Qed.

Lemma keeps_copy_n n : ∀ p q, keeps_objs (copy_n p n q).
Proof. induction n; simpl; keeps. Qed.

Lemma keeps_RawMemory_plus d k : keeps_objs (RawMemory_plus d k).
Proof. unfold RawMemory_plus. keeps. Qed.

Lemma keeps_RawMemory_delete d : keeps_objs (RawMemory_delete d).
Proof. unfold RawMemory_delete, Deallocate. keeps. Qed.

Lemma keeps_RawMemory_new n : keeps_objs (RawMemory_new n).
Proof. unfold RawMemory_new, Allocate. keeps. Qed.

#[local] Hint Resolve keeps_destroy_n keeps_uninitialized_copy_n
  keeps_uninitialized_move_n keeps_uninitialized_value_construct_n
  keeps_copy_n keeps_RawMemory_plus keeps_RawMemory_delete
  keeps_RawMemory_new : keeps.

Lemma keeps_get_obj a : keeps_objs (get_obj a).
Proof. intros s. unfold get_obj. by destruct (objs s !! a). Qed.

#[local] Hint Resolve keeps_get_obj : keeps.

Lemma keeps_Vector_copy other : keeps_objs (Vector_copy other).
Proof. unfold Vector_copy. keeps. Qed.

Lemma keeps_Vector_delete this : keeps_objs (Vector_delete this).
Proof. unfold Vector_delete. keeps. Qed.

(** What a computation that keeps the objects returns is returned in a
    state with the same objects. *)
Lemma keeps_Done {A} (m : M A) s a s' :
  keeps_objs m → m s = Done a s' → objs s' = objs s.
Proof. intros H Hm. specialize (H s). by rewrite Hm in H. Qed.

(** ** Capacity after [Resize] and after copy assignment *)

Lemma bind_Done_inv {A B} (m : M A) (f : A → M B) s b s' :
  (m ≫= f) s = Done b s' → ∃ a s1, m s = Done a s1 ∧ f a s1 = Done b s'.
Proof. rewrite bind_unfold. destruct (m s); try done. eauto. Qed.

Lemma on_unwind_Done_inv {A} (c : M unit) (m : M A) s a s' :
  on_unwind c m s = Done a s' → m s = Done a s'.
Proof.
  rewrite on_unwind_unfold. destruct (m s); try done.
  by destruct (c s0).
Qed.

Lemma capacity_of_insert s this v0 d n h lk tr :
  objs s !! this = Some v0 →
  capacity_of (mkState (<[this := mkVector d n]> (objs s)) h lk tr) this
  = Some (capacity_ d).
Proof.
  intros H. unfold capacity_of. simpl.
  by erewrite objs_lookup_insert.
Qed.

Lemma vector_at_capacity s this buf cap l :
  vector_at s this buf cap l → capacity_of s this = Some cap.
Proof. intros [H _]. unfold capacity_of. by rewrite H. Qed.

Lemma vector_at_size s this buf cap l :
  vector_at s this buf cap l → size_of s this = Some (length l).
Proof. intros [H _]. unfold size_of. by rewrite H. Qed.

Lemma Resize_capacity s this buf cap l n s' :
  0 < sizeof_T →
  vector_at s this buf cap l → size_t.fits (n * sizeof_T) →
  Resize this n s = Done tt s' →
  capacity_of s' this = Some (cap `max` n) ∧ size_of s' this = Some n.
Proof.
  intros Hsz Hv Hfits. pose proof Hv as [Hobj (Hle & _ & Hoff & Hblk)].
  unfold Resize. erewrite bind_Done by (by eapply get_size_eq).
  cbn [size_]. destruct (n <=? length l) eqn:Hn.
  - apply Nat.leb_le in Hn. intros H.
    apply bind_Done_inv in H as ([] & s1 & H1 & H2).
    erewrite bind_Done in H1 by (by eapply get_data_eq).
    rewrite bind_unfold, RawMemory_plus_eq in H1 by (simpl; lia).
    apply keeps_Done in H1; [|apply keeps_destroy_n].
    erewrite set_size_eq in H2 by (by rewrite H1).
    injection H2 as <-. unfold capacity_of, size_of. simpl. rewrite H1.
    erewrite objs_lookup_insert by done. simpl.
    split; [|done]. f_equal. lia.
  - apply Nat.leb_gt in Hn. intros H.
    apply bind_Done_inv in H as ([] & s1 & H1 & H2).
    apply bind_Done_inv in H1 as ([] & s2 & Hres & H1).
    assert (Hobj2 : ∃ d, objs s2 !! this = Some (mkVector d (length l))
                         ∧ capacity_ d = cap `max` n
                         ∧ length l ≤ capacity_ d).
    { destruct (decide (n ≤ cap)) as [Hnc|Hnc].
      - erewrite Reserve_noop in Hres by (exact Hobj || done).
        injection Hres as <-. eexists. split; [exact Hobj|]. simpl. lia.
      - pose proof (Reserve_growth s this buf cap l n Hsz Hv) as Hg.
        cbv zeta in Hg. specialize (Hg ltac:(lia) Hfits).
        destruct (throws _ _); [by rewrite Hg in Hres|].
        destruct Hg as [Hg | [(_ & _ & tr' & Hg) | (_ & _ & _ & Hg)]].
        + rewrite Hg in Hres. injection Hres as <-. simpl.
          eexists. split; [by eapply objs_lookup_insert|]. simpl. lia.
        + by rewrite Hg in Hres.
        + by rewrite Hres in Hg. }
    destruct Hobj2 as (d & Hobj2 & Hcap & Hle2).
    erewrite bind_Done in H1 by (by eapply get_data_eq).
    rewrite bind_unfold, RawMemory_plus_eq in H1 by done.
    apply keeps_Done in H1; [|apply keeps_uninitialized_value_construct_n].
    erewrite set_size_eq in H2 by (by rewrite H1).
    injection H2 as <-. unfold capacity_of, size_of. simpl. rewrite H1.
    erewrite objs_lookup_insert by done. simpl. by rewrite Hcap.
Qed.

Lemma RawMemory_new_capacity n s d s' :
  RawMemory_new n s = Done d s' → capacity_ d = n.
Proof.
  unfold RawMemory_new. intros H.
  apply bind_Done_inv in H as (p & s1 & _ & H). by injection H as <- _.
Qed.

Lemma Vector_copy_capacity other s o v s' :
  objs s !! other = Some o →
  Vector_copy other s = Done v s' →
  capacity_ (data_ v) = size_ o ∧ size_ v = size_ o.
Proof.
  intros Hobj. unfold Vector_copy.
  erewrite bind_Done by (by eapply get_obj_eq). intros H.
  apply bind_Done_inv in H as (d & s1 & Hnew & H).
  apply bind_Done_inv in H as ([] & s2 & _ & H).
  injection H as <- _. simpl. split; [|done].
  by eapply RawMemory_new_capacity.
Qed.

Lemma removelast_snoc_insert (o : list Vector) this x y z :
  this < length o →
  removelast (<[length o := x]> (<[this := y]> (o ++ [z]))) = <[this := y]> o.
Proof.
  intros H. rewrite insert_app_l by done.
  rewrite <- (length_insert o this y), insert_mid.
  apply removelast_last.
Qed.

Lemma assign_copy_capacity s this rhs v r s' :
  this ≠ rhs →
  objs s !! this = Some v → objs s !! rhs = Some r →
  assign_copy this rhs s = Done tt s' →
  capacity_of s' this = Some (capacity_ (data_ v) `max` size_ r)
  ∧ size_of s' this = Some (size_ r).
Proof.
  intros Hne Hobj Hrhs. unfold assign_copy.
  rewrite bool_decide_eq_true_2 by done.
  erewrite bind_Done by (by eapply get_obj_eq).
  erewrite bind_Done by (by eapply get_data_eq).
  assert (Hlt : this < length (objs s)) by (by eapply lookup_lt_Some).
  destruct (capacity_ (data_ v) <? size_ r) eqn:Hcap.
  - apply Nat.ltb_lt in Hcap. intros H.
    apply bind_Done_inv in H as ([] & s1 & H1 & H2).
    unfold with_local_Vector in H1.
    apply bind_Done_inv in H1 as (vc & s2 & Hcopy & H1).
    pose proof (keeps_Done _ _ _ _ (keeps_Vector_copy rhs) Hcopy) as Ho2.
    destruct (Vector_copy_capacity _ _ _ _ _ Hrhs Hcopy) as [Hvc Hvs].
    rewrite bind_unfold in H1. unfold push_local at 1 in H1.
    cbv beta iota in H1. rewrite Ho2 in H1.
    apply bind_Done_inv in H1 as ([] & s3 & Hswap & H1).
    apply on_unwind_Done_inv in Hswap.
    unfold Swap in Hswap.
    rewrite bool_decide_eq_true_2 in Hswap by lia.
    erewrite bind_Done in Hswap
      by (eapply get_obj_eq; simpl; by apply lookup_app_l_Some).
    erewrite bind_Done in Hswap by (eapply get_obj_eq; simpl; apply lookup_mid).
    unfold RawMemory_Swap in Hswap. cbv beta iota zeta in Hswap.
    erewrite bind_Done in Hswap
      by (eapply set_obj_eq; simpl; by apply lookup_app_l_Some).
    erewrite set_obj_eq in Hswap.
    2:{ simpl. rewrite list_lookup_insert_ne by lia. apply lookup_mid. }
    injection Hswap as <-. simpl in H1.
    apply bind_Done_inv in H1 as ([] & s4 & Hdel & H1).
    pose proof (keeps_Done _ _ _ _ (keeps_Vector_delete _) Hdel) as Ho4.
    rewrite bind_unfold in H1. unfold pop_local at 1 in H1.
    cbv beta iota in H1. injection H1 as <-.
    rewrite Ho4 in H2. simpl in H2. rewrite removelast_snoc_insert in H2 by done.
    erewrite bind_Done in H2.
    2:{ eapply get_obj_eq. simpl. by rewrite list_lookup_insert_ne. }
    erewrite set_size_eq in H2 by (simpl; by eapply objs_lookup_insert).
    injection H2 as <-. unfold capacity_of, size_of. simpl.
    rewrite list_insert_insert_eq. erewrite objs_lookup_insert by done.
    simpl. destruct vc as [[? ?] ?]. simpl in *. split; [|done]. f_equal. lia.
  - apply Nat.ltb_ge in Hcap. intros H.
    apply bind_Done_inv in H as ([] & s1 & H1 & H2).
    apply keeps_Done in H1.
    2:{ unfold get_size. keeps. }
    erewrite bind_Done in H2 by (eapply get_obj_eq; by rewrite H1).
    erewrite set_size_eq in H2 by (by rewrite H1).
    injection H2 as <-. unfold capacity_of, size_of. simpl. rewrite H1.
    erewrite objs_lookup_insert by done. simpl. split; [|done]. f_equal. lia.
Qed.

(** ** Reading an element *)

Lemma load_element s buf cap l i x :
  holds s buf cap l → l !! i = Some x → load (buf +ₚ i) s = Done x s.
Proof.
  intros (Hle & _ & Hoff & Hblk) Hi.
  assert (Hlt : i < length l) by (by eapply lookup_lt_Some).
  destruct buf as [[b|] o]; simpl in Hoff, Hblk; [subst o | lia].
  rewrite ptr_add_mk, Nat.add_0_l.
  eapply load_idx; [exact Hblk|].
  unfold slots_of. rewrite lookup_app_l by (by rewrite length_fmap).
  by rewrite list_lookup_fmap, Hi.
Qed.

Lemma at_index_eq s this buf cap l i x :
  vector_at s this buf cap l → l !! i = Some x → at_index this i s = Done x s.
Proof.
  intros [Hobj Hholds] Hi.
  assert (Hlt : i < length l) by (by eapply lookup_lt_Some).
  unfold at_index, Vector_index.
  run. erewrite get_data_eq by exact Hobj.
  run. rewrite RawMemory_index_eq by (destruct Hholds; simpl; lia).
  run. by eapply load_element.
Qed.

(** ** [Emplace], all paths *)

Lemma grown_gt size cap : size ≤ cap → size < grown size cap.
Proof.
  unfold grown. intros H. destruct (size =? cap) eqn:E.
  - apply Nat.eqb_eq in E. subst. destruct (cap =? 0) eqn:E0.
    + apply Nat.eqb_eq in E0. lia.
    + apply Nat.eqb_neq in E0. lia.
  - apply Nat.eqb_neq in E. lia.
Qed.

Lemma length_inserted (l : list T) k x :
  k ≤ length l → length (take k l ++ x :: drop k l) = S (length l).
Proof.
  intros H. rewrite length_app, length_take, length_cons, length_drop. lia.
Qed.

Lemma Emplace_spec s this buf cap l k x :
  0 < sizeof_T →
  vector_at s this buf cap l → k ≤ length l →
  size_t.fits (grown (length l) cap * sizeof_T) →
  (∃ s' buf',
      Emplace this (buf +ₚ k) x s = Done (buf' +ₚ k) s'
      ∧ vector_at s' this buf' (grown (length l) cap) (take k l ++ x :: drop k l)
      ∧ (length l < cap → buf' = buf)
      ∧ leaked s' = leaked s)
  ∨ (injected ∧ failed (Emplace this (buf +ₚ k) x s)).
Proof.
  intros Hsz Hv Hk Hfits. unfold grown in *.
  destruct (length l =? cap) eqn:Hfull.
  - apply Nat.eqb_eq in Hfull.
    pose proof (Emplace_realloc s this buf cap l k x Hsz Hv Hfull Hk Hfits) as H.
    assert (Hnc : length l < (if cap =? 0 then 1 else 2 * cap)).
    { destruct (cap =? 0) eqn:E.
      - apply Nat.eqb_eq in E. lia.
      - apply Nat.eqb_neq in E. lia. }
    unfold growth_outcome in H.
    set (newcap := if cap =? 0 then 1 else 2 * cap) in *. clearbody newcap.
    destruct (throws (trace s) _) eqn:Hnew.
    { right. rewrite H. split; [by eexists _, _ | done]. }
    destruct (throws (trace s ++ _) _) eqn:Hctor.
    { right. rewrite H. split; [by eexists _, _ | done]. }
    destruct H as [Hok | [(_ & Hinj & lk & tr' & _ & Hthr) | (_ & _ & Hinj & Hf)]].
    + left. eexists _, (mkPtr (Some (length (heap s))) 0).
      rewrite ptr_add_mk, Nat.add_0_l.
      split; [exact Hok|]. split; [|split; [lia | done]].
      destruct Hv as [Hobj Hholds].
      split; simpl.
      * rewrite length_inserted by done. by eapply objs_lookup_insert.
      * repeat split; simpl; [rewrite length_inserted by done; lia | done |].
        assert (Hold := holds_block_is _ _ _ _ Hholds).
        unfold release, update_old, block_is in *.
        destruct (base buf) as [b|].
        -- assert (b < length (heap s)) by (by eapply lookup_lt_Some).
           by heap_simpl.
        -- apply lookup_new_block.
    + right. rewrite Hthr. done.
    + right. done.
  - apply Nat.eqb_neq in Hfull.
    assert (Hlt : length l < cap) by (destruct Hv as [_ (? & _)]; lia).
    destruct (decide (k = length l)) as [->|Hkn].
    + rewrite (Emplace_at_end s this buf cap l x Hsz Hv Hlt).
      destruct (throws (trace s) (EvCtor x)) eqn:Hctor.
      { right. split; [by eexists _, _ |]. by destruct (length l =? 0). }
      left. eexists _, buf. split; [done|].
      split; [|done].
      rewrite firstn_all, drop_all.
      rewrite <- (length_snoc l x). eapply vector_at_update; [exact Hv|].
      rewrite length_snoc. lia.
    + pose proof (Emplace_shift s this buf cap l k x Hsz Hv ltac:(lia) Hlt) as H.
      cbv zeta in H.
      destruct (throws (trace s) (EvCtor x)) eqn:Hctor.
      { right. rewrite H. split; [by eexists _, _ | done]. }
      destruct H as [[tr' Hok] | Hfail]; [|by right].
      left. eexists _, buf. split; [exact Hok|].
      split; [|done].
      rewrite <- (length_inserted l k x) by done.
      eapply vector_at_update; [exact Hv|].
      rewrite length_inserted by done. lia.
Qed.

(** ** Sequences of [PushBack] and [PopBack] *)



Lemma grown_bound size cap :
  size ≤ cap → grown size cap ≤ cap `max` (2 * (size + 1)).
Proof.
  unfold grown. intros H. destruct (size =? cap) eqn:E; [|lia].
  apply Nat.eqb_eq in E. subst. destruct (cap =? 0); lia.
Qed.

Lemma grown_fits size cap n :
  0 < sizeof_T →
  size ≤ cap → size_t.fits (cap * sizeof_T) →
  size_t.fits (2 * (size + S n) * sizeof_T) →
  size_t.fits (grown size cap * sizeof_T).
Proof.
  intros Hsz Hle Hc Hn.
  pose proof (grown_bound size cap Hle) as Hb.
  destruct (Nat.max_spec cap (2 * (size + 1))) as [[_ Hm]|[_ Hm]];
    rewrite Hm in Hb.
  - eapply size_t_fits_le; [|exact Hn]. nia.
  - eapply size_t_fits_le; [|exact Hc]. nia.
Qed.

Lemma run_ops_spec this ops : ∀ s buf cap l0 l,
  0 < sizeof_T →
  vector_at s this buf cap l0 →
  after_ops l0 ops = Some l →
  size_t.fits (2 * (length l0 + pushes ops) * sizeof_T) →
  (∃ s' buf',
      run_ops this ops s = Done tt s'
      ∧ vector_at s' this buf' (capacity_after (length l0) cap ops) l
      ∧ leaked s' = leaked s)
  ∨ (injected ∧ failed (run_ops this ops s)).
Proof.
  induction ops as [|[x|] ops IH]; intros s buf cap l0 l Hsz Hv Hafter Hfits;
    cbn [run_ops after_ops pushes capacity_after] in *.
  - injection Hafter as <-. left. by eexists _, _.
  - assert (Hg : size_t.fits (grown (length l0) cap * sizeof_T)).
    { destruct Hv as [_ (Hle & Hc & _)]. by eapply grown_fits. }
    unfold PushBack. rewrite !bind_unfold.
    destruct (EmplaceBack_spec s this buf cap l0 x Hsz Hv Hg)
      as [(s1 & buf1 & Hok & Hv1 & _ & Hlk1) | [Hinj Hfail]].
    + rewrite Hok. cbv beta iota. unfold ret at 1.
      destruct (IH s1 buf1 _ (l0 ++ [x]) l Hsz Hv1 Hafter)
        as [(s' & buf' & Hrun & Hv' & Hlk') | [Hinj Hfail]].
      { rewrite length_snoc. eapply size_t_fits_le; [|exact Hfits]. nia. }
      * left. exists s', buf'. rewrite length_snoc in Hv'.
        split; [done|]. split; [done|]. congruence.
      * by right.
    + right. split; [done|]. by destruct (EmplaceBack this x s).
  - destruct l0 as [|a l0'] eqn:El0; [done|]. rewrite <- El0 in *.
    assert (Hne : l0 ≠ []) by (by rewrite El0).
    destruct (exists_last Hne) as (l1 & z & Hl0).
    assert (Hrl : removelast l0 = l1) by (by rewrite Hl0, removelast_last).
    rewrite El0 in Hafter. rewrite <- El0, Hrl in Hafter.
    rewrite Hl0 in Hv. rewrite bind_unfold, (PopBack_spec _ _ _ _ _ _ Hsz Hv).
    cbv beta iota.
    assert (Hv1 := vector_at_update _ _ _ _ _ l1 (leaked s) (trace s ++ [EvDtor z]) Hv).
    assert (Hlen : length l0 = S (length l1)) by (by rewrite Hl0, length_snoc).
    rewrite Hlen. cbn [pred].
    destruct (IH _ buf cap l1 l Hsz (Hv1 ltac:(destruct Hv as [_ (Hle & _)];
                rewrite length_snoc in Hle; lia)) Hafter)
      as [(s' & buf' & Hrun & Hv' & Hlk') | [Hinj Hfail]].
    { eapply size_t_fits_le; [|exact Hfits]. nia. }
    + left. by exists s', buf'.
    + by right.
Qed.

(** ** The growth policy over consecutive appends *)

Lemma doubled_step n c : doubled n c → doubled (S n) (grown n c).
Proof.
  unfold doubled, grown. intros [Hle [[-> ->] | [-> | (e & -> & He)]]].
  - simpl. split; [lia|]. by right; left.
  - destruct (n =? 1) eqn:E.
    + apply Nat.eqb_eq in E. subst. simpl. split; [lia|].
      right. right. exists 0. simpl. lia.
    + apply Nat.eqb_neq in E. split; [lia|]. by right; left.
  - destruct (n =? 2 ^ S e) eqn:E.
    + apply Nat.eqb_eq in E. subst n.
      assert (2 ^ S e ≠ 0) by (apply Nat.pow_nonzero; lia).
      rewrite (proj2 (Nat.eqb_neq _ _)) by done.
      split; [lia|]. right. right. exists (S e).
      split; [|lia]. rewrite (Nat.pow_succ_r' 2 (S e)). done.
    + apply Nat.eqb_neq in E. split; [lia|]. right. right. exists e.
      split; [done|lia].
Qed.

Lemma capacity_after_pushes xs : ∀ n c,
  doubled n c → doubled (n + length xs) (capacity_after n c (Push <$> xs)).
Proof.
  induction xs as [|x xs IH]; intros n c H; simpl.
  - by rewrite Nat.add_0_r.
  - replace (n + S (length xs)) with (S n + length xs) by lia.
    apply IH. by apply doubled_step.
Qed.

Lemma doubled_smallest n c : doubled n c → 1 ≤ n → smallest_doubling n c.
Proof.
  unfold doubled, smallest_doubling.
  intros [Hle [[-> ->] | [-> | (e & -> & He)]]] Hn.
  - lia.
  - exists 0. simpl. split; [done|]. split; [done|]. lia.
  - exists (S e). split; [done|]. split; [done|].
    intros e' He'. destruct (decide (e' ≤ e)) as [Hee|]; [|lia].
    pose proof (Nat.pow_le_mono_r 2 e' e ltac:(lia) Hee). lia.
Qed.

Lemma pushes_fmap_Push (xs : list T) : pushes (Push <$> xs) = length xs.
Proof. induction xs; simpl; [done|]. by f_equal. Qed.

Lemma after_ops_pushes (xs : list T) : ∀ l0,
  after_ops l0 (Push <$> xs) = Some (l0 ++ xs).
Proof.
  induction xs as [|x xs IH]; intros l0; simpl.
  - by rewrite app_nil_r.
  - by rewrite IH, <- app_assoc.
Qed.

(** ** Outcomes read off the operations *)

Lemma quiet_not_injected : quiet → ¬ injected.
Proof. intros Hq (h & e & H). by rewrite Hq in H. Qed.


Lemma growth_outcome_Done {A} (r : Result A) s bytes x leak a0 s0 :
  growth_outcome r s bytes x leak (Done a0 s0) →
  (quiet → r = Done a0 s0) ∧ (∀ a s', r = Done a s' → a = a0 ∧ s' = s0).
Proof.
  unfold growth_outcome. intros H. split.
  - intros Hq. rewrite !Hq in H.
    destruct H as [H | [(_ & Hinj & _) | (_ & _ & Hinj & _)]]; [done| |];
      by destruct (quiet_not_injected Hq).
  - intros a s' Hr. rewrite Hr in H.
    destruct (throws (trace s) (EvNew bytes)); [done|].
    destruct (throws (trace s ++ [EvNew bytes]) (EvCtor x)); [done|].
    destruct H as [H | [(_ & _ & lk & tr' & _ & H) | (_ & _ & _ & H)]];
      [by injection H | done | done].
Qed.

Lemma Reserve_growth_Done s this buf cap l n :
  0 < sizeof_T →
  vector_at s this buf cap l → cap < n → size_t.fits (n * sizeof_T) →
  let s0 :=
    mkState
      (<[this := mkVector (mkRawMemory (mkPtr (Some (length (heap s))) 0) n)
                          (length l)]> (objs s))
      (release buf (heap s ++ [Some (slots_of l n)]))
      (leaked s)
      (trace s ++ [EvNew (n * sizeof_T)] ++ relocation_events l
         ++ (EvDtor <$> relocated l) ++ release_events buf) in
  (quiet → Reserve this n s = Done tt s0)
  ∧ (∀ s', Reserve this n s = Done tt s' → s' = s0).
Proof.
  intros Hsz Hv Hlt Hfits s0.
  pose proof (Reserve_growth s this buf cap l n Hsz Hv Hlt Hfits) as H.
  cbv zeta in H. fold s0 in H. split.
  - intros Hq. rewrite Hq in H.
    destruct H as [H | [(_ & Hinj & _) | (_ & _ & Hinj & _)]]; [done| |];
      by destruct (quiet_not_injected Hq).
  - intros s' Hr. rewrite Hr in H.
    destruct (throws (trace s) (EvNew (n * sizeof_T))); [done|].
    destruct H as [H | [(_ & _ & tr' & H) | (_ & _ & _ & H)]];
      [by injection H | done | done].
Qed.

Lemma Erase_out_of_range s this buf cap l k :
  vector_at s this buf cap l → length l < k →
  Erase this (buf +ₚ k) s = AssertFailed.
Proof.
  intros [Hobj (Hle & _)] Hk. unfold Erase.
  run. erewrite in_range_eq by (exact Hobj || done).
  run. by rewrite assert_eq, leb_correct_conv.
Qed.

Lemma Vector_index_eq s this v i :
  objs s !! this = Some v →
  Vector_index this i s
  = if i <? capacity_ (data_ v) then Done (buffer_ (data_ v) +ₚ i) s
    else AssertFailed.
Proof.
  intros Hobj. unfold Vector_index.
  erewrite bind_Done by (by eapply get_data_eq).
  unfold RawMemory_index. run. rewrite assert_eq.
  by destruct (i <? capacity_ (data_ v)).
Qed.

(** The vector after a growth step: its elements [l'] are in the block
    allocated last, and its former block is released. *)
Lemma vector_at_relocated s this buf cap l l' newcap tr' :
  vector_at s this buf cap l →
  length l' ≤ newcap → size_t.fits (newcap * sizeof_T) →
  vector_at
    (mkState
       (<[this := mkVector (mkRawMemory (mkPtr (Some (length (heap s))) 0) newcap)
                           (length l')]> (objs s))
       (release buf (heap s ++ [Some (slots_of l' newcap)]))
       (leaked s) tr')
    this (mkPtr (Some (length (heap s))) 0) newcap l'.
Proof.
  intros [Hobj Hholds] Hle Hfits. split; simpl.
  - by eapply objs_lookup_insert.
  - repeat split; simpl; [done | done |].
    assert (Hold := holds_block_is _ _ _ _ Hholds).
    unfold release, update_old, block_is in *.
    destruct (base buf) as [b|].
    + assert (b < length (heap s)) by (by eapply lookup_lt_Some).
      by heap_simpl.
    + apply lookup_new_block.
Qed.

Lemma vector_at_new_block s this buf cap l blk lk tr :
  vector_at s this buf cap l →
  vector_at (mkState (objs s) (heap s ++ [blk]) lk tr) this buf cap l.
Proof.
  intros [Hobj (Hle & Hf & Hoff & Hblk)]. repeat split; try done.
  destruct (base buf) as [b|]; [|done]. simpl.
  rewrite lookup_app_l; [done|]. by eapply lookup_lt_Some.
Qed.

Lemma growth_outcome_Thrown {A} (r : Result A) s bytes x leak a0 s0 s'
    this buf cap l :
  growth_outcome r s bytes x leak (Done a0 s0) →
  relocate_by_move = false →
  vector_at s this buf cap l →
  r = Thrown s' →
  vector_at s' this buf cap l
  ∧ if throws (trace s) (EvNew bytes) then s' = s
    else heap s' = heap s ++ [None]
         ∧ if throws (trace s ++ [EvNew bytes]) (EvCtor x)
           then leaked s' = leaked s
           else ∃ lk, leak lk ∧ leaked s' = leaked s ++ lk.
Proof.
  unfold growth_outcome. intros H Hcopy Hv Hr.
  destruct (throws (trace s) (EvNew bytes)).
  { rewrite Hr in H. injection H as ->. done. }
  destruct (throws (trace s ++ [EvNew bytes]) (EvCtor x)).
  { rewrite Hr in H. injection H as ->.
    split; [by apply vector_at_new_block | done]. }
  destruct H as [H | [(_ & _ & lk & tr' & Hlk & H) | (Hmove & _)]].
  - by rewrite Hr in H.
  - rewrite Hr in H. injection H as ->.
    split; [by apply vector_at_new_block |]. split; [done|]. by exists lk.
  - by rewrite Hcopy in Hmove.
Qed.

Lemma Reserve_capacity s this buf cap l n s' :
  0 < sizeof_T →
  vector_at s this buf cap l → size_t.fits (n * sizeof_T) →
  Reserve this n s = Done tt s' →
  capacity_of s' this = Some (cap `max` n).
Proof.
  intros Hsz Hv Hfits Hr. pose proof Hv as [Hobj _].
  destruct (decide (n ≤ cap)) as [Hle | Hgt].
  - rewrite (Reserve_noop s this _ n Hobj) in Hr by done.
    injection Hr as <-. rewrite (vector_at_capacity _ _ _ _ _ Hv).
    f_equal. lia.
  - destruct (Reserve_growth_Done s this buf cap l n Hsz Hv) as [_ Hd];
      [lia | done |].
    rewrite (Hd s' Hr). erewrite capacity_of_insert by exact Hobj.
    simpl. f_equal. lia.
Qed.

Lemma PopBack_capacity s this buf cap l s' :
  0 < sizeof_T →
  vector_at s this buf cap l →
  PopBack this s = Done tt s' →
  capacity_of s' this = Some cap.
Proof.
  intros Hsz Hv Hr. pose proof Hv as [Hobj _].
  destruct l as [|a l0 _] using rev_ind.
  - by rewrite (PopBack_empty s this _ Hobj) in Hr.
  - rewrite (PopBack_spec s this buf cap l0 a Hsz Hv) in Hr.
    injection Hr as <-. by erewrite capacity_of_insert by exact Hobj.
Qed.

Lemma Erase_capacity s this buf cap l k p s' :
  0 < sizeof_T →
  vector_at s this buf cap l →
  Erase this (buf +ₚ k) s = Done p s' →
  capacity_of s' this = Some cap.
Proof.
  intros Hsz Hv Hr. pose proof Hv as [Hobj _].
  destruct (lt_eq_lt_dec k (length l)) as [[Hlt | ->] | Hgt].
  - destruct (lookup_lt_is_Some_2 l k Hlt) as [a Ha].
    destruct (Erase_spec s this buf cap l k a Hsz Hv Ha) as [H | [_ H]].
    + rewrite H in Hr. injection Hr as <- <-.
      by erewrite capacity_of_insert by exact Hobj.
    + by rewrite Hr in H.
  - by rewrite (Erase_at_end s this buf cap l Hsz Hv) in Hr.
  - by rewrite (Erase_out_of_range s this buf cap l k Hv Hgt) in Hr.
Qed.

Lemma Emplace_capacity s this buf cap l k x p s' :
  0 < sizeof_T →
  vector_at s this buf cap l →
  size_t.fits (grown (length l) cap * sizeof_T) →
  Emplace this (buf +ₚ k) x s = Done p s' →
  capacity_of s' this = Some (grown (length l) cap).
Proof.
  intros Hsz Hv Hfits Hr.
  destruct (decide (k ≤ length l)) as [Hk | Hk].
  - destruct (Emplace_spec s this buf cap l k x Hsz Hv Hk Hfits)
      as [(s1 & buf' & Hok & Hv' & _) | [_ H]].
    + rewrite Hok in Hr. injection Hr as <- <-.
      by eapply vector_at_capacity.
    + by rewrite Hr in H.
  - rewrite (Emplace_out_of_range s this buf cap l k x Hv) in Hr by lia. done.
Qed.

Lemma EmplaceBack_capacity s this buf cap l x p s' :
  0 < sizeof_T →
  vector_at s this buf cap l →
  size_t.fits (grown (length l) cap * sizeof_T) →
  EmplaceBack this x s = Done p s' →
  capacity_of s' this = Some (grown (length l) cap).
Proof.
  intros Hsz Hv Hfits Hr.
  destruct (EmplaceBack_spec s this buf cap l x Hsz Hv Hfits)
    as [(s1 & buf' & Hok & Hv' & _) | [_ H]].
  - rewrite Hok in Hr. injection Hr as <- <-. by eapply vector_at_capacity.
  - by rewrite Hr in H.
Qed.

Lemma grown_ge size cap : cap ≤ grown size cap.
Proof.
  unfold grown. destruct (size =? cap); [|done].
  destruct (cap =? 0) eqn:E; [|lia]. apply Nat.eqb_eq in E. lia.
Qed.

Lemma grown_full n : grown n n = 1 `max` (n * 2).
Proof.
  unfold grown. rewrite Nat.eqb_refl. destruct (n =? 0) eqn:E.
  - apply Nat.eqb_eq in E. by subst.
  - apply Nat.eqb_neq in E. lia.
Qed.

(** * The claims of the specification *)

(** C1: a failure during Reserve, during the growth of EmplaceBack or
    during the reallocating path of Emplace, for a type whose elements
    are relocated by copy. In all three the exception leaves the vector
    as it was: the same block, size, capacity and elements. Reserve
    releases the new block with nothing alive in it. EmplaceBack and
    Emplace release the new block too, but when it is a copy constructor
    that threw, the new element they had built in it is never destroyed
    (and, in Emplace, neither are the copies of the elements before the
    position, when the copy of a later one threw): the block is released
    with these objects alive. *)
Theorem C1_failure_during_growth this s buf cap l :
  0 < sizeof_T →
  vector_at s this buf cap l →
  relocate_by_move = false →
  let newcap := if cap =? 0 then 1 else 2 * cap in
  let bytes := newcap * sizeof_T in
  (∀ n s', cap < n → size_t.fits (n * sizeof_T) →
     Reserve this n s = Thrown s' →
     vector_at s' this buf cap l ∧ leaked s' = leaked s
     ∧ if throws (trace s) (EvNew (n * sizeof_T)) then s' = s
       else heap s' = heap s ++ [None])
  ∧ (∀ x s', length l = cap → size_t.fits bytes →
       EmplaceBack this x s = Thrown s' →
       vector_at s' this buf cap l
       ∧ if throws (trace s) (EvNew bytes) then s' = s
         else heap s' = heap s ++ [None]
              ∧ if throws (trace s ++ [EvNew bytes]) (EvCtor x)
                then leaked s' = leaked s
                else leaked s' = leaked s ++ [x])
  ∧ (∀ k x s', length l = cap → k ≤ length l → size_t.fits bytes →
       Emplace this (buf +ₚ k) x s = Thrown s' →
       vector_at s' this buf cap l
       ∧ if throws (trace s) (EvNew bytes) then s' = s
         else heap s' = heap s ++ [None]
              ∧ if throws (trace s ++ [EvNew bytes]) (EvCtor x)
                then leaked s' = leaked s
                else leaked s' = leaked s ++ [x]
                     ∨ leaked s' = leaked s ++ take k l ++ [x]).
Proof.
  intros Hsz Hv Hcopy newcap bytes. split; [|split].
  - intros n s' Hlt Hfits Hr.
    pose proof (Reserve_growth s this buf cap l n Hsz Hv Hlt Hfits) as H.
    cbv zeta in H. rewrite Hr in H.
    destruct (throws (trace s) (EvNew (n * sizeof_T))).
    { injection H as ->. done. }
    destruct H as [H | [(_ & _ & tr' & H) | (Hmove & _)]];
      [done | | by rewrite Hcopy in Hmove].
    injection H as ->. split; [by apply vector_at_new_block | done].
  - intros x s' Hfull Hfits Hr.
    destruct (growth_outcome_Thrown _ _ _ _ _ _ _ _ _ _ _ _
                (EmplaceBack_growth s this buf cap l x Hsz Hv Hfull Hfits)
                Hcopy Hv Hr) as [Hv' H].
    split; [done|]. fold newcap bytes in H.
    destruct (throws (trace s) (EvNew bytes)); [done|].
    destruct H as [Hheap H]. split; [done|].
    destruct (throws (trace s ++ [EvNew bytes]) (EvCtor x)); [done|].
    by destruct H as (lk & -> & H).
  - intros k x s' Hfull Hk Hfits Hr.
    destruct (growth_outcome_Thrown _ _ _ _ _ _ _ _ _ _ _ _
                (Emplace_realloc s this buf cap l k x Hsz Hv Hfull Hk Hfits)
                Hcopy Hv Hr) as [Hv' H].
    split; [done|]. fold newcap bytes in H.
    destruct (throws (trace s) (EvNew bytes)); [done|].
    destruct H as [Hheap H]. split; [done|].
    destruct (throws (trace s ++ [EvNew bytes]) (EvCtor x)); [done|].
    destruct H as (lk & [-> | ->] & H); [by left | by right].
Qed.

(** C2: Emplace at a position before end() of a vector with spare
    capacity, when the constructor of the staged temporary throws:
    InsertWithoutReallocating leaves by the exception with the state as
    it was, no element, size or capacity changed; the handler in Emplace
    then passes end(), a pointer into the middle of the block, to
    operator delete, which is undefined; so the call has no defined
    outcome, and the exception does not reach the caller with the
    vector as it was. *)
Theorem C2_staged_construction_throws this s buf cap l k x :
  0 < sizeof_T →
  vector_at s this buf cap l → k < length l → length l < cap →
  throws (trace s) (EvCtor x) = true →
  InsertWithoutReallocating this (buf +ₚ k) k x s = Thrown s
  ∧ (e ← end_ this; operator_delete e;; @throw unit) s = Undefined
  ∧ Emplace this (buf +ₚ k) x s = Undefined.
Proof.
  intros Hsz Hv Hk Hlt Hctor. split; [|split].
  - destruct Hv as [Hobj (Hle & _)].
    unfold InsertWithoutReallocating, cend.
    run. erewrite end_eq by (exact Hobj || done).
    run. rewrite ptr_eqb_add, (proj2 (Nat.eqb_neq _ _)) by lia. cbn [negb].
    run. by rewrite call_eq, Hctor.
  - destruct Hv as [Hobj (Hle & _ & Hoff & Hblk)].
    run. erewrite end_eq by (exact Hobj || done).
    destruct buf as [[b|] o]; simpl in Hoff, Hblk; [subst o | lia].
    run. rewrite ptr_add_mk, Nat.add_0_l.
    by rewrite operator_delete_interior by lia.
  - pose proof (Emplace_shift s this buf cap l k x Hsz Hv Hk Hlt) as H.
    cbv zeta in H. by rewrite Hctor in H.
Qed.

(** C3 (amended): operator[] with an index that is not below capacity()
    fails the debug check, and an index below capacity() passes it and
    gives the address of that slot, whether the slot holds an element or
    not: the check is RawMemory's and compares with the capacity. Emplace
    (and so Insert) and Erase with a position beyond end() fail the debug
    check. PopBack on an empty vector fails the debug check. *)
Theorem C3_contract_checks this s buf cap l :
  vector_at s this buf cap l →
  (∀ i, cap ≤ i → Vector_index this i s = AssertFailed)
  ∧ (∀ i, i < cap → Vector_index this i s = Done (buf +ₚ i) s)
  ∧ (∀ k x, length l < k → Emplace this (buf +ₚ k) x s = AssertFailed)
  ∧ (∀ k x, length l < k → Insert this (buf +ₚ k) x s = AssertFailed)
  ∧ (∀ k, length l < k → Erase this (buf +ₚ k) s = AssertFailed)
  ∧ (l = [] → PopBack this s = AssertFailed).
Proof.
  intros Hv. pose proof Hv as [Hobj _].
  split; [|split; [|split; [|split; [|split]]]].
  - intros i Hi. rewrite (Vector_index_eq _ _ _ _ Hobj). simpl.
    by rewrite (proj2 (Nat.ltb_ge _ _)).
  - intros i Hi. rewrite (Vector_index_eq _ _ _ _ Hobj). simpl.
    by rewrite (proj2 (Nat.ltb_lt _ _)).
  - intros k x Hk. by eapply Emplace_out_of_range.
  - intros k x Hk. unfold Insert. by eapply Emplace_out_of_range.
  - intros k Hk. by eapply Erase_out_of_range.
  - intros ->. by eapply PopBack_empty.
Qed.

(** C4 (amended): PopBack, Erase and a Resize that does not grow leave
    the capacity as it was, and Reserve of no more than the capacity
    changes nothing. Reserve and Resize give the larger of the old
    capacity and their argument; an append or an insertion into a full
    vector of n elements gives the capacity max(1, 2n), and into one with
    spare capacity leaves it; copy assignment gives the larger of the
    old capacity and the size of the source. So none of these lowers the
    capacity. N >= 1 consecutive PushBack calls on an empty vector of
    capacity 0, as the default constructor builds it, return when
    nothing throws, and the capacity is then the smallest of 1, 2, 4,
    8, ... that is at least N. *)
Theorem C4_capacity this s buf cap l :
  0 < sizeof_T →
  vector_at s this buf cap l →
  (∀ s', PopBack this s = Done tt s' → capacity_of s' this = Some cap)
  ∧ (∀ k p s', Erase this (buf +ₚ k) s = Done p s' →
       capacity_of s' this = Some cap)
  ∧ (∀ n s', n ≤ length l → Resize this n s = Done tt s' →
       capacity_of s' this = Some cap)
  ∧ (∀ n, n ≤ cap → Reserve this n s = Done tt s)
  ∧ (∀ n s', size_t.fits (n * sizeof_T) →
       (Reserve this n s = Done tt s' ∨ Resize this n s = Done tt s') →
       capacity_of s' this = Some (cap `max` n))
  ∧ (∀ x k p s', size_t.fits (grown (length l) cap * sizeof_T) →
       (EmplaceBack this x s = Done p s'
        ∨ Emplace this (buf +ₚ k) x s = Done p s') →
       capacity_of s' this = Some (grown (length l) cap)
       ∧ cap ≤ grown (length l) cap
       ∧ (length l = cap → grown (length l) cap = 1 `max` (length l * 2))
       ∧ (length l < cap → grown (length l) cap = cap))
  ∧ (∀ rhs r s', this ≠ rhs → objs s !! rhs = Some r →
       assign_copy this rhs s = Done tt s' →
       capacity_of s' this = Some (cap `max` size_ r))
  ∧ (∀ xs, cap = 0 → 1 ≤ length xs →
       size_t.fits (2 * length xs * sizeof_T) →
       (quiet → ∃ s', run_ops this (Push <$> xs) s = Done tt s')
       ∧ ∀ s', run_ops this (Push <$> xs) s = Done tt s' →
           ∃ c, capacity_of s' this = Some c
                ∧ smallest_doubling (length xs) c).
Proof.
  intros Hsz Hv. pose proof Hv as [Hobj (Hle & Hfcap & _)].
  split; [|split; [|split; [|split; [|split; [|split; [|split]]]]]].
  - intros s'. by eapply PopBack_capacity.
  - intros k p s'. by eapply Erase_capacity.
  - intros n s' Hn Hr.
    assert (Hf : size_t.fits (n * sizeof_T)).
    { eapply size_t_fits_le; [|exact Hfcap]. nia. }
    destruct (Resize_capacity s this buf cap l n s' Hsz Hv Hf Hr) as [-> _].
    f_equal. lia.
  - intros n Hn. by eapply Reserve_noop.
  - intros n s' Hf [Hr | Hr].
    + by eapply Reserve_capacity.
    + by destruct (Resize_capacity s this buf cap l n s' Hsz Hv Hf Hr).
  - intros x k p s' Hf Hr. split; [|split; [apply grown_ge|split]].
    + destruct Hr as [Hr | Hr];
        [by eapply EmplaceBack_capacity | by eapply Emplace_capacity].
    + intros <-. apply grown_full.
    + intros Hlt. unfold grown. by rewrite (proj2 (Nat.eqb_neq _ _)) by lia.
  - intros rhs r s' Hne Hrhs Hr.
    by destruct (assign_copy_capacity s this rhs _ r s' Hne Hobj Hrhs Hr).
  - intros xs -> Hn Hf.
    assert (l = []) as -> by (destruct l; [done | simpl in Hle; lia]).
    pose proof (capacity_after_pushes xs 0 0) as Hd.
    assert (Hd0 : doubled 0 0) by (split; [done | by left]).
    specialize (Hd Hd0). simpl in Hd.
    apply doubled_smallest in Hd; [|done].
    pose proof (run_ops_spec this (Push <$> xs) s buf 0 [] xs Hsz Hv
                  (after_ops_pushes xs [])) as H.
    rewrite pushes_fmap_Push in H. specialize (H Hf).
    destruct H as [(s1 & buf' & Hok & Hv' & _) | [Hinj H]].
    + split; [eauto|]. intros s' Hr. rewrite Hok in Hr. injection Hr as <-.
      eexists. split; [by eapply vector_at_capacity | done].
    + split; [intros Hq; by destruct (quiet_not_injected Hq)|].
      intros s' Hr. by rewrite Hr in H.
Qed.

(** C5: Emplace (and Insert) at offset k of a vector of n elements,
    0 <= k <= n, returns when nothing throws; where it returns, the
    vector has n + 1 elements: the former elements before k, the new
    value at k, the former elements from k on, in their order; the
    returned iterator is begin() + k and points at the new value. This
    holds on the reallocation path and on the in-place path. *)
Theorem C5_insert_at_offset this s buf cap l k x :
  0 < sizeof_T →
  vector_at s this buf cap l →
  k ≤ length l →
  size_t.fits (grown (length l) cap * sizeof_T) →
  (quiet → ∃ p s', Emplace this (buf +ₚ k) x s = Done p s')
  ∧ (∀ p s', Emplace this (buf +ₚ k) x s = Done p s' →
       ∃ buf',
         vector_at s' this buf' (grown (length l) cap)
                   (take k l ++ x :: drop k l)
         ∧ size_of s' this = Some (length l + 1)
         ∧ p = buf' +ₚ k
         ∧ begin this s' = Done (buf' +ₚ 0) s'
         ∧ load p s' = Done x s'
         ∧ (length l < cap → buf' = buf))
  ∧ Insert this (buf +ₚ k) x s = Emplace this (buf +ₚ k) x s.
Proof.
  intros Hsz Hv Hk Hfits. split; [|split; [|done]].
  - intros Hq.
    destruct (Emplace_spec s this buf cap l k x Hsz Hv Hk Hfits)
      as [(s' & buf' & Hok & _) | [Hinj _]]; [eauto|].
    by destruct (quiet_not_injected Hq).
  - intros p s' Hs'.
    destruct (Emplace_spec s this buf cap l k x Hsz Hv Hk Hfits)
      as [(s1 & buf' & Hok & Hv' & Hsame & _) | [_ Hfail]];
      [|by rewrite Hs' in Hfail].
    rewrite Hok in Hs'. injection Hs' as <- <-.
    exists buf'. split; [done|]. split; [|split; [done|split; [|split; [|done]]]].
    + erewrite vector_at_size by exact Hv'.
      by rewrite length_inserted, Nat.add_1_r.
    + destruct Hv' as [Hobj' _]. by erewrite begin_eq by exact Hobj'.
    + destruct Hv' as [_ Hh]. eapply load_element; [exact Hh|].
      rewrite lookup_app_r by (rewrite length_take; lia).
      rewrite length_take. by replace (k - k `min` length l) with 0 by lia.
Qed.

(** C6: Erase at offset k of a vector of n > 0 elements, 0 <= k < n,
    returns when nothing throws; where it returns, the vector has n - 1
    elements, the former ones without the one at k, in their order; the
    elements after k were move-assigned one slot to the left, front to
    back, and then the last slot was destroyed; the block and the
    capacity are the same, and nothing was allocated or released. *)
Theorem C6_erase_at_offset this s buf cap l k a :
  0 < sizeof_T →
  vector_at s this buf cap l →
  l !! k = Some a →
  (quiet → ∃ p s', Erase this (buf +ₚ k) s = Done p s')
  ∧ (∀ p s', Erase this (buf +ₚ k) s = Done p s' →
       vector_at s' this buf cap (take k l ++ drop (S k) l)
       ∧ size_of s' this = Some (length l - 1)
       ∧ capacity_of s' this = capacity_of s this
       ∧ p = buf +ₚ k
       ∧ trace s' = trace s ++ shift_events a (drop (S k) l)
                      ++ [EvDtor (junk_after a (drop (S k) l))]
       ∧ length (heap s') = length (heap s)
       ∧ leaked s' = leaked s).
Proof.
  intros Hsz Hv Ha.
  assert (Hk : k < length l) by (by eapply lookup_lt_Some).
  assert (Hlen : length (take k l ++ drop (S k) l) = length l - 1).
  { rewrite length_app, length_take, length_drop. lia. }
  destruct (Erase_spec s this buf cap l k a Hsz Hv Ha) as [Hok | [Hinj Hfail]].
  - split; [eauto|]. intros p s' Hs'. rewrite Hok in Hs'.
    injection Hs' as <- <-.
    assert (Hv' : vector_at
      (mkState (<[this := mkVector (mkRawMemory buf cap) (length l - 1)]> (objs s))
         (update_old buf (Some (slots_of (take k l ++ drop (S k) l) cap)) (heap s))
         (leaked s)
         (trace s ++ shift_events a (drop (S k) l)
            ++ [EvDtor (junk_after a (drop (S k) l))]))
      this buf cap (take k l ++ drop (S k) l)).
    { rewrite <- Hlen. eapply vector_at_update; [exact Hv|].
      destruct Hv as [_ (Hle & _)]. lia. }
    split; [done|]. split; [|split; [|split; [done|split; [done|split; [|done]]]]].
    + erewrite vector_at_size by exact Hv'. by rewrite Hlen.
    + by rewrite (vector_at_capacity _ _ _ _ _ Hv'), (vector_at_capacity _ _ _ _ _ Hv).
    + simpl. apply length_update_old.
  - split; [intros Hq; by destruct (quiet_not_injected Hq)|].
    intros p s' Hs'. by rewrite Hs' in Hfail.
Qed.


(** C8: the three relocation sites, Reserve, the growth path of
    EmplaceBack and the reallocating path of Emplace, test one and the
    same condition, which holds exactly when the move constructor of T
    cannot throw or T has no copy constructor. Each of the three returns
    when nothing throws, and where it returns it has relocated the
    elements, front to back, by move construction when the condition
    holds and by copy construction when it does not (in EmplaceBack and
    Emplace after the constructor of the new element): the elements are
    then in a new block of the new capacity, in their order, with the
    new element at its place in EmplaceBack and Emplace and the other
    slots empty; the vector holds that block; the objects left in the
    old block were destroyed and the old block was released; every
    other block is as it was. *)
Theorem C8_relocation_dispatch this s buf cap l :
  0 < sizeof_T →
  vector_at s this buf cap l →
  let by_move := is_nothrow_move_constructible || negb is_copy_constructible in
  let ctors := if by_move then EvMoveCtor <$> l else EvCopyCtor <$> l in
  let dtors := EvDtor <$> (if by_move then moved_from <$> l else l) in
  let newcap := if cap =? 0 then 1 else 2 * cap in
  let newbuf := mkPtr (Some (length (heap s))) 0 in
  (relocate_by_move = true
   ↔ is_nothrow_move_constructible = true ∨ is_copy_constructible = false)
  ∧ (∀ n, cap < n → size_t.fits (n * sizeof_T) →
       (quiet → ∃ s', Reserve this n s = Done tt s')
       ∧ ∀ s', Reserve this n s = Done tt s' →
           trace s' = trace s ++ [EvNew (n * sizeof_T)]
                        ++ ctors ++ dtors ++ release_events buf
           ∧ heap s' = release buf (heap s ++ [Some (slots_of l n)])
           ∧ vector_at s' this newbuf n l
           ∧ leaked s' = leaked s
           ∧ ∀ i y, l !! i = Some y → at_index this i s' = Done y s')
  ∧ (∀ x, length l = cap → size_t.fits (newcap * sizeof_T) →
       (quiet → ∃ p s', EmplaceBack this x s = Done p s')
       ∧ ∀ p s', EmplaceBack this x s = Done p s' →
           trace s' = trace s ++ [EvNew (newcap * sizeof_T); EvCtor x]
                        ++ ctors ++ dtors ++ release_events buf
           ∧ heap s'
             = release buf (heap s ++ [Some (slots_of (l ++ [x]) newcap)])
           ∧ vector_at s' this newbuf newcap (l ++ [x])
           ∧ leaked s' = leaked s
           ∧ p = newbuf +ₚ length l
           ∧ ∀ i y, (l ++ [x]) !! i = Some y → at_index this i s' = Done y s')
  ∧ (∀ k x, length l = cap → k ≤ length l →
       size_t.fits (newcap * sizeof_T) →
       (quiet → ∃ p s', Emplace this (buf +ₚ k) x s = Done p s')
       ∧ ∀ p s', Emplace this (buf +ₚ k) x s = Done p s' →
           trace s' = trace s ++ [EvNew (newcap * sizeof_T); EvCtor x]
                        ++ ctors ++ dtors ++ release_events buf
           ∧ heap s'
             = release buf
                 (heap s ++ [Some (slots_of (take k l ++ x :: drop k l) newcap)])
           ∧ vector_at s' this newbuf newcap (take k l ++ x :: drop k l)
           ∧ leaked s' = leaked s
           ∧ p = newbuf +ₚ k
           ∧ ∀ i y, (take k l ++ x :: drop k l) !! i = Some y →
               at_index this i s' = Done y s').
Proof.
  intros Hsz Hv by_move ctors dtors newcap newbuf.
  assert (Hcap : length l ≤ cap) by (by destruct Hv as [_ [? _]]).
  assert (Hnc : cap < newcap).
  { subst newcap. destruct (cap =? 0) eqn:E.
    - apply Nat.eqb_eq in E. lia.
    - apply Nat.eqb_neq in E. lia. }
  split; [|split; [|split]].
  - unfold relocate_by_move. rewrite orb_true_iff, negb_true_iff. tauto.
  - intros n Hlt Hfits.
    destruct (Reserve_growth_Done s this buf cap l n Hsz Hv Hlt Hfits)
      as [Hq Hd].
    split; [eauto|]. intros s' Hs'. rewrite (Hd s' Hs').
    assert (Hv' := vector_at_relocated s this buf cap l l n
                     (trace s ++ [EvNew (n * sizeof_T)] ++ relocation_events l
                        ++ (EvDtor <$> relocated l) ++ release_events buf)
                     Hv ltac:(lia) Hfits).
    split; [done|]. split; [done|]. split; [exact Hv'|]. split; [done|].
    intros i y Hi. by eapply at_index_eq.
  - intros x Hfull Hfits.
    destruct (growth_outcome_Done _ _ _ _ _ _ _
                (EmplaceBack_growth s this buf cap l x Hsz Hv Hfull Hfits))
      as [Hq Hd].
    split; [eauto|]. intros p s' Hs'. destruct (Hd p s' Hs') as [-> ->].
    assert (Hv' := vector_at_relocated s this buf cap l (l ++ [x]) newcap
                     (trace s ++ [EvNew (newcap * sizeof_T); EvCtor x]
                        ++ relocation_events l ++ (EvDtor <$> relocated l)
                        ++ release_events buf)
                     Hv ltac:(rewrite length_snoc; lia) Hfits).
    rewrite length_snoc in Hv'.
    split; [done|]. split; [done|]. split; [exact Hv'|]. split; [done|].
    split; [subst newbuf; by rewrite ptr_add_mk|].
    intros i y Hi. by eapply at_index_eq.
  - intros k x Hfull Hk Hfits.
    destruct (growth_outcome_Done _ _ _ _ _ _ _
                (Emplace_realloc s this buf cap l k x Hsz Hv Hfull Hk Hfits))
      as [Hq Hd].
    split; [eauto|]. intros p s' Hs'. destruct (Hd p s' Hs') as [-> ->].
    assert (Hv' := vector_at_relocated s this buf cap l
                     (take k l ++ x :: drop k l) newcap
                     (trace s ++ [EvNew (newcap * sizeof_T); EvCtor x]
                        ++ relocation_events l ++ (EvDtor <$> relocated l)
                        ++ release_events buf)
                     Hv ltac:(rewrite length_inserted by done; lia) Hfits).
    rewrite length_inserted in Hv' by done.
    split; [done|]. split; [done|]. split; [exact Hv'|]. split; [done|].
    split; [subst newbuf; by rewrite ptr_add_mk|].
    intros i y Hi. by eapply at_index_eq.
Qed.

(** C9: assigning a vector to itself, by copy or by move, and swapping a
    vector with itself are detected and do nothing: the whole state, so
    the size, the capacity, every element and every block, is as
    before. *)
Theorem C9_self_assignment (a : nat) (s : State) :
  assign_copy a a s = Done tt s
  ∧ assign_move a a s = Done tt s
  ∧ Swap a a s = Done tt s.
Proof.
  unfold assign_copy, assign_move, Swap.
  by rewrite bool_decide_eq_false_2 by (intros H; by apply H).
Qed.

(** C10: the copy constructor returns when nothing throws; the vector it
    builds has the size of the source, the same element values in the
    same order, and a capacity equal to that size, whatever the capacity
    of the source; the source is unchanged. *)
Theorem C10_copy_constructor other s buf cap l :
  0 < sizeof_T →
  vector_at s other buf cap l →
  (quiet → ∃ v s', Vector_copy other s = Done v s')
  ∧ (∀ v s', Vector_copy other s = Done v s' →
       size_ v = length l
       ∧ capacity_ (data_ v) = length l
       ∧ holds s' (buffer_ (data_ v)) (capacity_ (data_ v)) l
       ∧ (∀ i x, l !! i = Some x → load (buffer_ (data_ v) +ₚ i) s' = Done x s')
       ∧ vector_at s' other buf cap l).
Proof.
  intros Hsz Hv.
  destruct (Vector_copy_spec s other buf cap l Hsz Hv)
    as [(v & s' & Hok & Hsize & Hcap & Hholds & Hv' & _) | [Hinj Hfail]].
  - split; [eauto|]. intros v2 s2 H2. rewrite Hok in H2.
    injection H2 as <- <-. rewrite Hcap.
    repeat split; try done; try apply Hholds; try apply Hv'.
    intros i x Hi. by eapply load_element.
  - split; [intros Hq; by destruct (quiet_not_injected Hq)|].
    intros v s' Hs'. by rewrite Hs' in Hfail.
Qed.

(** * Further outcomes of the operations *)

(** ** [Reserve], with the elements *)

Lemma vector_at_after_reserve s this buf cap l n tr' :
  vector_at s this buf cap l →
  length l ≤ n → size_t.fits (n * sizeof_T) →
  vector_at
    (mkState
       (<[this := mkVector (mkRawMemory (mkPtr (Some (length (heap s))) 0) n)
                           (length l)]> (objs s))
       (release buf (heap s ++ [Some (slots_of l n)]))
       (leaked s) tr')
    this (mkPtr (Some (length (heap s))) 0) n l.
Proof.
  intros [Hobj Hholds] Hle Hfits. split; simpl.
  - by eapply objs_lookup_insert.
  - repeat split; simpl; [done | done |].
    assert (Hold := holds_block_is _ _ _ _ Hholds).
    unfold release, update_old, block_is in *.
    destruct (base buf) as [b|].
    + assert (b < length (heap s)) by (by eapply lookup_lt_Some).
      by heap_simpl.
    + apply lookup_new_block.
Qed.

Lemma Reserve_spec s this buf cap l n :
  0 < sizeof_T →
  vector_at s this buf cap l → size_t.fits (n * sizeof_T) →
  (∃ s' buf',
      Reserve this n s = Done tt s'
      ∧ vector_at s' this buf' (cap `max` n) l
      ∧ (n ≤ cap → s' = s)
      ∧ leaked s' = leaked s)
  ∨ (injected ∧ failed (Reserve this n s)).
Proof.
  intros Hsz Hv Hfits. pose proof Hv as [Hobj (Hle & _)].
  destruct (decide (n ≤ cap)) as [Hn | Hn].
  - left. exists s, buf. rewrite (Reserve_noop s this _ n Hobj) by done.
    replace (cap `max` n) with cap by lia. done.
  - pose proof (Reserve_growth s this buf cap l n Hsz Hv ltac:(lia) Hfits) as H.
    cbv zeta in H.
    destruct (throws (trace s) (EvNew (n * sizeof_T))) eqn:Hnew.
    { right. split; [by eexists _, _|]. by rewrite H. }
    destruct H as [H | [(_ & Hinj & tr' & H) | (_ & _ & Hinj & H)]].
    + left. eexists _, _. split; [exact H|].
      replace (cap `max` n) with n by lia.
      split; [eapply vector_at_after_reserve; [exact Hv | lia | done]|].
      split; [lia | done].
    + right. split; [done|]. by rewrite H.
    + right. done.
Qed.

(** ** Value construction *)

Lemma value_construct_eq s b pre post :
  heap s !! b = Some (Some (pre ++ None :: post)) →
  value_construct (mkPtr (Some b) (length pre)) s
  = if throws (trace s) EvValueCtor then Thrown s
    else Done tt (mkState (objs s)
           (<[b := Some (pre ++ Some value_init :: post)]> (heap s))
           (leaked s) (trace s ++ [EvValueCtor])).
Proof.
  intros H. unfold value_construct.
  unfold mbind, M_bind, bind, call.
  destruct (throws (trace s) EvValueCtor); [done|].
  by erewrite construct_at_eq.
Qed.

Lemma uninitialized_value_construct_n_spec n : ∀ s b pre post,
  heap s !! b = Some (Some (pre ++ replicate n None ++ post)) →
  done_or_rolled_back
    (uninitialized_value_construct_n (mkPtr (Some b) (length pre)) n s)
    s tt
    (mkState (objs s)
        (<[b := Some (pre ++ replicate n (Some value_init) ++ post)]> (heap s))
        (leaked s) (trace s ++ replicate n EvValueCtor)).
Proof.
  induction n as [|n IH]; intros s b pre post Hb; simpl.
  - left. unfold mret, M_ret, ret. rewrite app_nil_r.
    rewrite list_insert_id by done. by rewrite state_eta.
  - simpl in Hb.
    unfold mbind at 1. unfold M_bind, bind.
    erewrite value_construct_eq by done.
    destruct (throws (trace s) EvValueCtor) eqn:Hthrow.
    { right. split; [by eexists _, _|]. exists (trace s). by rewrite state_eta. }
    rewrite !ptr_add_1, <- (length_snoc pre (Some value_init)).
    set (s1 := mkState _ _ _ _).
    assert (Hb1 : heap s1 !! b
      = Some (Some ((pre ++ [Some value_init]) ++ replicate n None ++ post))).
    { subst s1. simpl. erewrite heap_lookup_insert by done.
      by rewrite <- app_assoc. }
    destruct (IH s1 b _ _ Hb1) as [Hok | [Hinj [tr' Hthrown]]].
    + left. erewrite on_unwind_Done by exact Hok.
      subst s1. simpl. by rewrite heap_insert_same, <- !app_assoc.
    + right. split; [done|].
      exists (tr' ++ [EvDtor value_init]).
      erewrite on_unwind_Thrown; [done | exact Hthrown |].
      rewrite (destroy_at_eq _ b pre value_init (replicate n None ++ post)).
      2:{ subst s1. simpl. by erewrite heap_lookup_insert. }
      subst s1. simpl. rewrite heap_insert_same.
      by rewrite list_insert_id.
Qed.

(** ** The constructors that allocate *)

(** Releasing the block that was allocated last, with no object alive
    in it. *)
Lemma release_new_block s n tr' :
  RawMemory_delete (mkRawMemory (mkPtr (Some (length (heap s))) 0) n)
    (mkState (objs s) (heap s ++ [Some (replicate n None)]) (leaked s) tr')
  = Done tt (mkState (objs s) (heap s ++ [None]) (leaked s)
                     (tr' ++ [EvDelete (length (heap s))])).
Proof.
  unfold RawMemory_delete, Deallocate. simpl.
  erewrite operator_delete_eq by (simpl; apply lookup_new_block).
  simpl. by rewrite insert_new_block, omap_replicate_None, app_nil_r.
Qed.


Lemma Vector_copy_outcome s other buf cap l :
  0 < sizeof_T →
  vector_at s other buf cap l →
  let n := length l in
  let r := Vector_copy other s in
  if n =? 0 then r = Done (mkVector (mkRawMemory nullptr 0) 0) s
  else if throws (trace s) (EvNew (n * sizeof_T)) then r = Thrown s
  else
    r = Done (mkVector (mkRawMemory (mkPtr (Some (length (heap s))) 0) n) n)
          (mkState (objs s)
             (heap s ++ [Some (Some <$> l)])
             (leaked s)
             (trace s ++ [EvNew (n * sizeof_T)] ++ (EvCopyCtor <$> l)))
    ∨ (injected ∧
       ∃ tr', r = Thrown (mkState (objs s) (heap s ++ [None]) (leaked s) tr')).
Proof.
  intros Hsz [Hobj Hholds] n r. subst r n.
  pose proof Hholds as (Hle & Hfits & Hoff & Hblk).
  assert (Hfl : size_t.fits (length l * sizeof_T)).
  { eapply size_t_fits_le; [|exact Hfits]. nia. }
  unfold Vector_copy.
  erewrite bind_Done by (by eapply get_obj_eq).
  cbn [size_ data_].
  destruct (length l =? 0) eqn:Hn.
  { apply Nat.eqb_eq in Hn. destruct l; [|done]. done. }
  apply Nat.eqb_neq in Hn.
  destruct buf as [[b|] o]; simpl in Hoff, Hblk; [subst o | lia].
  run. rewrite RawMemory_new_eq by done.
  destruct (throws (trace s) (EvNew (length l * sizeof_T))) eqn:Hnew; [done|].
  run.
  set (s1 := mkState _ (heap s ++ _) _ _).
  assert (Hlt : b < length (heap s)) by (by eapply lookup_lt_Some).
  destruct (uninitialized_copy_n_spec l s1 b (length (heap s)) []
              (replicate (cap - length l) None) [] [])
    as [Hok | (Hinj & tr' & Hthr)].
  { lia. }
  { subst s1. simpl. by apply lookup_old_block. }
  { subst s1. simpl. by rewrite lookup_new_block, app_nil_r. }
  - left. simpl in Hok. rewrite Hok. run.
    subst s1. simpl. by rewrite insert_new_block, app_nil_r, <- app_assoc.
  - right. split; [done|]. simpl in Hthr. rewrite Hthr.
    subst s1. simpl. rewrite release_new_block. by eexists.
Qed.

(** ** [Reserve] and [Resize], all outcomes *)

Lemma vector_at_trace s this buf cap l lk tr :
  vector_at s this buf cap l →
  vector_at (mkState (objs s) (heap s) lk tr) this buf cap l.
Proof. by intros [Hobj Hh]. Qed.

Lemma Reserve_outcome s this buf cap l n :
  0 < sizeof_T →
  vector_at s this buf cap l → size_t.fits (n * sizeof_T) →
  (∃ s' buf',
      Reserve this n s = Done tt s'
      ∧ vector_at s' this buf' (cap `max` n) l
      ∧ (n ≤ cap → s' = s)
      ∧ leaked s' = leaked s)
  ∨ (injected ∧ ∃ s',
       Reserve this n s = Thrown s'
       ∧ vector_at s' this buf cap l ∧ leaked s' = leaked s)
  ∨ (relocate_by_move = true ∧ is_nothrow_move_constructible = false ∧
     injected ∧ failed (Reserve this n s)).
Proof.
  intros Hsz Hv Hfits. pose proof Hv as [Hobj (Hle & _)].
  destruct (decide (n ≤ cap)) as [Hn | Hn].
  - left. exists s, buf. rewrite (Reserve_noop s this _ n Hobj) by done.
    replace (cap `max` n) with cap by lia. done.
  - pose proof (Reserve_growth s this buf cap l n Hsz Hv ltac:(lia) Hfits) as H.
    cbv zeta in H.
    destruct (throws (trace s) (EvNew (n * sizeof_T))) eqn:Hnew.
    { right. left. split; [by eexists _, _|]. by exists s. }
    destruct H as [H | [(_ & Hinj & tr' & H) | H]].
    + left. eexists _, _. split; [exact H|].
      replace (cap `max` n) with n by lia.
      split; [eapply vector_at_after_reserve; [exact Hv | lia | done]|].
      split; [lia | done].
    + right. left. split; [done|]. eexists. split; [exact H|].
      split; [by apply vector_at_new_block | done].
    + right. right. done.
Qed.

Lemma Resize_shrink s this buf cap l n :
  0 < sizeof_T →
  vector_at s this buf cap l → n ≤ length l →
  Resize this n s
  = Done tt (mkState
       (<[this := mkVector (mkRawMemory buf cap) n]> (objs s))
       (update_old buf (Some (slots_of (take n l) cap)) (heap s))
       (leaked s) (trace s ++ (EvDtor <$> drop n l))).
Proof.
  intros Hsz [Hobj Hholds] Hn.
  assert (Hfcap : size_t.fits cap) by (by eapply holds_fits_cap).
  pose proof Hholds as (Hle & _ & Hoff & _).
  unfold Resize. erewrite bind_Done by (by eapply get_size_eq).
  cbn [size_]. rewrite (leb_correct _ _ Hn).
  run. erewrite get_data_eq by exact Hobj.
  run. rewrite RawMemory_plus_eq by (simpl; lia).
  run. rewrite size_t_sub_fits
    by (done || (eapply size_t_fits_le; [|exact Hfcap]; lia)).
  assert (Hlen : length (take n l) = n) by (rewrite length_take; lia).
  erewrite (destroy_old _ buf _ n _ (Some <$> take n l) (drop n l)
              (replicate (cap - length l) None));
    [ | done | done | by rewrite length_fmap | by rewrite length_drop | ].
  2:{ rewrite app_assoc, <- fmap_app, take_drop. by apply holds_block_is. }
  run. erewrite set_size_eq by exact Hobj.
  cbn [data_ heap]. do 3 f_equal. unfold slots_of.
  rewrite Hlen, length_drop, <- replicate_add. do 3 f_equal. lia.
Qed.

Lemma Resize_outcome s this buf cap l n :
  0 < sizeof_T →
  vector_at s this buf cap l → size_t.fits (n * sizeof_T) →
  (∃ s' buf',
      Resize this n s = Done tt s'
      ∧ vector_at s' this buf' (cap `max` n)
          (take n l ++ replicate (n - length l) value_init)
      ∧ (n ≤ cap → buf' = buf)
      ∧ leaked s' = leaked s)
  ∨ (injected ∧ ∃ s' buf' cap',
       Resize this n s = Thrown s'
       ∧ vector_at s' this buf' cap' l ∧ leaked s' = leaked s
       ∧ (cap' = cap ∨ cap' = cap `max` n))
  ∨ (relocate_by_move = true ∧ is_nothrow_move_constructible = false ∧
     injected ∧ failed (Resize this n s)).
Proof.
  intros Hsz Hv Hfits. pose proof Hv as [Hobj (Hle & _)].
  assert (Hfn : size_t.fits n) by (by eapply size_t_fits_factor).
  destruct (decide (n ≤ length l)) as [Hn | Hn].
  { left. rewrite (Resize_shrink s this buf cap l n) by done.
    eexists _, buf. split; [done|].
    replace (n - length l) with 0 by lia. rewrite app_nil_r.
    replace (cap `max` n) with cap by lia.
    assert (Hlen : length (take n l) = n) by (rewrite length_take; lia).
    split; [|done]. rewrite <- Hlen at 1.
    eapply vector_at_update; [exact Hv | lia]. }
  unfold Resize. erewrite bind_Done by (by eapply get_size_eq).
  cbn [size_]. rewrite (proj2 (Nat.leb_gt n (length l))) by lia.
  rewrite take_ge by lia.
  destruct (Reserve_outcome s this buf cap l n Hsz Hv Hfits)
    as [(s1 & buf1 & Hres & Hv1 & Hsame & Hlk1)
       | [(Hinj & s1 & Hres & Hv1 & Hlk1) | (Hm & Hnt & Hinj & Hfail)]].
  - set (cap1 := cap `max` n) in *.
    destruct Hv1 as [Hobj1 (Hle1 & Hf1 & Hoff1 & Hblk1)].
    destruct buf1 as [[b1|] o1]; simpl in Hoff1, Hblk1; [subst o1 | lia].
    run. rewrite Hres.
    run. erewrite get_data_eq by exact Hobj1.
    run. rewrite RawMemory_plus_eq by (simpl; lia).
    run. rewrite size_t_sub_fits by (done || lia).
    rewrite ptr_add_mk, Nat.add_0_l.
    assert (Hb1 : heap s1 !! b1
      = Some (Some ((Some <$> l) ++ replicate (n - length l) None
                      ++ replicate (cap1 - n) None))).
    { rewrite Hblk1. unfold slots_of. rewrite <- replicate_add.
      do 4 f_equal. lia. }
    pose proof (uninitialized_value_construct_n_spec (n - length l) s1 b1 _ _ Hb1)
      as Hspec.
    rewrite length_fmap in Hspec.
    destruct Hspec as [Hok | (Hinj & tr' & Hthr)].
    + left. rewrite Hok. run. erewrite set_size_eq by exact Hobj1.
      cbn [data_]. eexists _, (mkPtr (Some b1) 0). split; [done|].
      split; [|split; [|done]].
      * assert (Hlen : length (l ++ replicate (n - length l) value_init) = n).
        { rewrite length_app, length_replicate. lia. }
        assert (Hv1 : vector_at s1 this (mkPtr (Some b1) 0) cap1 l)
          by (by repeat split).
        pose proof (vector_at_update s1 this _ cap1 l
                      (l ++ replicate (n - length l) value_init)
                      (leaked s1) (trace s1 ++ replicate (n - length l) EvValueCtor)
                      Hv1 ltac:(lia)) as Hv2.
        rewrite Hlen in Hv2. unfold update_old in Hv2. simpl in Hv2.
        unfold slots_of in Hv2.
        by rewrite Hlen, fmap_app, fmap_replicate, <- app_assoc in Hv2.
      * intros Hnc. specialize (Hsame Hnc). subst s1.
        destruct Hv as [Hobj0 _]. rewrite Hobj0 in Hobj1. by injection Hobj1.
    + right. left. split; [done|]. rewrite Hthr. run.
      eexists _, (mkPtr (Some b1) 0), cap1. split; [done|].
      split; [by repeat split|]. split; [done | by right].
  - right. left. split; [done|].
    run. rewrite Hres.
    run. eexists _, buf, cap. split; [done|]. split; [done|].
    split; [done | by left].
  - right. right. split; [done|]. split; [done|]. split; [done|].
    run. destruct (Reserve this n s); done.
Qed.

(** ** [Swap], the move operations and the destructor *)

Lemma Swap_eq s this other a b :
  this ≠ other →
  objs s !! this = Some a → objs s !! other = Some b →
  Swap this other s
  = Done tt (mkState
       (<[other := mkVector (data_ a) (size_ a)]>
          (<[this := mkVector (data_ b) (size_ b)]> (objs s)))
       (heap s) (leaked s) (trace s)).
Proof.
  intros Hne Ha Hb. unfold Swap. rewrite bool_decide_eq_true_2 by done.
  erewrite bind_Done by (by eapply get_obj_eq).
  erewrite bind_Done by (by eapply get_obj_eq).
  unfold RawMemory_Swap. cbv beta iota zeta.
  erewrite bind_Done by (by eapply set_obj_eq).
  erewrite set_obj_eq by (simpl; by rewrite list_lookup_insert_ne).
  simpl. by destruct a as [[? ?] ?], b as [[? ?] ?].
Qed.

Lemma insert_insert_back (o : list Vector) i j a b x y :
  i ≠ j → o !! i = Some a → o !! j = Some b →
  <[j := b]> (<[i := a]> (<[j := x]> (<[i := y]> o))) = o.
Proof.
  intros Hne Hi Hj.
  rewrite (list_insert_insert_ne _ i j) by done.
  rewrite !list_insert_insert_eq.
  rewrite (list_insert_id _ i) by done.
  by rewrite list_insert_id.
Qed.

Lemma Vector_move_eq s other o :
  objs s !! other = Some o →
  Vector_move other s
  = Done (mkVector (data_ o) (size_ o))
      (mkState (<[other := mkVector (mkRawMemory nullptr 0) 0]> (objs s))
               (heap s) (leaked s) (trace s)).
Proof.
  intros Ho. unfold Vector_move.
  erewrite bind_Done by (by eapply get_obj_eq).
  unfold RawMemory_move. cbv beta iota zeta.
  erewrite bind_Done by (by eapply set_obj_eq).
  by destruct o as [[? ?] ?].
Qed.

Lemma assign_move_eq s this rhs v r :
  this ≠ rhs →
  objs s !! this = Some v → objs s !! rhs = Some r →
  assign_move this rhs s
  = Done tt (mkState
       (<[rhs := mkVector (mkRawMemory nullptr 0) 0]>
          (<[this := mkVector (data_ r) (size_ r)]> (objs s)))
       (heap s) (leaked s) (trace s)).
Proof.
  intros Hne Hv Hr. unfold assign_move. rewrite bool_decide_eq_true_2 by done.
  erewrite bind_Done by (by eapply get_obj_eq).
  erewrite bind_Done by (by eapply get_obj_eq).
  unfold RawMemory_assign_move. cbv beta iota zeta.
  erewrite bind_Done by (by eapply set_obj_eq).
  erewrite set_obj_eq by (simpl; by rewrite list_lookup_insert_ne).
  simpl. by destruct r as [[? ?] ?].
Qed.

Lemma holds_objs s o lk tr buf cap l :
  holds s buf cap l → holds (mkState o (heap s) lk tr) buf cap l.
Proof. done. Qed.

Lemma Vector_delete_eq s this buf cap l :
  0 < sizeof_T →
  vector_at s this buf cap l →
  Vector_delete this s
  = Done tt (mkState (objs s) (release buf (heap s)) (leaked s)
                     (trace s ++ (EvDtor <$> l) ++ release_events buf)).
Proof.
  intros Hsz [Hobj Hholds]. pose proof Hholds as (Hle & _ & Hoff & _).
  unfold Vector_delete. erewrite bind_Done by (by eapply get_obj_eq).
  cbn [data_ size_ GetAddress buffer_].
  erewrite bind_Done.
  2:{ eapply (destroy_old _ buf buf 0 _ [] l (replicate (cap - length l) None));
        [done | by rewrite ptr_add_0 | done | done |].
      by apply holds_block_is. }
  erewrite delete_old; [ | done | | ].
  - simpl. unfold release. by rewrite update_old_twice, <- app_assoc.
  - simpl. apply omap_raw.
  - simpl. eapply block_is_update; [by apply holds_block_is|].
    unfold slots_of. by rewrite !length_app, length_fmap, !length_replicate.
Qed.

(** ** Copy assignment of a range *)

Lemma copy_assign_eq s bs bd spre x spost dpre y dpost :
  heap s !! bs = Some (Some (spre ++ Some x :: spost)) →
  heap s !! bd = Some (Some (dpre ++ Some y :: dpost)) →
  copy_assign (mkPtr (Some bd) (length dpre)) (mkPtr (Some bs) (length spre)) s
  = if throws (trace s) (EvCopyAssign y x) then Thrown s
    else Done tt (mkState (objs s)
           (<[bd := Some (dpre ++ Some x :: dpost)]> (heap s))
           (leaked s) (trace s ++ [EvCopyAssign y x])).
Proof.
  intros Hs Hd. unfold copy_assign.
  erewrite bind_Done by (by eapply load_eq).
  erewrite bind_Done by (by eapply load_eq).
  unfold mbind, M_bind, bind, call.
  destruct (throws (trace s) (EvCopyAssign y x)); [done|].
  by erewrite store_eq.
Qed.

(** [std::copy_n] over two blocks: all elements assigned, or the first
    [k] of them when the assignment of the next one throws. *)
Lemma copy_n_spec xs : ∀ ys s bs bd spre spost dpre dpost,
  length ys = length xs → bs ≠ bd →
  heap s !! bs = Some (Some (spre ++ (Some <$> xs) ++ spost)) →
  heap s !! bd = Some (Some (dpre ++ (Some <$> ys) ++ dpost)) →
  let r := copy_n (mkPtr (Some bs) (length spre)) (length xs)
                  (mkPtr (Some bd) (length dpre)) s in
  r = Done tt (mkState (objs s)
        (<[bd := Some (dpre ++ (Some <$> xs) ++ dpost)]> (heap s))
        (leaked s) (trace s ++ zip_with EvCopyAssign ys xs))
  ∨ (injected ∧ ∃ k tr', k < length xs ∧
       r = Thrown (mkState (objs s)
             (<[bd := Some (dpre ++ (Some <$> take k xs ++ drop k ys) ++ dpost)]>
                (heap s))
             (leaked s) tr')).
Proof.
  induction xs as [|x xs IH];
    intros [|y ys] s bs bd spre spost dpre dpost Hlen Hne Hs Hd r;
    subst r; simpl in Hlen; try done.
  - left. simpl. unfold mret, M_ret, ret. rewrite app_nil_r.
    rewrite list_insert_id by done. by rewrite state_eta.
  - simpl in Hs, Hd. simpl copy_n.
    rewrite bind_unfold. erewrite copy_assign_eq by done.
    destruct (throws (trace s) (EvCopyAssign y x)) eqn:Hthrow.
    { right. split; [by eexists _, _|]. exists 0, (trace s).
      split; [simpl; lia|]. simpl.
      rewrite list_insert_id by done. by rewrite state_eta. }
    rewrite !ptr_add_1, <- (length_snoc spre (Some x)),
      <- (length_snoc dpre (Some x)).
    set (s1 := mkState _ _ _ _).
    assert (Hs1 : heap s1 !! bs
      = Some (Some ((spre ++ [Some x]) ++ (Some <$> xs) ++ spost))).
    { subst s1. simpl. rewrite list_lookup_insert_ne by done.
      by rewrite <- app_assoc. }
    assert (Hd1 : heap s1 !! bd
      = Some (Some ((dpre ++ [Some x]) ++ (Some <$> ys) ++ dpost))).
    { subst s1. simpl. erewrite heap_lookup_insert by done.
      by rewrite <- app_assoc. }
    injection Hlen as Hlen.
    destruct (IH ys s1 bs bd _ _ _ _ Hlen Hne Hs1 Hd1)
      as [Hok | (Hinj & k & tr' & Hk & Hthr)].
    + left. rewrite Hok. subst s1. simpl.
      by rewrite heap_insert_same, <- !app_assoc.
    + right. split; [done|]. exists (S k), tr'. split; [simpl; lia|].
      rewrite Hthr. subst s1. simpl.
      by rewrite heap_insert_same, <- !app_assoc.
Qed.

(** ** Copy assignment *)

Lemma assign_copy_grow s this rhs bufa capa la bufb capb lb :
  0 < sizeof_T → this ≠ rhs →
  vector_at s this bufa capa la → vector_at s rhs bufb capb lb →
  (∀ b, base bufa = Some b → base bufb ≠ Some b) →
  capa < length lb →
  let n := length lb in
  let r := assign_copy this rhs s in
  if throws (trace s) (EvNew (n * sizeof_T)) then r = Thrown s
  else
    r = Done tt
          (mkState
             (<[this := mkVector (mkRawMemory (mkPtr (Some (length (heap s))) 0) n)
                                 n]> (objs s))
             (release bufa (heap s ++ [Some (Some <$> lb)]))
             (leaked s)
             (trace s ++ [EvNew (n * sizeof_T)] ++ (EvCopyCtor <$> lb)
                ++ (EvDtor <$> la) ++ release_events bufa))
    ∨ (injected ∧
       ∃ tr', r = Thrown (mkState (objs s) (heap s ++ [None]) (leaked s) tr')).
Proof.
  intros Hsz Hne Hva Hvb Hdis Hcap n r. subst r n.
  pose proof Hva as [Hobja Hha]. pose proof Hvb as [Hobjb Hhb].
  assert (Hlt : this < length (objs s)) by (by eapply lookup_lt_Some).
  assert (Hn0 : length lb ≠ 0) by lia.
  pose proof (Vector_copy_outcome s rhs bufb capb lb Hsz Hvb) as Hcopy.
  cbv zeta in Hcopy. rewrite (proj2 (Nat.eqb_neq _ _) Hn0) in Hcopy.
  unfold assign_copy. rewrite bool_decide_eq_true_2 by done.
  erewrite bind_Done by (by eapply get_obj_eq).
  erewrite bind_Done by (by eapply get_data_eq).
  cbn [data_ size_ capacity_].
  rewrite (proj2 (Nat.ltb_lt _ _) Hcap).
  unfold with_local_Vector.
  destruct (throws (trace s) (EvNew (length lb * sizeof_T))) eqn:Hnew.
  { run. by rewrite Hcopy. }
  destruct Hcopy as [Hcopy | (Hinj & tr' & Hcopy)].
  2:{ right. split; [done|]. exists tr'. run. by rewrite Hcopy. }
  left. run. rewrite Hcopy. run. unfold push_local at 1. run.
  set (v := mkVector (mkRawMemory (mkPtr (Some (length (heap s))) 0) (length lb))
                     (length lb)).
  set (s2 := mkState (objs s ++ [v]) _ _ _).
  assert (Hswap := Swap_eq s2 this (length (objs s)) _ v ltac:(lia)
            ltac:(subst s2; simpl; by apply lookup_app_l_Some)
            ltac:(subst s2; simpl; apply lookup_mid)).
  rewrite Hswap. cbn [data_ size_].
  set (s3 := mkState _ (heap s2) _ _).
  assert (Hv3 : vector_at s3 (length (objs s)) bufa capa la).
  { split.
    - subst s3 s2. simpl. apply list_lookup_insert_eq.
      rewrite length_insert, length_app. simpl. lia.
    - subst s3 s2. simpl. destruct Hha as (? & ? & ? & Hblk).
      repeat split; try done. destruct (base bufa); [|done].
      simpl. by apply lookup_old_block. }
  run. rewrite (Vector_delete_eq s3 _ bufa capa la Hsz Hv3).
  run. unfold pop_local at 1. run.
  subst s3 s2. cbn [objs heap leaked trace].
  rewrite removelast_snoc_insert by done.
  unfold ret at 1. run.
  erewrite get_obj_eq by (simpl; by rewrite list_lookup_insert_ne).
  erewrite set_size_eq by (simpl; by eapply objs_lookup_insert).
  cbn [objs heap leaked trace data_ size_].
  rewrite list_insert_insert_eq. subst v. cbn [data_].
  by rewrite <- !app_assoc.
Qed.

Lemma drop_take_app {A} (l : list A) k m :
  k ≤ m → m ≤ length l → drop k (take m l) ++ drop m l = drop k l.
Proof.
  intros Hk Hm. rewrite <- (take_drop m l) at 3.
  rewrite drop_app_le; [done|]. rewrite length_take. lia.
Qed.

Lemma assign_copy_in_place s this rhs bufa capa la bufb capb lb :
  0 < sizeof_T → this ≠ rhs →
  vector_at s this bufa capa la → vector_at s rhs bufb capb lb →
  (∀ b, base bufa = Some b → base bufb ≠ Some b) →
  length lb ≤ capa →
  let m := length la `min` length lb in
  let r := assign_copy this rhs s in
  r = Done tt
        (mkState
           (<[this := mkVector (mkRawMemory bufa capa) (length lb)]> (objs s))
           (update_old bufa (Some (slots_of lb capa)) (heap s))
           (leaked s)
           (trace s ++ zip_with EvCopyAssign (take m la) (take m lb)
              ++ (EvDtor <$> drop m la) ++ (EvCopyCtor <$> drop m lb)))
  ∨ (injected ∧ ∃ k tr', k ≤ m ∧
       r = Thrown
             (mkState (objs s)
                (update_old bufa (Some (slots_of (take k lb ++ drop k la) capa))
                   (heap s))
                (leaked s) tr')).
Proof.
  intros Hsz Hne Hva Hvb Hdis Hcap m r. subst r.
  pose proof Hva as [Hobja Hha]. pose proof Hvb as [Hobjb Hhb].
  pose proof Hha as (Hlea & Hfa & Hoffa & Hblka).
  pose proof Hhb as (Hleb & Hfb & Hoffb & Hblkb).
  assert (Hfcap : size_t.fits capa) by (by eapply holds_fits_cap).
  assert (Hfcapb : size_t.fits capb) by (by eapply holds_fits_cap).
  unfold assign_copy. rewrite bool_decide_eq_true_2 by done.
  erewrite bind_Done by (by eapply get_obj_eq).
  erewrite bind_Done by (by eapply get_data_eq).
  cbn [data_ size_ capacity_].
  rewrite (proj2 (Nat.ltb_ge _ _) Hcap).
  run. erewrite get_size_eq by exact Hobja. run. fold m.
  destruct (decide (lb = [])) as [-> | Hlb].
  { left. simpl in m. assert (m = 0) as -> by (subst m; lia).
    cbn [length copy_n]. unfold ret at 1. run.
    cbn [length Nat.leb]. run. rewrite RawMemory_plus_eq by (simpl; lia).
    run. rewrite size_t_sub_fits
      by (lia || (eapply size_t_fits_le; [|exact Hfcap]; lia)).
    rewrite Nat.sub_0_r.
    erewrite (destroy_old _ bufa _ 0 _ [] la (replicate (capa - length la) None));
      [ | done | done | done | done | by apply holds_block_is ].
    run. erewrite get_obj_eq by exact Hobjb.
    erewrite set_size_eq by exact Hobja.
    cbn [objs heap leaked trace data_ size_ length take drop zip_with].
    rewrite !app_nil_l. unfold slots_of. simpl.
    rewrite <- replicate_add, Nat.sub_0_r, app_nil_r.
    by replace (length la + (capa - length la)) with capa by lia. }
  assert (Hlb0 : 0 < length lb) by (destruct lb; [done | simpl; lia]).
  destruct bufb as [[bb|] ob]; simpl in Hoffb, Hblkb; [subst ob | lia].
  destruct bufa as [[ba|] oa]; simpl in Hoffa, Hblka; [subst oa | lia].
  assert (Hbne : bb ≠ ba).
  { intros ->. by eapply (Hdis ba). }
  assert (Hm : m ≤ length la ∧ m ≤ length lb) by (subst m; lia).
  assert (Hta : length (take m la) = m) by (rewrite length_take; lia).
  assert (Htb : length (take m lb) = m) by (rewrite length_take; lia).
  set (rawa := replicate (capa - length la) (@None T)).
  set (rawb := replicate (capb - length lb) (@None T)).
  assert (Hsb : heap s !! bb
    = Some (Some ([] ++ (Some <$> take m lb)
                    ++ ((Some <$> drop m lb) ++ rawb)))).
  { rewrite Hblkb. unfold slots_of. simpl.
    by rewrite app_assoc, <- fmap_app, take_drop. }
  assert (Hsa : heap s !! ba
    = Some (Some ([] ++ (Some <$> take m la)
                    ++ ((Some <$> drop m la) ++ rawa)))).
  { rewrite Hblka. unfold slots_of. simpl.
    by rewrite app_assoc, <- fmap_app, take_drop. }
  pose proof (copy_n_spec (take m lb) (take m la) s bb ba [] _ [] _
                ltac:(lia) Hbne Hsb Hsa) as Hcopy.
  cbv zeta in Hcopy. rewrite Htb in Hcopy. simpl length in Hcopy.
  destruct Hcopy as [Hcopy | (Hinj & k & tr' & Hk & Hcopy)].
  2:{ right. split; [done|]. exists k, tr'. split; [lia|].
      rewrite Hcopy. run. unfold update_old. simpl. do 4 f_equal.
      rewrite take_take, (Nat.min_l k m) by lia.
      unfold slots_of.
      rewrite length_app, length_take, length_drop.
      replace (k `min` length lb + (length la - k)) with (length la) by lia.
      fold rawa. rewrite app_assoc, <- fmap_app, <- app_assoc.
      by rewrite drop_take_app by lia. }
  rewrite Hcopy. run.
  set (s1 := mkState (objs s) _ (leaked s) _).
  assert (Hs1a : heap s1 !! ba
    = Some (Some ((Some <$> take m lb) ++ (Some <$> drop m la) ++ rawa))).
  { subst s1. simpl. by erewrite heap_lookup_insert. }
  assert (Hs1b : heap s1 !! bb
    = Some (Some ((Some <$> take m lb) ++ (Some <$> drop m lb) ++ rawb))).
  { subst s1. simpl. by rewrite list_lookup_insert_ne. }
  destruct (length lb <=? length la) eqn:Hcmp.
  - apply Nat.leb_le in Hcmp. left.
    run. rewrite RawMemory_plus_eq by (simpl; lia).
    run. rewrite size_t_sub_fits
      by (lia || (eapply size_t_fits_le; [|exact Hfcap]; lia)).
    rewrite ptr_add_mk, Nat.add_0_l.
    pose proof (destroy_n_spec (drop m la) s1 ba _ _ Hs1a) as Hd.
    rewrite length_fmap, Htb, length_drop in Hd.
    replace m with (length lb) in Hd at 1 2 by lia.
    rewrite Hd. run.
    erewrite get_obj_eq by (subst s1; exact Hobjb).
    erewrite set_size_eq by (subst s1; exact Hobja).
    subst s1. cbn [objs heap leaked trace data_ size_].
    rewrite heap_insert_same. unfold update_old, slots_of. simpl.
    assert (Hml : m = length lb) by lia.
    rewrite (drop_ge lb m), (take_ge lb m) by lia.
    rewrite fmap_nil, app_nil_r, <- !app_assoc.
    do 5 f_equal. subst rawa. rewrite <- replicate_add. f_equal. lia.
  - apply Nat.leb_gt in Hcmp.
    assert (Hml : m = length la) by lia.
    run. rewrite RawMemory_plus_eq by (simpl; lia).
    run. rewrite RawMemory_plus_eq by (simpl; lia).
    run. rewrite size_t_sub_fits
      by (lia || (eapply size_t_fits_le; [|exact Hfcapb]; lia)).
    rewrite !ptr_add_mk, !Nat.add_0_l.
    assert (Hs1a' : heap s1 !! ba
      = Some (Some ((Some <$> take m lb)
                      ++ replicate (length (drop m lb)) None
                      ++ replicate (capa - length lb) None))).
    { rewrite Hs1a, (drop_ge la m) by lia. rewrite fmap_nil, app_nil_l.
      subst rawa. rewrite <- replicate_add, length_drop.
      do 4 f_equal. lia. }
    pose proof (uninitialized_copy_n_spec (drop m lb) s1 bb ba _ _ _ _
                  Hbne Hs1b Hs1a') as Hu.
    rewrite length_fmap, Htb, length_drop in Hu.
    rewrite Hml in Hu at 1 2 3.
    destruct Hu as [Hu | (Hinj & tr' & Hu)].
    + left. rewrite Hu. run.
      erewrite get_obj_eq by (subst s1; exact Hobjb).
      erewrite set_size_eq by (subst s1; exact Hobja).
      subst s1. cbn [objs heap leaked trace data_ size_].
      rewrite heap_insert_same. unfold update_old, slots_of. simpl.
      rewrite (drop_ge la m) by lia.
      rewrite fmap_nil, app_nil_l, <- !app_assoc.
      by rewrite (app_assoc (Some <$> take m lb)), <- fmap_app, take_drop.
    + right. split; [done|]. exists m, tr'. split; [done|].
      rewrite Hu. run. subst s1. cbn [objs heap leaked trace].
      unfold update_old, slots_of. simpl. do 4 f_equal.
      rewrite (drop_ge la m) by lia.
      rewrite !app_nil_r, fmap_nil, app_nil_l, Htb. subst rawa.
      do 2 f_equal. lia.
Qed.

Lemma holds_base_lt s buf cap l b :
  holds s buf cap l → base buf = Some b → b < length (heap s).
Proof.
  intros (_ & _ & _ & Hblk) Hb. rewrite Hb in Hblk.
  by eapply lookup_lt_Some.
Qed.

Lemma holds_update s buf cap l l' o lk tr :
  holds s buf cap l → length l' ≤ cap →
  holds (mkState o (update_old buf (Some (slots_of l' cap)) (heap s)) lk tr)
        buf cap l'.
Proof.
  intros (Hle & Hf & Hoff & Hblk) Hle'. repeat split; try done.
  unfold update_old. destruct (base buf) as [b|]; [|done].
  simpl. by erewrite heap_lookup_insert.
Qed.

Lemma holds_update_other s bufa bufb capb lb x o lk tr :
  holds s bufb capb lb →
  (∀ b, base bufa = Some b → base bufb ≠ Some b) →
  holds (mkState o (update_old bufa x (heap s)) lk tr) bufb capb lb.
Proof.
  intros (Hle & Hf & Hoff & Hblk) Hdis. repeat split; try done.
  destruct (base bufb) as [bb|] eqn:Hbb; [|done]. simpl.
  unfold update_old. destruct (base bufa) as [ba|] eqn:Hba; [|done].
  rewrite list_lookup_insert_ne; [done|]. intros ->. by eapply Hdis.
Qed.

Lemma holds_new_block s buf cap l blk o lk tr :
  holds s buf cap l →
  holds (mkState o (heap s ++ [blk]) lk tr) buf cap l.
Proof.
  intros (Hle & Hf & Hoff & Hblk). repeat split; try done.
  destruct (base buf) as [b|]; [|done]. simpl. by apply lookup_old_block.
Qed.

(** Copy assignment between two vectors with blocks of their own: it
    returns with the elements of the source in both; or a copy
    constructor, a copy assignment or the allocation threw, the first
    [k] elements of the target were overwritten with copies, and
    nothing else changed. *)
Lemma assign_copy_outcome s this rhs bufa capa la bufb capb lb :
  0 < sizeof_T → this ≠ rhs →
  vector_at s this bufa capa la → vector_at s rhs bufb capb lb →
  (∀ b, base bufa = Some b → base bufb ≠ Some b) →
  (∃ s' buf',
      assign_copy this rhs s = Done tt s'
      ∧ vector_at s' this buf' (capa `max` length lb) lb
      ∧ vector_at s' rhs bufb capb lb
      ∧ (∀ b, base buf' = Some b → base bufb ≠ Some b)
      ∧ (length lb ≤ capa → buf' = bufa)
      ∧ leaked s' = leaked s)
  ∨ (injected ∧ ∃ s' k,
       assign_copy this rhs s = Thrown s'
       ∧ k ≤ length la `min` length lb
       ∧ (capa < length lb → k = 0)
       ∧ vector_at s' this bufa capa (take k lb ++ drop k la)
       ∧ vector_at s' rhs bufb capb lb
       ∧ leaked s' = leaked s).
Proof.
  intros Hsz Hne Hva Hvb Hdis.
  pose proof Hva as [Hobja Hha]. pose proof Hvb as [Hobjb Hhb].
  pose proof Hha as (Hlea & Hfa & Hoffa & Hblka).
  pose proof Hhb as (Hleb & Hfb & Hoffb & Hblkb).
  destruct (decide (length lb ≤ capa)) as [Hcap | Hcap].
  - destruct (assign_copy_in_place s this rhs bufa capa la bufb capb lb
                Hsz Hne Hva Hvb Hdis Hcap)
      as [Hok | (Hinj & k & tr' & Hk & Hthr)].
    + left. eexists _, bufa. split; [exact Hok|].
      replace (capa `max` length lb) with capa by lia.
      split; [eapply vector_at_update; [exact Hva | done]|].
      split; [|done]. split; [|by apply holds_update_other].
      simpl. by rewrite list_lookup_insert_ne.
    + right. split; [done|]. eexists _, k. split; [exact Hthr|].
      split; [done|]. split; [lia|].
      assert (Hlen : length (take k lb ++ drop k la) = length la).
      { rewrite length_app, length_take, length_drop. lia. }
      split; [|split; [|done]].
      * split; [by rewrite Hlen|]. eapply holds_update; [exact Hha | lia].
      * split; [done|]. by apply holds_update_other.
  - assert (Hlt : capa < length lb) by lia.
    pose proof (assign_copy_grow s this rhs bufa capa la bufb capb lb
                  Hsz Hne Hva Hvb Hdis Hlt) as H.
    cbv zeta in H.
    destruct (throws (trace s) (EvNew (length lb * sizeof_T))) eqn:Hnew.
    { right. split; [by eexists _, _|]. exists s, 0. split; [done|].
      split; [lia|]. split; [done|]. rewrite take_0, drop_0. done. }
    destruct H as [Hok | (Hinj & tr' & Hthr)].
    + left. eexists _, (mkPtr (Some (length (heap s))) 0). split; [exact Hok|].
      replace (capa `max` length lb) with (length lb) by lia.
      split; [|split; [|split; [|split; [lia | done]]]].
      * split; [simpl; by eapply objs_lookup_insert|].
        repeat split; simpl; try done.
        -- eapply size_t_fits_le; [|exact Hfb]. nia.
        -- unfold release. rewrite lookup_update_old_ne
             by (intros Hb; apply (holds_base_lt _ _ _ _ _ Hha) in Hb; lia).
           rewrite lookup_new_block. unfold slots_of.
           by rewrite Nat.sub_diag, app_nil_r.
      * split; [simpl; by rewrite list_lookup_insert_ne|].
        unfold release.
        apply (holds_update_other
                 (mkState (objs s) (heap s ++ [Some (Some <$> lb)])
                          (leaked s) (trace s))); [|done].
        by apply holds_new_block.
      * simpl. intros b [= <-] Hb.
        apply (holds_base_lt _ _ _ _ _ Hhb) in Hb. lia.
    + right. split; [done|]. eexists _, 0. split; [exact Hthr|].
      split; [lia|]. split; [done|]. rewrite take_0, drop_0.
      split; [by apply vector_at_new_block|].
      split; [by apply vector_at_new_block | done].
Qed.

(** ** A vector that owns the only block *)

Lemma sole_block_update s buf blk o lk tr :
  sole_block s buf →
  sole_block (mkState o (update_old buf blk (heap s)) lk tr) buf.
Proof.
  intros Hsole b blk' Hb. simpl in Hb. unfold update_old in Hb.
  destruct (base buf) as [b0|] eqn:Hbase.
  - destruct (decide (b = b0)) as [->|Hne]; [done|].
    rewrite list_lookup_insert_ne in Hb by done.
    specialize (Hsole b blk' Hb). congruence.
  - specialize (Hsole b blk' Hb). congruence.
Qed.

Lemma sole_block_moved s buf cap l blk o lk tr :
  holds s buf cap l → sole_block s buf →
  sole_block (mkState o (release buf (heap s ++ [blk])) lk tr)
             (mkPtr (Some (length (heap s))) 0).
Proof.
  intros Hh Hsole b blk' Hb. simpl in *.
  destruct (decide (b = length (heap s))) as [->|Hne]; [done|].
  exfalso. unfold release, update_old in Hb.
  assert (Hlt : b < length (heap s)).
  { apply lookup_lt_Some in Hb.
    destruct (base buf); rewrite ?length_insert, length_app in Hb;
      simpl in Hb; lia. }
  destruct (base buf) as [b0|] eqn:Hbase.
  - destruct (decide (b = b0)) as [->|Hne0].
    + rewrite list_lookup_insert_eq in Hb
        by (rewrite length_app; simpl; lia). done.
    + rewrite list_lookup_insert_ne, lookup_app_l in Hb by done.
      specialize (Hsole b blk' Hb). congruence.
  - rewrite lookup_app_l in Hb by done.
    specialize (Hsole b blk' Hb). congruence.
Qed.

Lemma EmplaceBack_sole s this buf cap l x p s' :
  0 < sizeof_T →
  vector_at s this buf cap l → sole_block s buf →
  size_t.fits (grown (length l) cap * sizeof_T) →
  EmplaceBack this x s = Done p s' →
  ∃ buf', vector_at s' this buf' (grown (length l) cap) (l ++ [x])
          ∧ sole_block s' buf' ∧ leaked s' = leaked s.
Proof.
  intros Hsz Hv Hsole Hfits Hr. unfold grown in *.
  destruct (length l =? cap) eqn:Hfull.
  - apply Nat.eqb_eq in Hfull.
    destruct (growth_outcome_Done _ _ _ _ _ _ _
                (EmplaceBack_growth s this buf cap l x Hsz Hv Hfull Hfits))
      as [_ Hd].
    destruct (Hd _ _ Hr) as [-> ->].
    exists (mkPtr (Some (length (heap s))) 0).
    split; [|split; [|done]].
    + eapply vector_at_after_growth; [done | exact Hv | | done].
      destruct (cap =? 0) eqn:E.
      * apply Nat.eqb_eq in E. lia.
      * apply Nat.eqb_neq in E. lia.
    + destruct Hv as [_ Hh]. by eapply sole_block_moved.
  - apply Nat.eqb_neq in Hfull.
    assert (Hlt : length l < cap) by (destruct Hv as [_ (? & _)]; lia).
    rewrite (EmplaceBack_in_place s this buf cap l x Hsz Hv Hlt) in Hr.
    destruct (throws (trace s) (EvCtor x)); [done|].
    injection Hr as <- <-. exists buf.
    split; [by apply vector_at_after_in_place|].
    split; [by apply sole_block_update | done].
Qed.

Lemma run_ops_sole this ops : ∀ s buf cap l0 l s',
  0 < sizeof_T →
  vector_at s this buf cap l0 → sole_block s buf →
  after_ops l0 ops = Some l →
  size_t.fits (2 * (length l0 + pushes ops) * sizeof_T) →
  run_ops this ops s = Done tt s' →
  ∃ buf' cap', vector_at s' this buf' cap' l
               ∧ sole_block s' buf' ∧ leaked s' = leaked s.
Proof.
  induction ops as [|[x|] ops IH];
    intros s buf cap l0 l s' Hsz Hv Hsole Hafter Hfits Hr;
    cbn [run_ops after_ops pushes] in *.
  - injection Hafter as <-. injection Hr as <-. by eexists _, _.
  - assert (Hg : size_t.fits (grown (length l0) cap * sizeof_T)).
    { destruct Hv as [_ (Hle & Hc & _)]. by eapply grown_fits. }
    apply bind_Done_inv in Hr as ([] & s1 & Hpush & Hr).
    unfold PushBack in Hpush.
    apply bind_Done_inv in Hpush as (p & s1' & Hpush & Hret).
    injection Hret as <-.
    destruct (EmplaceBack_sole s this buf cap l0 x p s1' Hsz Hv Hsole Hg Hpush)
      as (buf1 & Hv1 & Hsole1 & Hlk1).
    destruct (IH s1' buf1 _ (l0 ++ [x]) l s' Hsz Hv1 Hsole1 Hafter)
      as (buf' & cap' & Hv' & Hsole' & Hlk'); [|done|].
    { rewrite length_snoc. eapply size_t_fits_le; [|exact Hfits]. nia. }
    exists buf', cap'. split; [done|]. split; [done|]. congruence.
  - destruct l0 as [|a l0'] eqn:El0; [done|]. rewrite <- El0 in *.
    assert (Hne : l0 ≠ []) by (by rewrite El0).
    destruct (exists_last Hne) as (l1 & z & Hl0).
    assert (Hrl : removelast l0 = l1) by (by rewrite Hl0, removelast_last).
    rewrite El0 in Hafter. rewrite <- El0, Hrl in Hafter.
    rewrite Hl0 in Hv.
    rewrite bind_unfold, (PopBack_spec _ _ _ _ _ _ Hsz Hv) in Hr.
    cbv beta iota in Hr.
    assert (Hv1 := vector_at_update _ _ _ _ _ l1 (leaked s) (trace s ++ [EvDtor z]) Hv).
    assert (Hlen : length l0 = S (length l1)) by (by rewrite Hl0, length_snoc).
    destruct (IH _ buf cap l1 l s' Hsz (Hv1 ltac:(destruct Hv as [_ (Hle & _)];
                rewrite length_snoc in Hle; lia))
                (sole_block_update _ _ _ _ _ _ Hsole) Hafter)
      as (buf' & cap' & Hv' & Hsole' & Hlk'); [|done|].
    { eapply size_t_fits_le; [|exact Hfits]. nia. }
    by exists buf', cap'.
Qed.

(** ** Computations that only read *)

Lemma reads_ret {A} (a : A) : reads (ret a).
Proof. by intros s a' s' [= _ ->]. Qed.

Lemma reads_mret {A} (a : A) : reads (mret a).
Proof. apply reads_ret. Qed.

Lemma reads_undefined {A} : reads (@undefined A).
Proof. by intros s a s'. Qed.

Lemma reads_assert b : reads (assert b).
Proof. intros s a s'. unfold assert. destruct b; [|done]. by intros [= _ ->]. Qed.

Lemma reads_bind {A B} (m : M A) (f : A → M B) :
  reads m → (∀ a, reads (f a)) → reads (m ≫= f).
Proof.
  intros Hm Hf s b s' H. apply bind_Done_inv in H as (a & s1 & H1 & H2).
  apply Hm in H1 as ->. by apply Hf in H2.
Qed.

Lemma reads_if {A} (c : bool) (m1 m2 : M A) :
  reads m1 → reads m2 → reads (if c then m1 else m2).
Proof. by destruct c. Qed.

Lemma reads_get_obj a : reads (get_obj a).
Proof.
  intros s v s'. unfold get_obj. destruct (objs s !! a); [|done].
  by intros [= _ ->].
Qed.

Create HintDb reads discriminated.
#[local] Hint Resolve reads_ret reads_mret reads_undefined reads_assert
  reads_get_obj : reads.

Ltac reads :=
  repeat first
    [ progress intros
    | apply reads_bind
    | apply reads_if
    | solve [eauto with reads] ].

Lemma reads_get_data this : reads (get_data this).
Proof. unfold get_data. reads. Qed.

Lemma reads_get_size this : reads (get_size this).
Proof. unfold get_size. reads. Qed.

Lemma reads_Capacity this : reads (Capacity this).
Proof. unfold Capacity, get_data. reads. Qed.

Lemma reads_RawMemory_plus d k : reads (RawMemory_plus d k).
Proof. unfold RawMemory_plus. reads. Qed.

#[local] Hint Resolve reads_get_data reads_get_size reads_Capacity
  reads_RawMemory_plus : reads.

Lemma reads_begin this : reads (begin this).
Proof. unfold begin. reads. Qed.

Lemma reads_end this : reads (end_ this).
Proof. unfold end_. reads. Qed.

Lemma reads_ptr_le p q : reads (ptr_le p q).
Proof. unfold ptr_le. reads. Qed.

Lemma reads_ptr_diff p q : reads (ptr_diff p q).
Proof. unfold ptr_diff. reads. Qed.

#[local] Hint Resolve reads_begin reads_end reads_ptr_le reads_ptr_diff
  : reads.

Lemma reads_in_range this pos : reads (in_range this pos).
Proof. unfold in_range, cbegin, cend. reads. Qed.

(** Two computations that agree after a common first step. *)
Lemma bind_ext_reads {A B} (m : M A) (f g : A → M B) s :
  reads m → (∀ a, f a s = g a s) → (m ≫= f) s = (m ≫= g) s.
Proof.
  intros Hm H. rewrite !bind_unfold. destruct (m s) as [a s'| | |] eqn:E; try done.
  apply Hm in E as ->. apply H.
Qed.

Lemma bind_congr {A B} (m1 m2 : M A) (f : A → M B) s :
  m1 s = m2 s → (m1 ≫= f) s = (m2 ≫= f) s.
Proof. intros H. by rewrite !bind_unfold, H. Qed.

(** ** Arguments passed by reference *)

Lemma load_after_new n s d s1 src x :
  RawMemory_new n s = Done d s1 →
  load src s = Done x s → load src s1 = Done x s1.
Proof.
  unfold RawMemory_new, Allocate. intros Hnew Hload.
  apply bind_Done_inv in Hnew as (p & s2 & Hnew & [= _ <-]).
  destruct (n =? 0); [by injection Hnew as _ <-|].
  unfold operator_new in Hnew.
  destruct (throws _ _); [done|]. injection Hnew as _ <-.
  unfold load, slot_at in *. simpl.
  destruct (base src) as [b|]; [|done].
  destruct (heap s !! b) as [[blk|]|] eqn:Hb; try done.
  erewrite lookup_old_block by done.
  simpl in *. destruct (blk !! off src) as [[y|]|]; try done.
  by injection Hload as ->.
Qed.

Lemma with_new_data_ext {A} n (body1 body2 : RawMemory → M (A * RawMemory)) s :
  (∀ d s1, RawMemory_new n s = Done d s1 → body1 d s1 = body2 d s1) →
  with_new_data n body1 s = with_new_data n body2 s.
Proof.
  intros H. unfold with_new_data. rewrite !bind_unfold.
  destruct (RawMemory_new n s) as [d s1| | |] eqn:E; try done.
  rewrite !bind_unfold, !on_unwind_unfold. by rewrite (H d s1).
Qed.

Lemma construct_from_ref_eq p src x s :
  load src s = Done x s →
  construct_from_ref p src s = construct_from_args p x s.
Proof. intros H. unfold construct_from_ref. by erewrite bind_Done by exact H. Qed.

Lemma EmplaceBack_ref_eq this src x s :
  load src s = Done x s →
  EmplaceBack_ref this src s = EmplaceBack this x s.
Proof.
  intros Hload. unfold EmplaceBack_ref, EmplaceBack.
  apply bind_ext_reads; [apply reads_get_size|]. intros size.
  apply bind_ext_reads; [apply reads_Capacity|]. intros cap.
  apply bind_congr. destruct (size =? cap).
  - apply with_new_data_ext. intros d s1 Hnew.
    apply bind_ext_reads; [apply reads_RawMemory_plus|]. intros p.
    apply bind_congr. apply construct_from_ref_eq.
    by eapply load_after_new.
  - apply bind_ext_reads; [apply reads_get_data|]. intros d.
    apply bind_ext_reads; [apply reads_RawMemory_plus|]. intros p.
    by apply construct_from_ref_eq.
Qed.

Lemma Emplace_ref_eq this pos src x s :
  load src s = Done x s →
  Emplace_ref this pos src s = Emplace this pos x s.
Proof.
  intros Hload. unfold Emplace_ref, Emplace.
  apply bind_ext_reads; [apply reads_in_range|]. intros c.
  apply bind_ext_reads; [apply reads_assert|]. intros _.
  apply bind_ext_reads; [apply reads_begin|]. intros cb.
  apply bind_ext_reads; [apply reads_ptr_diff|]. intros offset.
  apply bind_ext_reads; [apply reads_get_size|]. intros size.
  apply bind_ext_reads; [apply reads_Capacity|]. intros cap.
  apply bind_congr. destruct (size =? cap).
  - unfold InsertAndReallocate_ref, InsertAndReallocate.
    apply bind_ext_reads; [apply reads_get_size|]. intros size'.
    apply with_new_data_ext. intros d s1 Hnew.
    apply bind_congr. apply construct_from_ref_eq.
    by eapply load_after_new.
  - unfold try_catch.
    assert (Heq : InsertWithoutReallocating_ref this pos offset src s
                  = InsertWithoutReallocating this pos offset x s).
    { unfold InsertWithoutReallocating_ref, InsertWithoutReallocating.
      apply bind_ext_reads; [apply reads_end|]. intros ce.
      destruct (negb (ptr_eqb pos ce)).
      - by erewrite bind_Done by exact Hload.
      - apply bind_ext_reads; [apply reads_end|]. intros e.
        by apply construct_from_ref_eq. }
    by rewrite Heq.
Qed.

Lemma take_drop_inserted (l : list T) k x :
  k ≤ length l →
  (take k l ++ x :: drop k l) !! k = Some x
  ∧ take k (take k l ++ x :: drop k l)
      ++ drop (S k) (take k l ++ x :: drop k l) = l.
Proof.
  intros Hk.
  assert (Hlen : length (take k l) = k) by (rewrite length_take; lia).
  split.
  - pose proof (lookup_mid (take k l) (drop k l) x) as H.
    by rewrite Hlen in H.
  - rewrite take_app_le, take_take, Nat.min_id by lia.
    rewrite (cons_middle x), app_assoc.
    rewrite drop_app_length'; [apply take_drop|].
    rewrite length_snoc. lia.
Qed.

Lemma size_t_mul_wraps a b :
  ¬ size_t.fits (a * b) → size_t.mul a b < a * b.
Proof.
  unfold size_t.fits, size_t.mul, size_t.wrap. intros H.
  rewrite <- Nat2N.inj_mul.
  assert (Hmod : (N.of_nat (a * b) mod size_t.modulus < size_t.modulus)%N)
    by (apply N.mod_lt; discriminate).
  lia.
Qed.

(** * Further properties of the operations *)


(** X2: when the allocation or a copy constructor throws in the copy
    constructor Vector(const Vector&), the copies already built are
    destroyed and the new block is released; the source vector and
    every other vector object are as they were and no object is left
    alive. *)
Theorem X2_copy_constructor_failure other s buf cap l :
  0 < sizeof_T →
  vector_at s other buf cap l →
  ∀ s', Vector_copy other s = Thrown s' →
    vector_at s' other buf cap l
    ∧ objs s' = objs s ∧ leaked s' = leaked s
    ∧ (s' = s ∨ heap s' = heap s ++ [None]).
Proof.
  intros Hsz Hv s' Hr.
  pose proof (Vector_copy_outcome s other buf cap l Hsz Hv) as H.
  cbv zeta in H. rewrite Hr in H.
  destruct (length l =? 0); [done|].
  destruct (throws (trace s) (EvNew (length l * sizeof_T))).
  { injection H as ->. split; [done|]. by repeat split; try left. }
  destruct H as [H | (_ & tr' & H)]; [done|].
  injection H as ->. simpl.
  split; [by apply vector_at_new_block|]. split; [done|].
  split; [done | by right].
Qed.

(** X3: the move constructor Vector(Vector&&) gives the new vector the
    block, the capacity and the size of the source and leaves the source
    an empty vector with no block; it calls nothing: no element is
    constructed, assigned or destroyed and nothing is allocated or
    released. *)
Theorem X3_move_constructor other s buf cap l :
  vector_at s other buf cap l →
  ∃ s', Vector_move other s
        = Done (mkVector (mkRawMemory buf cap) (length l)) s'
        ∧ holds s' buf cap l
        ∧ vector_at s' other nullptr 0 []
        ∧ heap s' = heap s ∧ trace s' = trace s ∧ leaked s' = leaked s.
Proof.
  intros [Hobj Hh]. rewrite (Vector_move_eq s other _ Hobj).
  eexists. split; [done|]. simpl. split; [done|].
  split; [|done]. split; [simpl; by eapply objs_lookup_insert|].
  repeat split; simpl; done.
Qed.

(** X4: copy assignment between two different vectors, each with a
    block of its own, returns when nothing throws. Where it returns,
    the target holds the elements of the source, in order, in a block
    that is not the source's; the source is unchanged; the capacity of
    the target is the larger of its old capacity and the size of the
    source, and the target keeps its block when that capacity
    sufficed. *)
Theorem X4_copy_assignment this rhs s bufa capa la bufb capb lb :
  0 < sizeof_T → this ≠ rhs →
  vector_at s this bufa capa la → vector_at s rhs bufb capb lb →
  (∀ b, base bufa = Some b → base bufb ≠ Some b) →
  (quiet → ∃ s', assign_copy this rhs s = Done tt s')
  ∧ ∀ s', assign_copy this rhs s = Done tt s' →
      ∃ buf',
        vector_at s' this buf' (capa `max` length lb) lb
        ∧ vector_at s' rhs bufb capb lb
        ∧ (∀ b, base buf' = Some b → base bufb ≠ Some b)
        ∧ (length lb ≤ capa → buf' = bufa)
        ∧ leaked s' = leaked s
        ∧ ∀ i x, lb !! i = Some x →
            at_index this i s' = Done x s' ∧ at_index rhs i s' = Done x s'.
Proof.
  intros Hsz Hne Hva Hvb Hdis.
  destruct (assign_copy_outcome s this rhs bufa capa la bufb capb lb
              Hsz Hne Hva Hvb Hdis)
    as [(s1 & buf' & Hok & Hv1 & Hv2 & Hd & Hsame & Hlk)
       | (Hinj & s1 & k & Hthr & _)].
  - split; [eauto|]. intros s' Hr. rewrite Hok in Hr. injection Hr as <-.
    exists buf'. split; [done|]. split; [done|]. split; [done|].
    split; [done|]. split; [done|].
    intros i x Hi. split; by eapply at_index_eq.
  - split; [intros Hq; by destruct (quiet_not_injected Hq)|].
    intros s' Hr. by rewrite Hr in Hthr.
Qed.

(** X5: when copy assignment between two different vectors lets an
    exception escape, the source is unchanged, no object is left alive
    without an owner, and the target keeps its block, capacity and
    size; its first k elements are copies of the first k elements of
    the source and the others are as before, for some k up to the
    smaller size. When the target had to reallocate, k = 0: the target
    is unchanged. *)
Theorem X5_copy_assignment_failure this rhs s bufa capa la bufb capb lb :
  0 < sizeof_T → this ≠ rhs →
  vector_at s this bufa capa la → vector_at s rhs bufb capb lb →
  (∀ b, base bufa = Some b → base bufb ≠ Some b) →
  ∀ s', assign_copy this rhs s = Thrown s' →
    ∃ k, k ≤ length la `min` length lb
         ∧ (capa < length lb → k = 0)
         ∧ vector_at s' this bufa capa (take k lb ++ drop k la)
         ∧ vector_at s' rhs bufb capb lb
         ∧ leaked s' = leaked s.
Proof.
  intros Hsz Hne Hva Hvb Hdis s' Hr.
  destruct (assign_copy_outcome s this rhs bufa capa la bufb capb lb
              Hsz Hne Hva Hvb Hdis)
    as [(s1 & buf' & Hok & _) | (Hinj & s1 & k & Hthr & H)].
  - by rewrite Hr in Hok.
  - rewrite Hr in Hthr. injection Hthr as <-. by exists k.
Qed.

(** X6: move assignment between two different vectors gives the target
    the block, the capacity and the size of the source and leaves the
    source empty with no block. It calls nothing: the former elements
    of the target are not destroyed and its former block is not
    released; the block stays allocated with the elements alive, and
    when the target was the only vector that held it, no vector holds
    it afterwards. *)
Theorem X6_move_assignment this rhs s bufa capa la bufb capb lb :
  this ≠ rhs →
  vector_at s this bufa capa la → vector_at s rhs bufb capb lb →
  ∃ s', assign_move this rhs s = Done tt s'
        ∧ vector_at s' this bufb capb lb
        ∧ vector_at s' rhs nullptr 0 []
        ∧ heap s' = heap s ∧ trace s' = trace s ∧ leaked s' = leaked s
        ∧ holds s' bufa capa la
        ∧ ∀ ba, base bufa = Some ba →
            (∀ c v, c ≠ this → objs s !! c = Some v →
                    base (buffer_ (data_ v)) ≠ Some ba) →
            ∀ c v, objs s' !! c = Some v → base (buffer_ (data_ v)) ≠ Some ba.
Proof.
  intros Hne [Hobja Hha] [Hobjb Hhb].
  rewrite (assign_move_eq s this rhs _ _ Hne Hobja Hobjb).
  eexists. split; [done|]. cbn [data_ size_].
  split; [|split; [|split; [done|split; [done|split; [done|split; [done|]]]]]].
  - split; [|done]. simpl. rewrite list_lookup_insert_ne by done.
    by eapply objs_lookup_insert.
  - split; [|by repeat split]. simpl. apply list_lookup_insert_eq.
    rewrite length_insert. by eapply lookup_lt_Some.
  - intros ba Hba Hsole c v. simpl.
    destruct (decide (c = rhs)) as [-> | Hc1].
    { rewrite list_lookup_insert_eq
        by (rewrite length_insert; by eapply lookup_lt_Some).
      by intros [= <-]. }
    rewrite list_lookup_insert_ne by done.
    destruct (decide (c = this)) as [-> | Hc2].
    { rewrite list_lookup_insert_eq by (by eapply lookup_lt_Some).
      intros [= <-]. simpl.
      apply (Hsole rhs _ ltac:(done) Hobjb). }
    rewrite list_lookup_insert_ne by done. by apply Hsole.
Qed.

(** X7: Swap of two different vectors exchanges their blocks,
    capacities and sizes, so each holds the former elements of the
    other; it calls nothing: no element is constructed, assigned or
    destroyed and nothing is allocated or released; and a second Swap
    restores the state. *)
Theorem X7_swap this other s bufa capa la bufb capb lb :
  this ≠ other →
  vector_at s this bufa capa la → vector_at s other bufb capb lb →
  ∃ s', Swap this other s = Done tt s'
        ∧ vector_at s' this bufb capb lb
        ∧ vector_at s' other bufa capa la
        ∧ heap s' = heap s ∧ trace s' = trace s ∧ leaked s' = leaked s
        ∧ Swap this other s' = Done tt s.
Proof.
  intros Hne [Hobja Hha] [Hobjb Hhb].
  assert (Hlta : this < length (objs s)) by (by eapply lookup_lt_Some).
  assert (Hltb : other < length (objs s)) by (by eapply lookup_lt_Some).
  rewrite (Swap_eq s this other _ _ Hne Hobja Hobjb).
  eexists. split; [done|]. cbn [data_ size_].
  assert (H1 : (<[other := mkVector (mkRawMemory bufa capa) (length la)]>
                  (<[this := mkVector (mkRawMemory bufb capb) (length lb)]>
                     (objs s))) !! this
               = Some (mkVector (mkRawMemory bufb capb) (length lb))).
  { rewrite list_lookup_insert_ne by done. by apply list_lookup_insert_eq. }
  assert (H2 : (<[other := mkVector (mkRawMemory bufa capa) (length la)]>
                  (<[this := mkVector (mkRawMemory bufb capb) (length lb)]>
                     (objs s))) !! other
               = Some (mkVector (mkRawMemory bufa capa) (length la))).
  { apply list_lookup_insert_eq. by rewrite length_insert. }
  split; [by split|]. split; [by split|].
  split; [done|]. split; [done|]. split; [done|].
  erewrite Swap_eq; [ | done | exact H1 | exact H2 ].
  cbn [objs heap leaked trace data_ size_].
  rewrite insert_insert_back by done. by rewrite state_eta.
Qed.

(** X8: the destructor destroys the elements, each once, from the first
    to the last, and then releases the block; a vector with no block
    releases nothing. No object is left alive, and no other block
    changes. *)
Theorem X8_destructor this s buf cap l :
  0 < sizeof_T →
  vector_at s this buf cap l →
  ∃ s', Vector_delete this s = Done tt s'
        ∧ trace s' = trace s ++ (EvDtor <$> l) ++ release_events buf
        ∧ leaked s' = leaked s
        ∧ objs s' = objs s
        ∧ (∀ b, base buf = Some b → heap s' !! b = Some None)
        ∧ (∀ b, base buf ≠ Some b → heap s' !! b = heap s !! b)
        ∧ (base buf = None → release_events buf = []).
Proof.
  intros Hsz Hv. rewrite (Vector_delete_eq s this buf cap l Hsz Hv).
  eexists. split; [done|]. simpl. repeat split; try done.
  - intros b Hb. unfold release, update_old. rewrite Hb.
    apply list_lookup_insert_eq.
    destruct Hv as [_ Hh]. by eapply holds_base_lt.
  - intros b Hb. unfold release. by apply lookup_update_old_ne.
  - intros Hb. unfold release_events. by rewrite Hb.
Qed.

(** X9: begin() (and cbegin()) is the start of the block and end() (and
    cend()) is begin() + size(); the range between them has size()
    positions; reading position i of it gives element i; reading at
    end() is undefined. *)
Theorem X9_iterator_range this s buf cap l :
  vector_at s this buf cap l →
  begin this s = Done (buf +ₚ 0) s
  ∧ cbegin this s = Done (buf +ₚ 0) s
  ∧ end_ this s = Done (buf +ₚ length l) s
  ∧ cend this s = Done (buf +ₚ length l) s
  ∧ (b ← begin this; e ← end_ this; distance b e) s = Done (length l) s
  ∧ (∀ i x, l !! i = Some x → load (buf +ₚ 0 +ₚ i) s = Done x s)
  ∧ load (buf +ₚ length l) s = Undefined.
Proof.
  intros [Hobj Hh]. pose proof Hh as (Hle & _ & Hoff & Hblk).
  assert (Hb : begin this s = Done (buf +ₚ 0) s)
    by (by erewrite begin_eq by exact Hobj).
  assert (He : end_ this s = Done (buf +ₚ length l) s)
    by (by erewrite end_eq by (exact Hobj || done)).
  split; [done|]. split; [done|]. split; [done|]. split; [done|].
  split; [|split].
  - run. rewrite Hb. run. rewrite He. run.
    rewrite distance_eq by (simpl; (done || lia)). simpl. f_equal. lia.
  - intros i x Hi. rewrite ptr_add_0. by eapply load_element.
  - unfold load, slot_at. destruct buf as [[b|] o]; simpl in *; [|done].
    subst o. rewrite Hblk. simpl. unfold slots_of.
    rewrite lookup_app_r by (by rewrite length_fmap).
    rewrite length_fmap, Nat.sub_diag.
    by destruct (cap - length l).
Qed.

(** X10: Reserve returns when nothing throws; where it returns, the
    vector holds the same elements, in order, its capacity is the larger
    of the old capacity and the argument, and no object was left alive
    without an owner; for an argument up to the capacity the state is
    untouched. *)
Theorem X10_reserve_keeps_elements this s buf cap l n :
  0 < sizeof_T →
  vector_at s this buf cap l → size_t.fits (n * sizeof_T) →
  (quiet → ∃ s', Reserve this n s = Done tt s')
  ∧ ∀ s', Reserve this n s = Done tt s' →
      ∃ buf',
        vector_at s' this buf' (cap `max` n) l
        ∧ (n ≤ cap → s' = s)
        ∧ leaked s' = leaked s
        ∧ ∀ i x, l !! i = Some x → at_index this i s' = Done x s'.
Proof.
  intros Hsz Hv Hfits.
  destruct (Reserve_spec s this buf cap l n Hsz Hv Hfits)
    as [(s1 & buf' & Hok & Hv' & Hsame & Hlk) | (Hinj & Hfail)].
  - split; [eauto|]. intros s' Hr. rewrite Hok in Hr. injection Hr as <-.
    exists buf'. split; [done|]. split; [done|]. split; [done|].
    intros i x Hi. by eapply at_index_eq.
  - split; [intros Hq; by destruct (quiet_not_injected Hq)|].
    intros s' Hr. by rewrite Hr in Hfail.
Qed.

(** X11: Resize(n) returns when nothing throws; where it returns, the
    vector holds its first n elements when n is at most the size, and
    all its elements followed by value-initialised ones, n in all,
    otherwise; the capacity is the larger of the old capacity and n.
    Shrinking cannot fail: it destroys the elements from position n on,
    front to back, and touches nothing else. *)
Theorem X11_resize this s buf cap l n :
  0 < sizeof_T →
  vector_at s this buf cap l → size_t.fits (n * sizeof_T) →
  (quiet → ∃ s', Resize this n s = Done tt s')
  ∧ (∀ s', Resize this n s = Done tt s' →
       ∃ buf',
         vector_at s' this buf' (cap `max` n)
           (take n l ++ replicate (n - length l) value_init)
         ∧ (n ≤ cap → buf' = buf)
         ∧ leaked s' = leaked s)
  ∧ (n ≤ length l →
       ∃ s', Resize this n s = Done tt s'
             ∧ trace s' = trace s ++ (EvDtor <$> drop n l)
             ∧ length (heap s') = length (heap s)).
Proof.
  intros Hsz Hv Hfits. split; [|split].
  - intros Hq.
    destruct (Resize_outcome s this buf cap l n Hsz Hv Hfits)
      as [(s1 & buf' & Hok & _) | [(Hinj & _) | (_ & _ & Hinj & _)]];
      [eauto | |]; by destruct (quiet_not_injected Hq).
  - intros s' Hr.
    destruct (Resize_outcome s this buf cap l n Hsz Hv Hfits)
      as [(s1 & buf' & Hok & H) | [(_ & s1 & b1 & c1 & Hthr & _) | (_ & _ & _ & Hf)]].
    + rewrite Hok in Hr. injection Hr as <-. by exists buf'.
    + by rewrite Hr in Hthr.
    + by rewrite Hr in Hf.
  - intros Hn. rewrite (Resize_shrink s this buf cap l n Hsz Hv Hn).
    eexists. split; [done|]. simpl. split; [done|]. apply length_update_old.
Qed.

(** X12: when Resize lets an exception escape, for a type that is
    relocated by copy or whose move constructor cannot throw, the vector
    holds the elements it held, in order, with the same size, and no
    object is left alive without an owner; its capacity is the old one,
    or already the larger of the old one and the argument. *)
Theorem X12_resize_failure this s buf cap l n :
  0 < sizeof_T →
  vector_at s this buf cap l → size_t.fits (n * sizeof_T) →
  is_nothrow_move_constructible = true ∨ is_copy_constructible = true →
  ∀ s', Resize this n s = Thrown s' →
    ∃ buf' cap',
      vector_at s' this buf' cap' l
      ∧ leaked s' = leaked s
      ∧ (cap' = cap ∨ cap' = cap `max` n).
Proof.
  intros Hsz Hv Hfits Hty s' Hr.
  destruct (Resize_outcome s this buf cap l n Hsz Hv Hfits)
    as [(s1 & buf' & Hok & _)
       | [(_ & s1 & b1 & c1 & Hthr & H) | (Hm & Hnt & _)]].
  - by rewrite Hr in Hok.
  - rewrite Hr in Hthr. injection Hthr as <-. by exists b1, c1.
  - unfold relocate_by_move in Hm. rewrite Hnt in Hm, Hty. simpl in Hm.
    destruct Hty as [? | Hc]; [done|]. by rewrite Hc in Hm.
Qed.

(** X13: PopBack after EmplaceBack (or PushBack) brings the elements
    back: the vector holds the elements it held before the two calls,
    in order; the new element is the one destroyed; the capacity stays
    as the append left it. PopBack itself cannot fail here. *)
Theorem X13_push_pop_round_trip this s buf cap l x :
  0 < sizeof_T →
  vector_at s this buf cap l →
  size_t.fits (grown (length l) cap * sizeof_T) →
  (quiet → ∃ p s1, EmplaceBack this x s = Done p s1)
  ∧ ∀ p s1, EmplaceBack this x s = Done p s1 →
      ∃ s2 buf',
        PopBack this s1 = Done tt s2
        ∧ vector_at s2 this buf' (grown (length l) cap) l
        ∧ (length l < cap → buf' = buf)
        ∧ trace s2 = trace s1 ++ [EvDtor x]
        ∧ leaked s2 = leaked s.
Proof.
  intros Hsz Hv Hfits.
  destruct (EmplaceBack_spec s this buf cap l x Hsz Hv Hfits)
    as [(s1 & buf' & Hok & Hv' & Hsame & Hlk) | (Hinj & Hfail)].
  - split; [eauto|]. intros p s2 Hr. rewrite Hok in Hr.
    injection Hr as <- <-.
    rewrite (PopBack_spec s1 this buf' _ l x Hsz Hv').
    eexists _, buf'. split; [done|]. simpl.
    split; [|done].
    eapply vector_at_update; [exact Hv'|].
    destruct Hv' as [_ (Hle & _)]. rewrite length_snoc in Hle. lia.
  - split; [intros Hq; by destruct (quiet_not_injected Hq)|].
    intros p s1 Hr. by rewrite Hr in Hfail.
Qed.

(** X14: Erase at the iterator an Emplace (or Insert) returned brings
    the elements back: it returns when nothing throws, and where it
    returns the vector holds the elements it held before the two calls,
    in order, and Erase returned the same iterator. *)
Theorem X14_insert_erase_round_trip this s buf cap l k x :
  0 < sizeof_T →
  vector_at s this buf cap l → k ≤ length l →
  size_t.fits (grown (length l) cap * sizeof_T) →
  ∀ p s1, Emplace this (buf +ₚ k) x s = Done p s1 →
    (quiet → ∃ q s2, Erase this p s1 = Done q s2)
    ∧ ∀ q s2, Erase this p s1 = Done q s2 →
        q = p
        ∧ ∃ buf', vector_at s2 this buf' (grown (length l) cap) l
                  ∧ (length l < cap → buf' = buf)
                  ∧ leaked s2 = leaked s.
Proof.
  intros Hsz Hv Hk Hfits p s1 Hr.
  destruct (Emplace_spec s this buf cap l k x Hsz Hv Hk Hfits)
    as [(s1' & buf' & Hok & Hv' & Hsame & Hlk) | (_ & Hfail)];
    [|by rewrite Hr in Hfail].
  rewrite Hok in Hr. injection Hr as <- <-.
  destruct (take_drop_inserted l k x Hk) as [Hx Hl].
  destruct (Erase_spec s1' this buf' _ _ k x Hsz Hv' Hx) as [He | (Hinj & Hf)].
  - rewrite He. rewrite Hl. split; [eauto|].
    intros q s2 [= <- <-]. split; [done|]. exists buf'.
    split; [|done]. rewrite length_inserted by done. simpl.
    replace (length l - 0) with (length l) by lia.
    eapply vector_at_update; [exact Hv'|].
    destruct Hv' as [_ (Hle & _)]. rewrite length_inserted in Hle by done. lia.
  - split; [intros Hq; by destruct (quiet_not_injected Hq)|].
    intros q s2 Hr. by rewrite Hr in Hf.
Qed.

(** X15: Emplace at end() does what EmplaceBack does: both return when
    nothing throws, and where both return they give the same address
    and the same state, on the reallocating path and on the in-place
    path. *)
Theorem X15_emplace_at_end_is_emplace_back this s buf cap l x :
  0 < sizeof_T →
  vector_at s this buf cap l →
  size_t.fits (grown (length l) cap * sizeof_T) →
  (quiet → ∃ p s', EmplaceBack this x s = Done p s'
                   ∧ Emplace this (buf +ₚ length l) x s = Done p s')
  ∧ ∀ p s' q s'',
      EmplaceBack this x s = Done p s' →
      Emplace this (buf +ₚ length l) x s = Done q s'' →
      q = p ∧ s'' = s'.
Proof.
  intros Hsz Hv Hfits. unfold grown in Hfits.
  destruct (length l =? cap) eqn:Hfull.
  - apply Nat.eqb_eq in Hfull.
    destruct (growth_outcome_Done _ _ _ _ _ _ _
                (EmplaceBack_growth s this buf cap l x Hsz Hv Hfull Hfits))
      as [Hq1 Hd1].
    destruct (growth_outcome_Done _ _ _ _ _ _ _
                (Emplace_realloc s this buf cap l (length l) x Hsz Hv Hfull
                   ltac:(lia) Hfits))
      as [Hq2 Hd2].
    rewrite firstn_all, drop_all in Hq2, Hd2.
    split.
    + intros Hq. eexists _, _. split; [by apply Hq1 | by apply Hq2].
    + intros p s' q s'' H1 H2.
      destruct (Hd1 _ _ H1) as [-> ->]. destruct (Hd2 _ _ H2) as [-> ->]. done.
  - apply Nat.eqb_neq in Hfull.
    assert (Hlt : length l < cap) by (destruct Hv as [_ (? & _)]; lia).
    rewrite (EmplaceBack_in_place s this buf cap l x Hsz Hv Hlt).
    rewrite (Emplace_at_end s this buf cap l x Hsz Hv Hlt).
    split.
    + intros Hq. rewrite Hq. eauto.
    + intros p s' q s''. destruct (throws (trace s) (EvCtor x)); [done|].
      by intros [= <- <-] [= <- <-].
Qed.

(** X16: Emplace at end() of a vector with spare capacity, when the
    constructor of the new element throws. EmplaceBack lets the
    exception pass with the state untouched. Emplace runs its handler,
    which passes end() to operator delete: for an empty vector end() is
    the start of the block, the block is released, and the vector
    object still holds its address and capacity; for a vector with
    elements the call is undefined. *)
Theorem X16_emplace_at_end_throws this s buf cap l x :
  0 < sizeof_T →
  vector_at s this buf cap l → length l < cap →
  throws (trace s) (EvCtor x) = true →
  EmplaceBack this x s = Thrown s
  ∧ (l = [] →
       ∃ s', Emplace this (buf +ₚ 0) x s = Thrown s'
             ∧ objs s' = objs s
             ∧ capacity_of s' this = Some cap
             ∧ (∀ b, base buf = Some b → heap s' !! b = Some None)
             ∧ leaked s' = leaked s)
  ∧ (l ≠ [] → Emplace this (buf +ₚ length l) x s = Undefined).
Proof.
  intros Hsz Hv Hlt Hctor.
  rewrite (EmplaceBack_in_place s this buf cap l x Hsz Hv Hlt), Hctor.
  split; [done|].
  pose proof (Emplace_at_end s this buf cap l x Hsz Hv Hlt) as H.
  rewrite Hctor in H. split.
  - intros ->. simpl in H. rewrite H. eexists. split; [done|]. simpl.
    split; [done|].
    split; [unfold capacity_of; simpl; destruct Hv as [Hobj _]; by rewrite Hobj|].
    split; [|done].
    intros b Hb. unfold release, update_old. rewrite Hb.
    apply list_lookup_insert_eq. destruct Hv as [_ Hh].
    by eapply holds_base_lt.
  - intros Hl. rewrite H. destruct l; [done|]. done.
Qed.

(** X17: Erase at end() passes the assertion, which accepts every
    position from begin() to end(), and is then undefined: the range
    moved from starts one past end(). *)
Theorem X17_erase_at_end this s buf cap l :
  0 < sizeof_T →
  vector_at s this buf cap l →
  in_range this (buf +ₚ length l) s = Done true s
  ∧ Erase this (buf +ₚ length l) s = Undefined.
Proof.
  intros Hsz Hv. split; [|by eapply Erase_at_end].
  destruct Hv as [Hobj (Hle & _)].
  erewrite in_range_eq by (exact Hobj || done).
  by rewrite Nat.leb_refl.
Qed.

(** X18: a vector that owns the only allocated block, taken through any
    sequence of PushBack and PopBack calls that never pops an empty
    vector and then destroyed: the calls return when nothing throws,
    and where they return, no block is allocated any more and no object
    was left alive without an owner. Every block the vector allocated
    was released, and every element it built was destroyed. *)
Theorem X18_nothing_left_behind this s buf cap ops l :
  0 < sizeof_T →
  vector_at s this buf cap [] → sole_block s buf →
  after_ops [] ops = Some l →
  size_t.fits (2 * pushes ops * sizeof_T) →
  (quiet → ∃ s', (run_ops this ops;; Vector_delete this) s = Done tt s')
  ∧ ∀ s', (run_ops this ops;; Vector_delete this) s = Done tt s' →
      (∀ b blk, heap s' !! b ≠ Some (Some blk))
      ∧ leaked s' = leaked s.
Proof.
  intros Hsz Hv Hsole Hafter Hfits. split.
  - intros Hq.
    destruct (run_ops_spec this ops s buf cap [] l Hsz Hv Hafter Hfits)
      as [(s1 & buf1 & Hrun & Hv1 & _) | [Hinj _]];
      [|by destruct (quiet_not_injected Hq)].
    rewrite bind_unfold, Hrun.
    rewrite (Vector_delete_eq s1 this buf1 _ l Hsz Hv1). eauto.
  - intros s' Hr. apply bind_Done_inv in Hr as ([] & s1 & Hrun & Hdel).
    destruct (run_ops_sole this ops s buf cap [] l s1 Hsz Hv Hsole Hafter
                Hfits Hrun) as (buf1 & cap1 & Hv1 & Hsole1 & Hlk1).
    rewrite (Vector_delete_eq s1 this buf1 _ l Hsz Hv1) in Hdel.
    injection Hdel as <-. simpl. split; [|done].
    intros b blk Hb. unfold release, update_old in Hb.
    destruct (base buf1) as [b1|] eqn:Hbase.
    + destruct (decide (b = b1)) as [->|Hne].
      * rewrite list_lookup_insert_eq in Hb; [done|].
        destruct Hv1 as [_ Hh]. by eapply holds_base_lt.
      * rewrite list_lookup_insert_ne in Hb by done.
        specialize (Hsole1 b blk Hb). congruence.
    + specialize (Hsole1 b blk Hb). congruence.
Qed.

(** X19: Insert(pos, value) with a reference to an element of the same
    vector inserts the value that element had before the call, on the
    reallocating path and on the in-place path: the new element is
    built from the reference before any element is moved, so the call
    does what Insert does with that value. *)
Theorem X19_insert_own_element this s buf cap l k i x :
  0 < sizeof_T →
  vector_at s this buf cap l → k ≤ length l → l !! i = Some x →
  size_t.fits (grown (length l) cap * sizeof_T) →
  Insert_ref this (buf +ₚ k) (buf +ₚ i) s = Insert this (buf +ₚ k) x s
  ∧ (quiet → ∃ p s', Insert_ref this (buf +ₚ k) (buf +ₚ i) s = Done p s')
  ∧ ∀ p s', Insert_ref this (buf +ₚ k) (buf +ₚ i) s = Done p s' →
      ∃ buf',
        vector_at s' this buf' (grown (length l) cap)
                  (take k l ++ x :: drop k l)
        ∧ p = buf' +ₚ k
        ∧ load p s' = Done x s'.
Proof.
  intros Hsz Hv Hk Hi Hfits.
  assert (Hload : load (buf +ₚ i) s = Done x s).
  { destruct Hv as [_ Hh]. by eapply load_element. }
  assert (Heq : Insert_ref this (buf +ₚ k) (buf +ₚ i) s
                = Insert this (buf +ₚ k) x s).
  { unfold Insert_ref, Insert. by apply Emplace_ref_eq. }
  split; [done|]. rewrite Heq. unfold Insert.
  destruct (Emplace_spec s this buf cap l k x Hsz Hv Hk Hfits)
    as [(s1 & buf' & Hok & Hv' & _) | (Hinj & Hfail)].
  - split; [eauto|]. intros p s' Hr. rewrite Hok in Hr.
    injection Hr as <- <-. exists buf'. split; [done|]. split; [done|].
    destruct Hv' as [_ Hh]. eapply load_element; [exact Hh|].
    by apply take_drop_inserted.
  - split; [intros Hq; by destruct (quiet_not_injected Hq)|].
    intros p s' Hr. by rewrite Hr in Hfail.
Qed.

(** X20: PushBack(value) with a reference to an element of the same
    vector appends the value that element had before the call, also
    when the vector reallocates: the new element is built in the new
    block before the elements are relocated. *)
Theorem X20_push_back_own_element this s buf cap l i x :
  0 < sizeof_T →
  vector_at s this buf cap l → l !! i = Some x →
  size_t.fits (grown (length l) cap * sizeof_T) →
  PushBack_ref this (buf +ₚ i) s = PushBack this x s
  ∧ (quiet → ∃ s', PushBack_ref this (buf +ₚ i) s = Done tt s')
  ∧ ∀ s', PushBack_ref this (buf +ₚ i) s = Done tt s' →
      ∃ buf', vector_at s' this buf' (grown (length l) cap) (l ++ [x])
              ∧ at_index this (length l) s' = Done x s'.
Proof.
  intros Hsz Hv Hi Hfits.
  assert (Hload : load (buf +ₚ i) s = Done x s).
  { destruct Hv as [_ Hh]. by eapply load_element. }
  assert (Heq : PushBack_ref this (buf +ₚ i) s = PushBack this x s).
  { unfold PushBack_ref, PushBack. apply bind_congr.
    by apply EmplaceBack_ref_eq. }
  split; [done|]. rewrite Heq. unfold PushBack.
  destruct (EmplaceBack_spec s this buf cap l x Hsz Hv Hfits)
    as [(s1 & buf' & Hok & Hv' & _) | (Hinj & Hfail)].
  - rewrite bind_unfold, Hok. split; [eauto|].
    intros s' [= <-]. exists buf'. split; [done|].
    eapply at_index_eq; [exact Hv'|]. apply lookup_mid.
  - split; [intros Hq; by destruct (quiet_not_injected Hq)|].
    intros s' Hr. apply bind_Done_inv in Hr as (p & s1 & Hr & _).
    by rewrite Hr in Hfail.
Qed.

(** X21: RawMemory(n) with n > 0 asks operator new for n * sizeof(T)
    bytes computed in size_t, and records the capacity n. When the
    product fits in size_t the block has n slots; when it does not, the
    product wraps around and the block has fewer than n slots, but the
    capacity recorded is still n: the constructor does not check the
    multiplication. *)
Theorem X21_allocation_size n s :
  0 < sizeof_T → n ≠ 0 →
  throws (trace s) (EvNew (size_t.mul n sizeof_T)) = false →
  ∃ s1 slots,
    RawMemory_new n s
    = Done (mkRawMemory (mkPtr (Some (length (heap s))) 0) n) s1
    ∧ heap s1 = heap s ++ [Some (replicate slots None)]
    ∧ trace s1 = trace s ++ [EvNew (size_t.mul n sizeof_T)]
    ∧ (size_t.fits (n * sizeof_T) → slots = n)
    ∧ (¬ size_t.fits (n * sizeof_T) → slots < n).
Proof.
  intros Hsz Hn Hnew. unfold RawMemory_new, Allocate.
  rewrite (proj2 (Nat.eqb_neq _ _) Hn). unfold operator_new.
  rewrite bind_unfold, Hnew. cbv beta iota.
  eexists _, (size_t.mul n sizeof_T / sizeof_T).
  split; [done|]. simpl. split; [done|]. split; [done|]. split.
  - intros Hf. rewrite size_t_mul_fits by done. apply Nat.div_mul. lia.
  - intros Hf. apply Nat.Div0.div_lt_upper_bound.
    pose proof (size_t_mul_wraps n sizeof_T Hf). lia.
Qed.

(** X22: a RawMemory object is the only owner of its block. Its
    destructor releases the block, once; a second release of the same
    block would be undefined, and the move constructor, the move
    assignment and Swap keep it from happening: after a move the source
    holds the null pointer and capacity 0, and its destructor does
    nothing; Swap exchanges the two blocks. *)
Theorem X22_raw_memory_ownership n s d s1 :
  0 < sizeof_T → n ≠ 0 → size_t.fits (n * sizeof_T) →
  RawMemory_new n s = Done d s1 →
  capacity_ d = n
  ∧ (∀ k, k ≤ n → RawMemory_plus d k s1 = Done (buffer_ d +ₚ k) s1)
  ∧ (∀ k, n < k → RawMemory_plus d k s1 = AssertFailed)
  ∧ (∃ s2, RawMemory_delete d s1 = Done tt s2
           ∧ heap s2 = heap s ++ [None] ∧ leaked s2 = leaked s
           ∧ RawMemory_delete d s2 = Undefined)
  ∧ RawMemory_move d = (d, mkRawMemory nullptr 0)
  ∧ (∀ d0, RawMemory_assign_move true d0 d = (d, mkRawMemory nullptr 0))
  ∧ (∀ d0, RawMemory_Swap d0 d = (d, d0))
  ∧ (∀ s', RawMemory_delete (mkRawMemory nullptr 0) s' = Done tt s').
Proof.
  intros Hsz Hn Hfits Hnew.
  rewrite RawMemory_new_eq in Hnew by done.
  destruct (throws (trace s) (EvNew (n * sizeof_T))); [done|].
  injection Hnew as <- <-. cbn [capacity_ buffer_].
  split; [done|]. split; [|split; [|split; [|split; [done|split; [done|split]]]]].
  - intros k Hk. by rewrite RawMemory_plus_eq.
  - intros k Hk. unfold RawMemory_plus. rewrite bind_unfold, assert_eq.
    by rewrite (proj2 (Nat.leb_gt _ _)) by (simpl; lia).
  - pose proof (release_new_block s n (trace s ++ [EvNew (n * sizeof_T)])) as H.
    rewrite H. eexists. split; [done|]. simpl. split; [done|]. split; [done|].
    unfold RawMemory_delete, Deallocate, operator_delete. simpl.
    by rewrite lookup_new_block.
  - intros [b c]. done.
  - intros s'. unfold RawMemory_delete, Deallocate, operator_delete. done.
Qed.

(** X23: the copy constructor copies the elements of the source, each
    once, from the first to the last, into a block of its own: the
    block is new, so later changes to either vector leave the elements
    of the other as they are; every block that existed is untouched;
    for an empty source nothing is allocated and nothing is called. *)
Theorem X23_copy_is_independent other s buf cap l :
  0 < sizeof_T →
  vector_at s other buf cap l →
  ∀ v s', Vector_copy other s = Done v s' →
    (l = [] → v = Vector_default ∧ s' = s)
    ∧ (l ≠ [] →
         buffer_ (data_ v) = mkPtr (Some (length (heap s))) 0
         ∧ base (buffer_ (data_ v)) ≠ base buf
         ∧ heap s' = heap s ++ [Some (Some <$> l)]
         ∧ trace s' = trace s ++ [EvNew (length l * sizeof_T)]
                        ++ (EvCopyCtor <$> l)).
Proof.
  intros Hsz Hv v s' Hr.
  pose proof (Vector_copy_outcome s other buf cap l Hsz Hv) as H.
  cbv zeta in H. rewrite Hr in H.
  destruct (length l =? 0) eqn:Hn.
  { apply Nat.eqb_eq in Hn. destruct l; [|done].
    injection H as -> ->. by split. }
  apply Nat.eqb_neq in Hn.
  split; [by intros ->|]. intros _.
  destruct (throws (trace s) (EvNew (length l * sizeof_T))); [done|].
  destruct H as [H | (_ & tr' & H)]; [|done].
  injection H as -> ->. simpl. split; [done|]. split; [|done].
  intros Hb. destruct Hv as [_ Hh].
  pose proof (holds_base_lt _ _ _ _ _ Hh (eq_sym Hb)). lia.
Qed.

End AdvancedVector.

(** * Concrete scenarios

    The element type is [nat], four bytes wide; a moved-from number is 0
    and [T()] is 0. One vector lives at address 0 and owns block 0. *)

Definition moved_nat (x : nat) : nat := 0.

(** Oracles: no call throws; the copy constructor throws on the value 7;
    the constructor from arguments throws when it would build 9. *)
Definition never : list (@Event nat) → @Event nat → bool := λ _ _, false.

Definition copy_of_7 : list (@Event nat) → @Event nat → bool :=
  λ _ e, match e with EvCopyCtor 7 => true | _ => false end.

Definition ctor_of_9 : list (@Event nat) → @Event nat → bool :=
  λ _ e, match e with EvCtor 9 => true | _ => false end.

Definition block0 : Ptr := mkPtr (Some 0) 0.

(** The state with one vector, of capacity [cap] and elements [l]. *)
Definition vec (cap : nat) (l : list nat) : State :=
  mkState [mkVector (mkRawMemory block0 cap) (length l)]
          [Some (slots_of l cap)] [] [].

(** The state with one default-constructed vector. *)
Definition fresh : @State nat := mkState [Vector_default] [] [] [].

Lemma never_quiet : quiet never.
Proof. by intros h e. Qed.

(** ** The claims at concrete inputs *)

(** C1 at the full vector [7] of capacity 1, when the copy constructor
    throws on 7: Reserve(2) and EmplaceBack(8) leave the vector as it was
    and release the new block, block 1; after Reserve nothing is alive in
    it, after EmplaceBack the new element 8 is. *)
Lemma C1_failure_during_growth_witness :
  vector_at 4 (vec 1 [7]) 0 block0 1 [7]
  ∧ (∃ s', Reserve moved_nat false true 4 copy_of_7 0 2 (vec 1 [7]) = Thrown s'
           ∧ vector_at 4 s' 0 block0 1 [7]
           ∧ heap s' = [Some [Some 7]; None] ∧ leaked s' = [])
  ∧ (∃ s', EmplaceBack moved_nat false true 4 copy_of_7 0 8 (vec 1 [7]) = Thrown s'
           ∧ vector_at 4 s' 0 block0 1 [7]
           ∧ heap s' = [Some [Some 7]; None] ∧ leaked s' = [8]).
Proof.
  assert (Hv : vector_at 4 (vec 1 [7]) 0 block0 1 [7])
    by (repeat split; simpl; lia).
  split; [exact Hv|].
  destruct (C1_failure_during_growth moved_nat false true 4 copy_of_7 0
              (vec 1 [7]) block0 1 [7]) as (HR & HB & _);
    [lia | exact Hv | reflexivity |].
  split.
  - eexists. split; [vm_compute; reflexivity|].
    destruct (HR 2 _ ltac:(lia) ltac:(reflexivity)
                ltac:(vm_compute; reflexivity)) as (Hv' & Hlk & Hheap).
    split; [exact Hv' | split; [exact Hheap | exact Hlk]].
  - eexists. split; [vm_compute; reflexivity|].
    destruct (HB 8 _ ltac:(reflexivity) ltac:(reflexivity)
                ltac:(vm_compute; reflexivity)) as (Hv' & Hheap & Hlk).
    split; [exact Hv' | split; [exact Hheap | exact Hlk]].
Defined.

(** C2 at the vector [1; 2; 3] of capacity 4, inserting at offset 1 a
    value whose construction throws. *)
Lemma C2_staged_construction_throws_witness :
  vector_at 4 (vec 4 [1; 2; 3]) 0 block0 4 [1; 2; 3]
  ∧ ctor_of_9 [] (EvCtor 9) = true
  ∧ InsertWithoutReallocating moved_nat false ctor_of_9 0 (block0 +ₚ 1) 1 9
      (vec 4 [1; 2; 3]) = Thrown (vec 4 [1; 2; 3])
  ∧ Emplace moved_nat false true 4 ctor_of_9 0 (block0 +ₚ 1) 9 (vec 4 [1; 2; 3])
    = Undefined.
Proof.
  assert (Hv : vector_at 4 (vec 4 [1; 2; 3]) 0 block0 4 [1; 2; 3])
    by (repeat split; simpl; lia).
  split; [exact Hv|]. split; [reflexivity|].
  destruct (C2_staged_construction_throws moved_nat false true 4 ctor_of_9 0
              (vec 4 [1; 2; 3]) block0 4 [1; 2; 3] 1 9) as (H1 & _ & H3);
    [lia | exact Hv | simpl; lia | simpl; lia | reflexivity |].
  split; [exact H1 | exact H3].
Defined.

(** C3, as stated, at the vector [5] of capacity 2: operator[](1), with
    1 >= size(), passes the check and gives the address of slot 1, which
    holds no element; Erase(end()) passes the check too, and what follows
    is undefined. *)
Lemma C3_contract_checks_counterexample :
  vector_at 4 (vec 2 [5]) 0 block0 2 [5]
  ∧ Vector_index 0 1 (vec 2 [5]) = Done (block0 +ₚ 1) (vec 2 [5])
  ∧ load (block0 +ₚ 1) (vec 2 [5]) = Undefined
  ∧ Erase moved_nat never 0 (block0 +ₚ 1) (vec 2 [5]) = Undefined
  ∧ Erase moved_nat never 0 (block0 +ₚ 1) (vec 2 [5]) ≠ AssertFailed.
Proof.
  split; [repeat split; simpl; lia|].
  split; [reflexivity|]. split; [reflexivity|]. split; [reflexivity|].
  discriminate.
Qed.

(** C3 (amended) at the vector [5] of capacity 2 and at an empty
    vector. *)
Lemma C3_contract_checks_witness :
  vector_at 4 (vec 2 [5]) 0 block0 2 [5]
  ∧ Vector_index 0 2 (vec 2 [5]) = AssertFailed
  ∧ Emplace moved_nat false true 4 never 0 (block0 +ₚ 2) 9 (vec 2 [5])
    = AssertFailed
  ∧ Erase moved_nat never 0 (block0 +ₚ 2) (vec 2 [5]) = AssertFailed
  ∧ PopBack 0 fresh = AssertFailed.
Proof.
  assert (Hv : vector_at 4 (vec 2 [5]) 0 block0 2 [5])
    by (repeat split; simpl; lia).
  split; [exact Hv|].
  destruct (C3_contract_checks moved_nat false true 4 never 0 (vec 2 [5])
              block0 2 [5] Hv) as (Hi & _ & He & _ & Hr & _).
  destruct (C3_contract_checks moved_nat false true 4 never 0 fresh
              nullptr 0 []) as (_ & _ & _ & _ & _ & Hp);
    [repeat split; simpl; lia|].
  split; [apply Hi; lia|]. split; [apply He; simpl; lia|].
  split; [apply Hr; simpl; lia | apply Hp; reflexivity].
Defined.

(** The state with a vector [1; 2] of capacity 2 at address 0 and a
    default-constructed vector at address 1. *)
Definition two_vectors : @State nat :=
  mkState [mkVector (mkRawMemory block0 2) 2; Vector_default]
          [Some [Some 1; Some 2]] [] [].

Lemma smallest_doubling_4 : smallest_doubling 4 4.
Proof.
  exists 2. split; [done|]. split; [done|].
  intros [|[|e']]; simpl; lia.
Qed.

Lemma smallest_doubling_0 : smallest_doubling 0 1.
Proof. exists 0. split; [done|]. split; lia. Qed.

Lemma not_doubling_6 : ¬ smallest_doubling 4 6.
Proof.
  intros (e & He & _). destruct e as [|[|[|e]]]; simpl in He; lia.
Qed.

(** C4, as stated: Swap and move assignment with a default-constructed
    vector lower the capacity from 2 to 0; after no PushBack at all the
    capacity of a default-constructed vector is 0, and the smallest of
    1, 2, 4, ... that is at least 0 is 1; four PushBack calls on an
    empty vector whose capacity Reserve made 3 give the capacity 6, and
    the smallest of 1, 2, 4, ... that is at least 4 is 4. *)
Lemma C4_capacity_counterexample :
  (capacity_of two_vectors 0 = Some 2
   ∧ (∃ s', Swap 0 1 two_vectors = Done () s' ∧ capacity_of s' 0 = Some 0)
   ∧ (∃ s', assign_move 0 1 two_vectors = Done () s'
            ∧ capacity_of s' 0 = Some 0))
  ∧ (run_ops moved_nat false true 4 never 0 [] fresh = Done () fresh
     ∧ size_of fresh 0 = Some 0 ∧ capacity_of fresh 0 = Some 0
     ∧ smallest_doubling 0 1)
  ∧ (∃ s1 s2,
       Reserve moved_nat false true 4 never 0 3 fresh = Done () s1
       ∧ size_of s1 0 = Some 0
       ∧ run_ops moved_nat false true 4 never 0 (Push <$> [1; 2; 3; 4]) s1
         = Done () s2
       ∧ capacity_of s2 0 = Some 6
       ∧ smallest_doubling 4 4 ∧ ¬ smallest_doubling 4 6).
Proof.
  split; [|split].
  - split; [reflexivity|].
    split; eexists; (split; [vm_compute; reflexivity | reflexivity]).
  - split; [reflexivity|]. split; [reflexivity|]. split; [reflexivity|].
    exact smallest_doubling_0.
  - eexists _, _. split; [vm_compute; reflexivity|]. split; [reflexivity|].
    split; [vm_compute; reflexivity|]. split; [reflexivity|].
    split; [exact smallest_doubling_4 | exact not_doubling_6].
Qed.

(** C4 (amended) at a default-constructed vector and three PushBack
    calls, and at the vector [1; 2; 3] of capacity 4 for PopBack. *)
Lemma C4_capacity_witness :
  vector_at 4 fresh 0 nullptr 0 []
  ∧ (∃ s', run_ops moved_nat false true 4 never 0 (Push <$> [1; 2; 3]) fresh
           = Done () s'
           ∧ capacity_of s' 0 = Some 4 ∧ smallest_doubling 3 4)
  ∧ (∃ s', PopBack 0 (vec 4 [1; 2; 3]) = Done () s'
           ∧ capacity_of s' 0 = Some 4).
Proof.
  assert (Hv : vector_at 4 fresh 0 nullptr 0 [])
    by (repeat split; simpl; lia).
  split; [exact Hv|]. split.
  - destruct (C4_capacity moved_nat 0 false true 4 never 0 fresh nullptr 0 [])
      as (_ & _ & _ & _ & _ & _ & _ & H); [lia | exact Hv |].
    destruct (H [1; 2; 3]) as [_ Hd];
      [reflexivity | simpl; lia | reflexivity |].
    eexists. split; [vm_compute; reflexivity|].
    destruct (Hd _ ltac:(vm_compute; reflexivity)) as (c & Hc & Hs).
    vm_compute in Hc. injection Hc as <-. split; [reflexivity | exact Hs].
  - destruct (C4_capacity moved_nat 0 false true 4 never 0 (vec 4 [1; 2; 3])
                block0 4 [1; 2; 3]) as (H & _);
      [lia | repeat split; simpl; lia |].
    eexists. split; [vm_compute; reflexivity|].
    apply H. vm_compute. reflexivity.
Defined.

(** C5 at the vector [1; 2; 3] of capacity 4, inserting 9 at offset 1
    (in place), and at the full vector [1; 2] of capacity 2, inserting 9
    at offset 1 (with reallocation). *)
Lemma C5_insert_at_offset_witness :
  vector_at 4 (vec 4 [1; 2; 3]) 0 block0 4 [1; 2; 3]
  ∧ (∃ s', Emplace moved_nat false true 4 never 0 (block0 +ₚ 1) 9
             (vec 4 [1; 2; 3]) = Done (block0 +ₚ 1) s'
           ∧ vector_at 4 s' 0 block0 4 [1; 9; 2; 3]
           ∧ load (block0 +ₚ 1) s' = Done 9 s')
  ∧ (∃ s' buf', Emplace moved_nat false true 4 never 0 (block0 +ₚ 1) 9
                  (vec 2 [1; 2]) = Done (buf' +ₚ 1) s'
                ∧ vector_at 4 s' 0 buf' 4 [1; 9; 2]).
Proof.
  assert (Hv : vector_at 4 (vec 4 [1; 2; 3]) 0 block0 4 [1; 2; 3])
    by (repeat split; simpl; lia).
  split; [exact Hv|]. split.
  - destruct (C5_insert_at_offset moved_nat false true 4 never 0
                (vec 4 [1; 2; 3]) block0 4 [1; 2; 3] 1 9) as (Hq & Hd & _);
      [lia | exact Hv | simpl; lia | reflexivity |].
    destruct (Hq never_quiet) as (p & s' & Hr).
    destruct (Hd p s' Hr) as (buf' & Hv' & _ & Hp & _ & Hload & Hsame).
    rewrite (Hsame ltac:(simpl; lia)) in Hp, Hv'. subst p.
    exists s'. split; [exact Hr | split; [exact Hv' | exact Hload]].
  - destruct (C5_insert_at_offset moved_nat false true 4 never 0
                (vec 2 [1; 2]) block0 2 [1; 2] 1 9) as (Hq & Hd & _);
      [lia | repeat split; simpl; lia | simpl; lia | reflexivity |].
    destruct (Hq never_quiet) as (p & s' & Hr).
    destruct (Hd p s' Hr) as (buf' & Hv' & _ & Hp & _).
    subst p. exists s', buf'. split; [exact Hr | exact Hv'].
Defined.

(** C6 at the vector [1; 2; 3] of capacity 4, erasing at offset 1. *)
Lemma C6_erase_at_offset_witness :
  vector_at 4 (vec 4 [1; 2; 3]) 0 block0 4 [1; 2; 3]
  ∧ ∃ s', Erase moved_nat never 0 (block0 +ₚ 1) (vec 4 [1; 2; 3])
          = Done (block0 +ₚ 1) s'
          ∧ vector_at 4 s' 0 block0 4 [1; 3]
          ∧ capacity_of s' 0 = Some 4
          ∧ trace s' = [EvMoveAssign 2 3; EvDtor 0].
Proof.
  assert (Hv : vector_at 4 (vec 4 [1; 2; 3]) 0 block0 4 [1; 2; 3])
    by (repeat split; simpl; lia).
  split; [exact Hv|].
  destruct (C6_erase_at_offset moved_nat 4 never 0 (vec 4 [1; 2; 3]) block0 4
              [1; 2; 3] 1 2) as (Hq & Hd); [lia | exact Hv | reflexivity |].
  destruct (Hq never_quiet) as (p & s' & Hr).
  destruct (Hd p s' Hr) as (Hv' & _ & Hcap & Hp & Htr & _).
  subst p. exists s'.
  split; [exact Hr | split; [exact Hv' | split; [exact Hcap | exact Htr]]].
Defined.


(** C8 at the full vector [7] of capacity 1. Reserve(2): for a type
    with a move constructor that may throw and a copy constructor the
    element is copied; for a type with a move constructor that cannot
    throw it is moved. EmplaceBack(9) for the second type and Emplace
    of 9 at begin() for the first: the same, after the constructor of
    9. Each time the elements end up in the new block. *)
Lemma C8_relocation_dispatch_witness :
  vector_at 4 (vec 1 [7]) 0 block0 1 [7]
  ∧ (∃ s', Reserve moved_nat false true 4 never 0 2 (vec 1 [7]) = Done () s'
           ∧ trace s' = [EvNew 8; EvCopyCtor 7; EvDtor 7; EvDelete 0]
           ∧ heap s' = [None; Some [Some 7; None]]
           ∧ vector_at 4 s' 0 (mkPtr (Some 1) 0) 2 [7])
  ∧ (∃ s', Reserve moved_nat true true 4 never 0 2 (vec 1 [7]) = Done () s'
           ∧ trace s' = [EvNew 8; EvMoveCtor 7; EvDtor 0; EvDelete 0]
           ∧ heap s' = [None; Some [Some 7; None]]
           ∧ vector_at 4 s' 0 (mkPtr (Some 1) 0) 2 [7])
  ∧ (∃ p s', EmplaceBack moved_nat true true 4 never 0 9 (vec 1 [7])
             = Done p s'
             ∧ trace s' = [EvNew 8; EvCtor 9; EvMoveCtor 7; EvDtor 0;
                           EvDelete 0]
             ∧ heap s' = [None; Some [Some 7; Some 9]]
             ∧ vector_at 4 s' 0 (mkPtr (Some 1) 0) 2 [7; 9])
  ∧ (∃ p s', Emplace moved_nat false true 4 never 0 (block0 +ₚ 0) 9
               (vec 1 [7]) = Done p s'
             ∧ trace s' = [EvNew 8; EvCtor 9; EvCopyCtor 7; EvDtor 7;
                           EvDelete 0]
             ∧ heap s' = [None; Some [Some 9; Some 7]]
             ∧ vector_at 4 s' 0 (mkPtr (Some 1) 0) 2 [9; 7]).
Proof.
  assert (Hv : vector_at 4 (vec 1 [7]) 0 block0 1 [7])
    by (repeat split; simpl; lia).
  split; [exact Hv|]. split; [|split; [|split]].
  - destruct (C8_relocation_dispatch moved_nat false true 4 never 0
                (vec 1 [7]) block0 1 [7]) as (_ & HR & _); [lia | exact Hv |].
    destruct (HR 2) as [Hq Hd]; [lia | reflexivity |].
    destruct (Hq never_quiet) as (s' & Hr).
    destruct (Hd s' Hr) as (Htr & Hheap & Hv' & _).
    exists s'. split; [exact Hr|]. split; [exact Htr|].
    split; [exact Hheap | exact Hv'].
  - destruct (C8_relocation_dispatch moved_nat true true 4 never 0
                (vec 1 [7]) block0 1 [7]) as (_ & HR & _); [lia | exact Hv |].
    destruct (HR 2) as [Hq Hd]; [lia | reflexivity |].
    destruct (Hq never_quiet) as (s' & Hr).
    destruct (Hd s' Hr) as (Htr & Hheap & Hv' & _).
    exists s'. split; [exact Hr|]. split; [exact Htr|].
    split; [exact Hheap | exact Hv'].
  - destruct (C8_relocation_dispatch moved_nat true true 4 never 0
                (vec 1 [7]) block0 1 [7]) as (_ & _ & HB & _);
      [lia | exact Hv |].
    destruct (HB 9) as [Hq Hd]; [reflexivity | reflexivity |].
    destruct (Hq never_quiet) as (p & s' & Hr).
    destruct (Hd p s' Hr) as (Htr & Hheap & Hv' & _).
    exists p, s'. split; [exact Hr|]. split; [exact Htr|].
    split; [exact Hheap | exact Hv'].
  - destruct (C8_relocation_dispatch moved_nat false true 4 never 0
                (vec 1 [7]) block0 1 [7]) as (_ & _ & _ & HE);
      [lia | exact Hv |].
    destruct (HE 0 9) as [Hq Hd]; [reflexivity | simpl; lia | reflexivity |].
    destruct (Hq never_quiet) as (p & s' & Hr).
    destruct (Hd p s' Hr) as (Htr & Hheap & Hv' & _).
    exists p, s'. split; [exact Hr|]. split; [exact Htr|].
    split; [exact Hheap | exact Hv'].
Defined.

(** C10 at the vector [1; 2; 3] of capacity 4: the copy has capacity 3. *)
Lemma C10_copy_constructor_witness :
  vector_at 4 (vec 4 [1; 2; 3]) 0 block0 4 [1; 2; 3]
  ∧ ∃ v s', Vector_copy 4 never 0 (vec 4 [1; 2; 3]) = Done v s'
            ∧ size_ v = 3 ∧ capacity_ (data_ v) = 3
            ∧ load (buffer_ (data_ v) +ₚ 0) s' = Done 1 s'
            ∧ load (buffer_ (data_ v) +ₚ 1) s' = Done 2 s'
            ∧ load (buffer_ (data_ v) +ₚ 2) s' = Done 3 s'.
Proof.
  assert (Hv : vector_at 4 (vec 4 [1; 2; 3]) 0 block0 4 [1; 2; 3])
    by (repeat split; simpl; lia).
  split; [exact Hv|].
  destruct (C10_copy_constructor 4 never 0 (vec 4 [1; 2; 3]) block0 4
              [1; 2; 3]) as (Hq & Hd); [lia | exact Hv |].
  destruct (Hq never_quiet) as (v & s' & Hr).
  destruct (Hd v s' Hr) as (Hsize & Hcap & _ & Hload & _).
  exists v, s'. split; [exact Hr|]. split; [exact Hsize|].
  split; [exact Hcap|]. repeat split; apply Hload; reflexivity.
Defined.

(** ** The further properties at concrete inputs *)

Definition block1 : Ptr := mkPtr (Some 1) 0.

(** The state with two vectors: at address 0 one of capacity [capa] and
    elements [la] in block 0, at address 1 one of capacity [capb] and
    elements [lb] in block 1. *)
Definition pair_of (capa : nat) (la : list nat) (capb : nat) (lb : list nat)
  : State :=
  mkState [mkVector (mkRawMemory block0 capa) (length la);
           mkVector (mkRawMemory block1 capb) (length lb)]
          [Some (slots_of la capa); Some (slots_of lb capb)] [] [].

(** More oracles: the copy assignment throws when it assigns the value
    8; the default constructor throws once two calls have been made. *)
Definition assign_of_8 : list (@Event nat) → @Event nat → bool :=
  λ _ e, match e with EvCopyAssign _ 8 => true | _ => false end.

Definition late_value_ctor : list (@Event nat) → @Event nat → bool :=
  λ h e, match e with EvValueCtor => 2 <=? length h | _ => false end.


(** X2 at the vector [6; 7] when the copy constructor throws on 7. *)
Lemma X2_copy_constructor_failure_witness :
  vector_at 4 (vec 2 [6; 7]) 0 block0 2 [6; 7]
  ∧ ∃ s', Vector_copy 4 copy_of_7 0 (vec 2 [6; 7]) = Thrown s'
          ∧ vector_at 4 s' 0 block0 2 [6; 7]
          ∧ heap s' = [Some [Some 6; Some 7]; None]
          ∧ leaked s' = []
          ∧ trace s' = [EvNew 8; EvCopyCtor 6; EvDtor 6; EvDelete 1].
Proof.
  assert (Hv : vector_at 4 (vec 2 [6; 7]) 0 block0 2 [6; 7])
    by (repeat split; simpl; lia).
  split; [exact Hv|].
  eexists. split; [vm_compute; reflexivity|].
  destruct (X2_copy_constructor_failure 4 copy_of_7 0 (vec 2 [6; 7]) block0 2
              [6; 7] ltac:(lia) Hv _ ltac:(vm_compute; reflexivity))
    as (Hv' & _ & Hlk & _).
  split; [exact Hv'|]. split; [reflexivity|]. split; [exact Hlk|]. reflexivity.
Defined.

(** X3 at the vector [1; 2; 3] of capacity 4. *)
Lemma X3_move_constructor_witness :
  vector_at 4 (vec 4 [1; 2; 3]) 0 block0 4 [1; 2; 3]
  ∧ ∃ s', Vector_move 0 (vec 4 [1; 2; 3])
          = Done (mkVector (mkRawMemory block0 4) 3) s'
          ∧ vector_at 4 s' 0 nullptr 0 []
          ∧ heap s' = [Some [Some 1; Some 2; Some 3; None]]
          ∧ trace s' = [].
Proof.
  assert (Hv : vector_at 4 (vec 4 [1; 2; 3]) 0 block0 4 [1; 2; 3])
    by (repeat split; simpl; lia).
  split; [exact Hv|].
  destruct (X3_move_constructor 4 0 (vec 4 [1; 2; 3]) block0 4 [1; 2; 3] Hv)
    as (s' & Hr & _ & Hv' & Hheap & Htr & _).
  exists s'. split; [exact Hr|]. split; [exact Hv'|].
  split; [exact Hheap | exact Htr].
Defined.

(** X4 at the vectors [1; 2; 3] (capacity 3) and [7; 8] (in place), and
    at the vectors [1] (capacity 1) and [7; 8] (with reallocation). *)
Lemma X4_copy_assignment_witness :
  vector_at 4 (pair_of 3 [1; 2; 3] 2 [7; 8]) 0 block0 3 [1; 2; 3]
  ∧ vector_at 4 (pair_of 3 [1; 2; 3] 2 [7; 8]) 1 block1 2 [7; 8]
  ∧ (∃ s', assign_copy 4 never 0 1 (pair_of 3 [1; 2; 3] 2 [7; 8]) = Done () s'
           ∧ vector_at 4 s' 0 block0 3 [7; 8]
           ∧ vector_at 4 s' 1 block1 2 [7; 8])
  ∧ (∃ s' buf', assign_copy 4 never 0 1 (pair_of 1 [1] 2 [7; 8]) = Done () s'
                ∧ vector_at 4 s' 0 buf' 2 [7; 8]
                ∧ vector_at 4 s' 1 block1 2 [7; 8]).
Proof.
  assert (Hva : vector_at 4 (pair_of 3 [1; 2; 3] 2 [7; 8]) 0 block0 3 [1; 2; 3])
    by (repeat split; simpl; lia).
  assert (Hvb : vector_at 4 (pair_of 3 [1; 2; 3] 2 [7; 8]) 1 block1 2 [7; 8])
    by (repeat split; simpl; lia).
  split; [exact Hva|]. split; [exact Hvb|]. split.
  - destruct (X4_copy_assignment 4 never 0 1 _ block0 3 [1; 2; 3] block1 2 [7; 8]
                ltac:(lia) ltac:(lia) Hva Hvb) as (Hq & Hd).
    { simpl. intros b [= <-]. discriminate. }
    destruct (Hq never_quiet) as (s' & Hr).
    destruct (Hd s' Hr) as (buf' & Hv1 & Hv2 & _ & Hsame & _).
    rewrite (Hsame ltac:(simpl; lia)) in Hv1.
    exists s'. split; [exact Hr|]. split; [exact Hv1 | exact Hv2].
  - destruct (X4_copy_assignment 4 never 0 1 (pair_of 1 [1] 2 [7; 8])
                block0 1 [1] block1 2 [7; 8]) as (Hq & Hd);
      [lia | lia | repeat split; simpl; lia | repeat split; simpl; lia | |].
    { simpl. intros b [= <-]. discriminate. }
    destruct (Hq never_quiet) as (s' & Hr).
    destruct (Hd s' Hr) as (buf' & Hv1 & Hv2 & _).
    exists s', buf'. split; [exact Hr|]. split; [exact Hv1 | exact Hv2].
Defined.

(** X5 at the vectors [1; 2; 3] and [7; 8] when assigning 8 throws: the
    first element was overwritten. *)
Lemma X5_copy_assignment_failure_witness :
  vector_at 4 (pair_of 3 [1; 2; 3] 2 [7; 8]) 0 block0 3 [1; 2; 3]
  ∧ vector_at 4 (pair_of 3 [1; 2; 3] 2 [7; 8]) 1 block1 2 [7; 8]
  ∧ ∃ s', assign_copy 4 assign_of_8 0 1 (pair_of 3 [1; 2; 3] 2 [7; 8])
          = Thrown s'
          ∧ vector_at 4 s' 0 block0 3 [7; 2; 3]
          ∧ vector_at 4 s' 1 block1 2 [7; 8]
          ∧ leaked s' = [].
Proof.
  assert (Hva : vector_at 4 (pair_of 3 [1; 2; 3] 2 [7; 8]) 0 block0 3 [1; 2; 3])
    by (repeat split; simpl; lia).
  assert (Hvb : vector_at 4 (pair_of 3 [1; 2; 3] 2 [7; 8]) 1 block1 2 [7; 8])
    by (repeat split; simpl; lia).
  split; [exact Hva|]. split; [exact Hvb|].
  eexists. split; [vm_compute; reflexivity|].
  destruct (X5_copy_assignment_failure 4 assign_of_8 0 1 _ block0 3 [1; 2; 3]
              block1 2 [7; 8] ltac:(lia) ltac:(lia) Hva Hvb
              ltac:(simpl; intros b [= <-]; discriminate)
              _ ltac:(vm_compute; reflexivity))
    as (k & _ & _ & _ & Hv2 & Hlk).
  split; [repeat split; simpl; lia|]. split; [exact Hv2 | exact Hlk].
Defined.

(** X6 at the vectors [1; 2] and [7]: after the move assignment block 0
    still holds 1 and 2, and no vector holds block 0. *)
Lemma X6_move_assignment_witness :
  vector_at 4 (pair_of 2 [1; 2] 1 [7]) 0 block0 2 [1; 2]
  ∧ vector_at 4 (pair_of 2 [1; 2] 1 [7]) 1 block1 1 [7]
  ∧ ∃ s', assign_move 0 1 (pair_of 2 [1; 2] 1 [7]) = Done () s'
          ∧ vector_at 4 s' 0 block1 1 [7]
          ∧ vector_at 4 s' 1 nullptr 0 []
          ∧ heap s' = [Some [Some 1; Some 2]; Some [Some 7]]
          ∧ trace s' = []
          ∧ ∀ c v, objs s' !! c = Some v → base (buffer_ (data_ v)) ≠ Some 0.
Proof.
  assert (Hva : vector_at 4 (pair_of 2 [1; 2] 1 [7]) 0 block0 2 [1; 2])
    by (repeat split; simpl; lia).
  assert (Hvb : vector_at 4 (pair_of 2 [1; 2] 1 [7]) 1 block1 1 [7])
    by (repeat split; simpl; lia).
  split; [exact Hva|]. split; [exact Hvb|].
  destruct (X6_move_assignment 4 0 1 _ block0 2 [1; 2] block1 1 [7]
              ltac:(lia) Hva Hvb)
    as (s' & Hr & Hv1 & Hv2 & Hheap & Htr & _ & _ & Hsole).
  exists s'. split; [exact Hr|]. split; [exact Hv1|]. split; [exact Hv2|].
  split; [exact Hheap|]. split; [exact Htr|].
  apply (Hsole 0 eq_refl). intros [|[|c]] v Hc Hv; [lia | | discriminate].
  injection Hv as <-. discriminate.
Defined.

(** X7 at the vectors [1; 2] and [7]. *)
Lemma X7_swap_witness :
  vector_at 4 (pair_of 2 [1; 2] 1 [7]) 0 block0 2 [1; 2]
  ∧ vector_at 4 (pair_of 2 [1; 2] 1 [7]) 1 block1 1 [7]
  ∧ ∃ s', Swap 0 1 (pair_of 2 [1; 2] 1 [7]) = Done () s'
          ∧ vector_at 4 s' 0 block1 1 [7]
          ∧ vector_at 4 s' 1 block0 2 [1; 2]
          ∧ Swap 0 1 s' = Done () (pair_of 2 [1; 2] 1 [7]).
Proof.
  assert (Hva : vector_at 4 (pair_of 2 [1; 2] 1 [7]) 0 block0 2 [1; 2])
    by (repeat split; simpl; lia).
  assert (Hvb : vector_at 4 (pair_of 2 [1; 2] 1 [7]) 1 block1 1 [7])
    by (repeat split; simpl; lia).
  split; [exact Hva|]. split; [exact Hvb|].
  destruct (X7_swap 4 0 1 _ block0 2 [1; 2] block1 1 [7] ltac:(lia) Hva Hvb)
    as (s' & Hr & Hv1 & Hv2 & _ & _ & _ & Hback).
  exists s'. split; [exact Hr|]. split; [exact Hv1|].
  split; [exact Hv2 | exact Hback].
Defined.

(** X8 at the vector [1; 2; 3] of capacity 4. *)
Lemma X8_destructor_witness :
  vector_at 4 (vec 4 [1; 2; 3]) 0 block0 4 [1; 2; 3]
  ∧ ∃ s', Vector_delete 0 (vec 4 [1; 2; 3]) = Done () s'
          ∧ trace s' = [EvDtor 1; EvDtor 2; EvDtor 3; EvDelete 0]
          ∧ heap s' !! 0 = Some None
          ∧ leaked s' = [].
Proof.
  assert (Hv : vector_at 4 (vec 4 [1; 2; 3]) 0 block0 4 [1; 2; 3])
    by (repeat split; simpl; lia).
  split; [exact Hv|].
  destruct (X8_destructor 4 0 (vec 4 [1; 2; 3]) block0 4 [1; 2; 3]
              ltac:(lia) Hv) as (s' & Hr & Htr & Hlk & _ & Hb & _).
  exists s'. split; [exact Hr|]. split; [exact Htr|].
  split; [apply Hb; reflexivity | exact Hlk].
Defined.

(** X9 at the vector [1; 2; 3] of capacity 4. *)
Lemma X9_iterator_range_witness :
  vector_at 4 (vec 4 [1; 2; 3]) 0 block0 4 [1; 2; 3]
  ∧ begin 0 (vec 4 [1; 2; 3]) = Done (block0 +ₚ 0) (vec 4 [1; 2; 3])
  ∧ end_ 0 (vec 4 [1; 2; 3]) = Done (block0 +ₚ 3) (vec 4 [1; 2; 3])
  ∧ load (block0 +ₚ 0 +ₚ 2) (vec 4 [1; 2; 3]) = Done 3 (vec 4 [1; 2; 3])
  ∧ load (block0 +ₚ 3) (vec 4 [1; 2; 3]) = Undefined.
Proof.
  assert (Hv : vector_at 4 (vec 4 [1; 2; 3]) 0 block0 4 [1; 2; 3])
    by (repeat split; simpl; lia).
  split; [exact Hv|].
  destruct (X9_iterator_range 4 0 (vec 4 [1; 2; 3]) block0 4 [1; 2; 3] Hv)
    as (Hb & _ & He & _ & _ & Hload & Hend).
  split; [exact Hb|]. split; [exact He|].
  split; [apply Hload; reflexivity | exact Hend].
Defined.

(** X10 at the vector [1; 2; 3] of capacity 4 and Reserve(10). *)
Lemma X10_reserve_keeps_elements_witness :
  vector_at 4 (vec 4 [1; 2; 3]) 0 block0 4 [1; 2; 3]
  ∧ ∃ s' buf', Reserve moved_nat false true 4 never 0 10 (vec 4 [1; 2; 3])
               = Done () s'
               ∧ vector_at 4 s' 0 buf' 10 [1; 2; 3].
Proof.
  assert (Hv : vector_at 4 (vec 4 [1; 2; 3]) 0 block0 4 [1; 2; 3])
    by (repeat split; simpl; lia).
  split; [exact Hv|].
  destruct (X10_reserve_keeps_elements moved_nat false true 4 never 0
              (vec 4 [1; 2; 3]) block0 4 [1; 2; 3] 10) as (Hq & Hd);
    [lia | exact Hv | reflexivity |].
  destruct (Hq never_quiet) as (s' & Hr).
  destruct (Hd s' Hr) as (buf' & Hv' & _).
  exists s', buf'. split; [exact Hr | exact Hv'].
Defined.

(** X11 at the vector [1; 2; 3] of capacity 4: Resize(5) and
    Resize(1). *)
Lemma X11_resize_witness :
  vector_at 4 (vec 4 [1; 2; 3]) 0 block0 4 [1; 2; 3]
  ∧ (∃ s' buf', Resize moved_nat 0 false true 4 never 0 5 (vec 4 [1; 2; 3])
                = Done () s'
                ∧ vector_at 4 s' 0 buf' 5 [1; 2; 3; 0; 0])
  ∧ (∃ s', Resize moved_nat 0 false true 4 never 0 1 (vec 4 [1; 2; 3])
           = Done () s'
           ∧ vector_at 4 s' 0 block0 4 [1]
           ∧ trace s' = [EvDtor 2; EvDtor 3]).
Proof.
  assert (Hv : vector_at 4 (vec 4 [1; 2; 3]) 0 block0 4 [1; 2; 3])
    by (repeat split; simpl; lia).
  split; [exact Hv|]. split.
  - destruct (X11_resize moved_nat 0 false true 4 never 0 (vec 4 [1; 2; 3])
                block0 4 [1; 2; 3] 5) as (Hq & Hd & _);
      [lia | exact Hv | reflexivity |].
    destruct (Hq never_quiet) as (s' & Hr).
    destruct (Hd s' Hr) as (buf' & Hv' & _).
    exists s', buf'. split; [exact Hr | exact Hv'].
  - destruct (X11_resize moved_nat 0 false true 4 never 0 (vec 4 [1; 2; 3])
                block0 4 [1; 2; 3] 1) as (_ & Hd & Hs);
      [lia | exact Hv | reflexivity |].
    destruct (Hs ltac:(simpl; lia)) as (s' & Hr & Htr & _).
    destruct (Hd s' Hr) as (buf' & Hv' & Hsame & _).
    rewrite (Hsame ltac:(lia)) in Hv'.
    exists s'. split; [exact Hr|]. split; [exact Hv' | exact Htr].
Defined.

(** X12 at the full vector [7] of capacity 1 and Resize(3), when the
    default constructor throws after Reserve has moved the vector to a
    block of capacity 3. *)
Lemma X12_resize_failure_witness :
  vector_at 4 (vec 1 [7]) 0 block0 1 [7]
  ∧ ∃ s', Resize moved_nat 0 false true 4 late_value_ctor 0 3 (vec 1 [7])
          = Thrown s'
          ∧ vector_at 4 s' 0 block1 3 [7]
          ∧ leaked s' = [].
Proof.
  assert (Hv : vector_at 4 (vec 1 [7]) 0 block0 1 [7])
    by (repeat split; simpl; lia).
  split; [exact Hv|].
  eexists. split; [vm_compute; reflexivity|].
  destruct (X12_resize_failure moved_nat 0 false true 4 late_value_ctor 0
              (vec 1 [7]) block0 1 [7] 3 ltac:(lia) Hv ltac:(reflexivity)
              ltac:(right; reflexivity) _ ltac:(vm_compute; reflexivity))
    as (buf' & cap' & _ & Hlk & _).
  split; [repeat split; simpl; lia | exact Hlk].
Defined.

(** X13 at the full vector [1; 2] of capacity 2 and the value 9. *)
Lemma X13_push_pop_round_trip_witness :
  vector_at 4 (vec 2 [1; 2]) 0 block0 2 [1; 2]
  ∧ ∃ p s1 s2 buf',
      EmplaceBack moved_nat false true 4 never 0 9 (vec 2 [1; 2]) = Done p s1
      ∧ PopBack 0 s1 = Done () s2
      ∧ vector_at 4 s2 0 buf' 4 [1; 2]
      ∧ trace s2 = trace s1 ++ [EvDtor 9].
Proof.
  assert (Hv : vector_at 4 (vec 2 [1; 2]) 0 block0 2 [1; 2])
    by (repeat split; simpl; lia).
  split; [exact Hv|].
  destruct (X13_push_pop_round_trip moved_nat false true 4 never 0
              (vec 2 [1; 2]) block0 2 [1; 2] 9) as (Hq & Hd);
    [lia | exact Hv | reflexivity |].
  destruct (Hq never_quiet) as (p & s1 & Hr).
  destruct (Hd p s1 Hr) as (s2 & buf' & Hpop & Hv' & _ & Htr & _).
  exists p, s1, s2, buf'. split; [exact Hr|]. split; [exact Hpop|].
  split; [exact Hv' | exact Htr].
Defined.

(** X14 at the vector [1; 2; 3] of capacity 4, inserting 9 at offset 1
    and erasing it again. *)
Lemma X14_insert_erase_round_trip_witness :
  vector_at 4 (vec 4 [1; 2; 3]) 0 block0 4 [1; 2; 3]
  ∧ ∃ p s1 s2,
      Emplace moved_nat false true 4 never 0 (block0 +ₚ 1) 9 (vec 4 [1; 2; 3])
      = Done p s1
      ∧ Erase moved_nat never 0 p s1 = Done p s2
      ∧ vector_at 4 s2 0 block0 4 [1; 2; 3].
Proof.
  assert (Hv : vector_at 4 (vec 4 [1; 2; 3]) 0 block0 4 [1; 2; 3])
    by (repeat split; simpl; lia).
  split; [exact Hv|].
  eexists _, _.
  assert (Hr : Emplace moved_nat false true 4 never 0 (block0 +ₚ 1) 9
                 (vec 4 [1; 2; 3])
               = Done (mkPtr (Some 0) 1)
                   (mkState [mkVector (mkRawMemory block0 4) 4]
                      [Some [Some 1; Some 9; Some 2; Some 3]] []
                      [EvCtor 9; EvMoveCtor 3; EvMoveAssign 0 2;
                       EvMoveAssign 0 9; EvDtor 0]))
    by (vm_compute; reflexivity).
  destruct (X14_insert_erase_round_trip moved_nat false true 4 never 0
              (vec 4 [1; 2; 3]) block0 4 [1; 2; 3] 1 9 ltac:(lia) Hv
              ltac:(simpl; lia) ltac:(reflexivity) _ _ Hr) as (Hq & Hd).
  destruct (Hq never_quiet) as (q & s2 & He).
  destruct (Hd q s2 He) as (-> & buf' & Hv' & Hsame & _).
  rewrite (Hsame ltac:(simpl; lia)) in Hv'.
  exists s2. split; [exact Hr|]. split; [exact He | exact Hv'].
Defined.

(** X15 at the full vector [1; 2] of capacity 2 and the value 9. *)
Lemma X15_emplace_at_end_is_emplace_back_witness :
  vector_at 4 (vec 2 [1; 2]) 0 block0 2 [1; 2]
  ∧ ∃ p s',
      EmplaceBack moved_nat false true 4 never 0 9 (vec 2 [1; 2]) = Done p s'
      ∧ Emplace moved_nat false true 4 never 0 (block0 +ₚ 2) 9 (vec 2 [1; 2])
        = Done p s'.
Proof.
  assert (Hv : vector_at 4 (vec 2 [1; 2]) 0 block0 2 [1; 2])
    by (repeat split; simpl; lia).
  split; [exact Hv|].
  destruct (X15_emplace_at_end_is_emplace_back moved_nat false true 4 never 0
              (vec 2 [1; 2]) block0 2 [1; 2] 9) as (Hq & _);
    [lia | exact Hv | reflexivity |].
  exact (Hq never_quiet).
Defined.

(** X16 at an empty vector of capacity 2 and at the vector [1] of
    capacity 2, when the constructor of 9 throws. *)
Lemma X16_emplace_at_end_throws_witness :
  vector_at 4 (vec 2 []) 0 block0 2 []
  ∧ EmplaceBack moved_nat false true 4 ctor_of_9 0 9 (vec 2 []) = Thrown (vec 2 [])
  ∧ (∃ s', Emplace moved_nat false true 4 ctor_of_9 0 (block0 +ₚ 0) 9 (vec 2 [])
           = Thrown s'
           ∧ capacity_of s' 0 = Some 2
           ∧ heap s' !! 0 = Some None)
  ∧ Emplace moved_nat false true 4 ctor_of_9 0 (block0 +ₚ 1) 9 (vec 2 [1])
    = Undefined.
Proof.
  assert (Hv : vector_at 4 (vec 2 []) 0 block0 2 [])
    by (repeat split; simpl; lia).
  split; [exact Hv|].
  destruct (X16_emplace_at_end_throws moved_nat false true 4 ctor_of_9 0
              (vec 2 []) block0 2 [] 9) as (Hb & He & _);
    [lia | exact Hv | simpl; lia | reflexivity |].
  split; [exact Hb|]. split.
  - destruct (He eq_refl) as (s' & Hr & _ & Hcap & Hheap & _).
    exists s'. split; [exact Hr|]. split; [exact Hcap|].
    apply Hheap. reflexivity.
  - destruct (X16_emplace_at_end_throws moved_nat false true 4 ctor_of_9 0
                (vec 2 [1]) block0 2 [1] 9) as (_ & _ & Hu);
      [lia | repeat split; simpl; lia | simpl; lia | reflexivity |].
    apply Hu. discriminate.
Defined.

(** X17 at the vector [5] of capacity 2. *)
Lemma X17_erase_at_end_witness :
  vector_at 4 (vec 2 [5]) 0 block0 2 [5]
  ∧ in_range 0 (block0 +ₚ 1) (vec 2 [5]) = Done true (vec 2 [5])
  ∧ Erase moved_nat never 0 (block0 +ₚ 1) (vec 2 [5]) = Undefined.
Proof.
  assert (Hv : vector_at 4 (vec 2 [5]) 0 block0 2 [5])
    by (repeat split; simpl; lia).
  split; [exact Hv|].
  exact (X17_erase_at_end moved_nat 4 never 0 (vec 2 [5]) block0 2 [5]
           ltac:(lia) Hv).
Defined.

(** X18 at a default-constructed vector in a state with no block and
    the calls PushBack(1), PushBack(2), PopBack(), PushBack(3). *)
Lemma X18_nothing_left_behind_witness :
  vector_at 4 fresh 0 nullptr 0 []
  ∧ sole_block fresh nullptr
  ∧ ∃ s', (run_ops moved_nat false true 4 never 0
             [Push 1; Push 2; Pop; Push 3];; Vector_delete 0) fresh
          = Done () s'
          ∧ heap s' = [None; None]
          ∧ leaked s' = [].
Proof.
  assert (Hv : vector_at 4 fresh 0 nullptr 0 [])
    by (repeat split; simpl; lia).
  assert (Hsole : sole_block fresh nullptr) by (intros [|b] blk; discriminate).
  split; [exact Hv|]. split; [exact Hsole|].
  eexists. split; [vm_compute; reflexivity|].
  destruct (X18_nothing_left_behind moved_nat false true 4 never 0 fresh
              nullptr 0 [Push 1; Push 2; Pop; Push 3] [1; 3]) as (_ & Hd);
    [lia | exact Hv | exact Hsole | reflexivity | reflexivity |].
  destruct (Hd _ ltac:(vm_compute; reflexivity)) as (_ & Hlk).
  split; [reflexivity | exact Hlk].
Defined.

(** X19 at the vector [1; 2; 3] of capacity 4 (in place) and at the
    full vector [1; 2] (with reallocation), inserting at the front a
    reference to the last element. *)
Lemma X19_insert_own_element_witness :
  vector_at 4 (vec 4 [1; 2; 3]) 0 block0 4 [1; 2; 3]
  ∧ (∃ p s', Insert_ref moved_nat false true 4 never 0 (block0 +ₚ 0)
               (block0 +ₚ 2) (vec 4 [1; 2; 3]) = Done p s'
             ∧ vector_at 4 s' 0 block0 4 [3; 1; 2; 3])
  ∧ (∃ p s' buf', Insert_ref moved_nat true true 4 never 0 (block0 +ₚ 0)
                    (block0 +ₚ 1) (vec 2 [1; 2]) = Done p s'
                  ∧ vector_at 4 s' 0 buf' 4 [2; 1; 2]).
Proof.
  assert (Hv : vector_at 4 (vec 4 [1; 2; 3]) 0 block0 4 [1; 2; 3])
    by (repeat split; simpl; lia).
  split; [exact Hv|]. split.
  - destruct (X19_insert_own_element moved_nat false true 4 never 0
                (vec 4 [1; 2; 3]) block0 4 [1; 2; 3] 0 2 3) as (_ & Hq & Hd);
      [lia | exact Hv | simpl; lia | reflexivity | reflexivity |].
    destruct (Hq never_quiet) as (p & s' & Hr).
    destruct (Hd p s' Hr) as (buf' & Hv' & _).
    exists p, s'. split; [exact Hr|].
    assert (Hb : buf' = block0).
    { destruct Hv' as [Hobj _]. revert Hobj Hr. vm_compute.
      intros Hobj [= _ <-]. by injection Hobj as <-. }
    rewrite Hb in Hv'. exact Hv'.
  - destruct (X19_insert_own_element moved_nat true true 4 never 0
                (vec 2 [1; 2]) block0 2 [1; 2] 0 1 2) as (_ & Hq & Hd);
      [lia | repeat split; simpl; lia | simpl; lia | reflexivity
       | reflexivity |].
    destruct (Hq never_quiet) as (p & s' & Hr).
    destruct (Hd p s' Hr) as (buf' & Hv' & _).
    exists p, s', buf'. split; [exact Hr | exact Hv'].
Defined.

(** X20 at the full vector [1; 2] of capacity 2, for a type that is
    relocated by move: PushBack of a reference to the first element. *)
Lemma X20_push_back_own_element_witness :
  vector_at 4 (vec 2 [1; 2]) 0 block0 2 [1; 2]
  ∧ ∃ s' buf', PushBack_ref moved_nat true true 4 never 0 (block0 +ₚ 0)
                 (vec 2 [1; 2]) = Done () s'
               ∧ vector_at 4 s' 0 buf' 4 [1; 2; 1].
Proof.
  assert (Hv : vector_at 4 (vec 2 [1; 2]) 0 block0 2 [1; 2])
    by (repeat split; simpl; lia).
  split; [exact Hv|].
  destruct (X20_push_back_own_element moved_nat true true 4 never 0
              (vec 2 [1; 2]) block0 2 [1; 2] 0 1) as (_ & Hq & Hd);
    [lia | exact Hv | reflexivity | reflexivity |].
  destruct (Hq never_quiet) as (s' & Hr).
  destruct (Hd s' Hr) as (buf' & Hv' & _).
  exists s', buf'. split; [exact Hr | exact Hv'].
Defined.

(** X22 at RawMemory(3) for elements of four bytes. *)
Lemma X22_raw_memory_ownership_witness :
  ∃ d s1 s2,
    RawMemory_new 4 never 3 fresh = Done d s1
    ∧ capacity_ d = 3
    ∧ RawMemory_plus d 3 s1 = Done (buffer_ d +ₚ 3) s1
    ∧ RawMemory_plus d 4 s1 = AssertFailed
    ∧ RawMemory_delete d s1 = Done () s2
    ∧ heap s2 = [None]
    ∧ RawMemory_delete d s2 = Undefined.
Proof.
  eexists _, _.
  assert (Hnew : RawMemory_new 4 never 3 fresh
                 = Done (mkRawMemory block0 3)
                     (mkState [Vector_default] [Some [None; None; None]] []
                              [EvNew 12]))
    by (vm_compute; reflexivity).
  destruct (X22_raw_memory_ownership 4 never 3 fresh _ _ ltac:(lia) ltac:(lia)
              ltac:(reflexivity) Hnew)
    as (Hcap & Hplus & Hass & (s2 & Hdel & Hheap & _ & Hdd) & _).
  exists s2. split; [exact Hnew|]. split; [exact Hcap|].
  split; [apply Hplus; lia|]. split; [apply Hass; lia|].
  split; [exact Hdel|]. split; [exact Hheap | exact Hdd].
Defined.

(** X23 at the vector [1; 2; 3] of capacity 4. *)
Lemma X23_copy_is_independent_witness :
  vector_at 4 (vec 4 [1; 2; 3]) 0 block0 4 [1; 2; 3]
  ∧ ∃ v s', Vector_copy 4 never 0 (vec 4 [1; 2; 3]) = Done v s'
            ∧ buffer_ (data_ v) = block1
            ∧ heap s' = [Some [Some 1; Some 2; Some 3; None];
                         Some [Some 1; Some 2; Some 3]]
            ∧ trace s' = [EvNew 12; EvCopyCtor 1; EvCopyCtor 2; EvCopyCtor 3].
Proof.
  assert (Hv : vector_at 4 (vec 4 [1; 2; 3]) 0 block0 4 [1; 2; 3])
    by (repeat split; simpl; lia).
  split; [exact Hv|].
  eexists _, _.
  assert (Hr : Vector_copy 4 never 0 (vec 4 [1; 2; 3])
               = Done (mkVector (mkRawMemory block1 3) 3)
                   (mkState [mkVector (mkRawMemory block0 4) 3]
                      [Some [Some 1; Some 2; Some 3; None];
                       Some [Some 1; Some 2; Some 3]] []
                      [EvNew 12; EvCopyCtor 1; EvCopyCtor 2; EvCopyCtor 3]))
    by (vm_compute; reflexivity).
  destruct (X23_copy_is_independent 4 never 0 (vec 4 [1; 2; 3]) block0 4
              [1; 2; 3] ltac:(lia) Hv _ _ Hr) as (_ & H).
  destruct (H ltac:(discriminate)) as (Hb & _ & Hheap & Htr).
  split; [exact Hr|]. split; [exact Hb|]. split; [exact Hheap | exact Htr].
Defined.

(** X21 at RawMemory(2) for elements of four bytes. *)
Lemma X21_allocation_size_witness :
  ∃ s1, RawMemory_new 4 never 2 fresh = Done (mkRawMemory block0 2) s1
        ∧ heap s1 = [Some [None; None]]
        ∧ trace s1 = [EvNew 8].
Proof.
  destruct (X21_allocation_size 4 never 2 fresh ltac:(lia) ltac:(lia)
              ltac:(reflexivity)) as (s1 & slots & Hr & Hheap & Htr & Hfit & _).
  exists s1. split; [exact Hr|].
  rewrite (Hfit ltac:(vm_compute; reflexivity)) in Hheap.
  split; [exact Hheap | exact Htr].
Defined.
